(** * Execution ingestion engine: block intake, execution queues,
      collection matching and the executor latch

    A shallow embedding of [engine/execution/ingestion/engine.go].  The
    engine keeps its blocks behind pointers that are shared between the
    execution queues and the collection reverse index, so the model has an
    explicit heap of [ExecutableBlock] objects; the manager lock makes every
    critical section atomic, so each one is a state transformer. *)

From stdpp Require Import base option list gmap strings.
From Stdlib Require Import NArith Lia.

Open Scope string_scope.
Open Scope list_scope.
Open Scope N_scope.

(** Identifiers (32 opaque bytes in the source), state commitments and
    transactions are opaque values: only equality is ever used on them. *)
Abbreviation Identifier := N (only parsing).
Abbreviation StateCommitment := N (only parsing).
Abbreviation Transaction := N (only parsing).
(** A pointer is an index into the heap of executable blocks. *)
Abbreviation ptr := nat (only parsing).

(** ** Package [storage]: the three results of a point lookup *)

Inductive Lookup (A : Type) : Type :=
| Found (a : A)
| ErrNotFound
| ErrStorage.
Arguments Found {A} a.
Arguments ErrNotFound {A}.
Arguments ErrStorage {A}.

(** ** Package [flow]: blocks, guarantees, collections *)

Module flow.

Record CollectionGuarantee := mkGuarantee { CollectionID : Identifier }.

Record Collection := mkCollection {
  CollID : Identifier;
  Transactions : list Transaction }.

Record Header := mkHeader {
  HeaderID : Identifier;
  Height : N;
  ParentID : Identifier }.

Record Block := mkBlock {
  BlockHeader : Header;
  Guarantees : list CollectionGuarantee }.

(** Modelled from the spec: [CollectionGuarantee.ID], of package [flow],
    is not among the sources; a guarantee is identified by its
    [CollectionID]. *)
Definition GuaranteeID (g : CollectionGuarantee) : Identifier := CollectionID g.

(** Modelled from the spec: [Block.ID], of package [flow]; a block is
    identified by the identifier of its header. *)
Definition BlockID (b : Block) : Identifier := HeaderID (BlockHeader b).

End flow.

(** ** Package [entity]: the mutable bookkeeping records *)

Module entity.

Record CompleteCollection := mkComplete {
  Guarantee : flow.CollectionGuarantee;
  Transactions : option (list Transaction) }.

Record ExecutableBlock := mkExecutable {
  Block : flow.Block;
  StartState : option StateCommitment;
  CompleteCollections : gmap N CompleteCollection;
  Executing : bool }.

(** The reverse index entry: the blocks waiting for one collection.  The
    source keeps a Go map from block identifier to block pointer and ranges
    over it; the order of that range is unspecified, so the model keeps an
    association list and every statement holds for every order. *)
Record BlocksByCollection := mkByCollection {
  ByCollectionID : Identifier;
  ExecutableBlocks : list (Identifier * ptr) }.

Definition ID (eb : ExecutableBlock) : Identifier := flow.BlockID (Block eb).
Definition ParentID (eb : ExecutableBlock) : Identifier :=
  flow.ParentID (flow.BlockHeader (Block eb)).
Definition Height (eb : ExecutableBlock) : N :=
  flow.Height (flow.BlockHeader (Block eb)).

(** Modelled from the spec: [CompleteCollection.IsCompleted], of package
    [entity]: the collection has its transactions filled. *)
Definition IsCompleted (c : CompleteCollection) : bool :=
  match Transactions c with Some _ => true | None => false end.

(** Modelled from the spec: [ExecutableBlock.IsComplete], of package
    [entity]: the start state is set and every complete collection of the
    block has its transactions filled. *)
Definition IsComplete (eb : ExecutableBlock) : bool :=
  match StartState eb with
  | None => false
  | Some _ => forallb (fun kc => IsCompleted kc.2) (map_to_list (CompleteCollections eb))
  end.

Definition withStartState (c : option StateCommitment) (eb : ExecutableBlock) :=
  mkExecutable (Block eb) c (CompleteCollections eb) (Executing eb).
Definition withCollections (m : gmap N CompleteCollection) (eb : ExecutableBlock) :=
  mkExecutable (Block eb) (StartState eb) m (Executing eb).
Definition withExecuting (b : bool) (eb : ExecutableBlock) :=
  mkExecutable (Block eb) (StartState eb) (CompleteCollections eb) b.
(** [eb.CompleteCollections[id] = c] *)
Definition setCollection (id : Identifier) (c : CompleteCollection) (eb : ExecutableBlock) :=
  withCollections (<[id := c]> (CompleteCollections eb)) eb.

End entity.

(** ** Package [queue]: the tree of blocks awaiting execution *)

Module queue.

(** What the queue sees of an item: the three read-only methods of the
    [Blockify] interface and the pointer to the block itself. *)
Record Blockify := mkBlockify {
  ID : Identifier;
  ParentID : Identifier;
  Height : N;
  Item : ptr }.

(** Modelled from the spec: the queue type, of package [queue], is not
    among the sources; an execution queue is a rooted tree of blocks
    connected parent to child, and its root is the head. *)
#[warnings="-register-all"]
Inductive Node : Type := mkNode (item : Blockify) (children : list Node).

Definition item (n : Node) : Blockify := let 'mkNode i _ := n in i.
Definition children (n : Node) : list Node := let 'mkNode _ c := n in c.

Record Queue := mkQueue { Head : Node }.

(** The node of identifier [id], when the tree has one ([q.Nodes[id]]). *)
Fixpoint find (id : Identifier) (n : Node) : option Blockify :=
  let 'mkNode i cs := n in
  if decide (ID i = id) then Some i
  else (fix go (l : list Node) : option Blockify :=
          match l with
          | [] => None
          | c :: l' => match find id c with Some b => Some b | None => go l' end
          end) cs.

Definition findIn (id : Identifier) : list Node → option Blockify :=
  fix go (l : list Node) : option Blockify :=
    match l with
    | [] => None
    | c :: l' => match find id c with Some b => Some b | None => go l' end
    end.

Definition Nodes (q : Queue) (id : Identifier) : option Blockify := find id (Head q).

(** Hang [b] as the last child of every node whose identifier is the parent
    of [b]. *)
Fixpoint attach (b : Blockify) (n : Node) : Node :=
  let 'mkNode i cs := n in
  let cs' := List.map (attach b) cs in
  if decide (ID i = ParentID b) then mkNode i (cs' ++ [mkNode b []]) else mkNode i cs'.

(** Modelled from the spec: [Queue.TryAdd], of package [queue].  It
    succeeds when the parent of the block is a node of the queue, and the
    block becomes a child of that node; a block that is already a node of
    the queue is stored but not new.  The result is the queue after the
    call, [stored] and [new]. *)
Definition TryAdd (q : Queue) (b : Blockify) : Queue * bool * bool :=
  match Nodes q (ID b) with
  | Some _ => (q, true, false)
  | None =>
      match Nodes q (ParentID b) with
      | None => (q, false, false)
      | Some _ => (mkQueue (attach b (Head q)), true, true)
      end
  end.

(** Modelled from the spec: [NewQueue] and [Queue.ID], of package [queue]:
    a queue rooted at the block, named after its head. *)
Definition NewQueue (b : Blockify) : Queue := mkQueue (mkNode b []).
Definition QueueID (q : Queue) : Identifier := ID (item (Head q)).

(** Modelled from the spec: [Queue.Dismount], of package [queue]: the head
    is taken off and each of its children becomes the root of a queue of
    its own. *)
Definition Dismount (q : Queue) : Blockify * list Queue :=
  (item (Head q), List.map mkQueue (children (Head q))).

End queue.

(** ** Package [stdmap]: the two backdata maps of the mempool *)

Module stdmap.

(** Modelled from the spec: [QueuesBackdata], of package [stdmap], is not
    among the sources: the set of queues, keyed by queue identifier.  [All]
    ranges over a Go map, in an unspecified order: the model keeps the
    entries in a list and every statement holds for every list. *)
Definition QueuesBackdata := list (Identifier * queue.Queue).

Definition QByID (id : Identifier) (b : QueuesBackdata) : option queue.Queue :=
  snd <$> List.find (fun e => bool_decide (e.1 = id)) b.

(** [Add] refuses a key that is already taken. *)
Definition QAdd (id : Identifier) (q : queue.Queue) (b : QueuesBackdata)
  : QueuesBackdata * bool :=
  match QByID id b with
  | Some _ => (b, false)
  | None => (b ++ [(id, q)], true)
  end.

Definition QRemove (id : Identifier) (b : QueuesBackdata) : QueuesBackdata :=
  List.filter (fun e => negb (bool_decide (e.1 = id))) b.

(** Modelled from the spec: [BlockByCollectionBackdata], of package
    [stdmap]: the reverse index from collection identifier to the blocks
    waiting for it, with [ByID], [Add] (refusing a taken key) and
    [Remove]. *)
Definition CAdd (id : Identifier) (e : entity.BlocksByCollection)
  (b : gmap N entity.BlocksByCollection) : gmap N entity.BlocksByCollection * bool :=
  match b !! id with
  | Some _ => (b, false)
  | None => (<[id := e]> b, true)
  end.

End stdmap.

(** ** Package [ingestion]: the engine *)

Module ingestion.

(** The result of the virtual machine on a block, as far as the engine
    reads it. *)
Record ComputationResult := mkResult {
  EndState : StateCommitment;
  ExecutionResultID : Identifier }.

Inductive SaveOutcome := SaveOk | SaveDataMismatch | SaveError.

(** The collaborators the engine only reads: protocol state, block storage,
    the virtual machine, and the outcome of the writes it asks for. *)
Record Env := mkEnv {
  rootBlock : option flow.Header;
  atBlockID : Identifier → option flow.Header;
  atHeight : N → option flow.Header;
  finalHead : option flow.Header;
  finalDescendants : option (list Identifier);
  sealedHead : option flow.Header;
  findGuarantors : flow.CollectionGuarantee → option (list Identifier);
  blocksByID : Identifier → option flow.Block;
  computeBlock : Identifier → entity.ExecutableBlock → option ComputationResult;
  saveOutcome : Identifier → ComputationResult → SaveOutcome;
  checkAuthorizedAtBlock : Identifier → option bool;
  broadcastReceipt : Identifier → bool;
  storeCollection : flow.Collection → bool }.

(** The persisted execution state the engine reads and writes. *)
Record ExecutionState := mkExecState {
  commits : Identifier → Lookup StateCommitment;
  resultIDs : Identifier → Lookup Identifier;
  executedIndex : Identifier → option bool;
  highestExecuted : option (N * Identifier) }.

(** The engine: the heap of executable blocks, the two maps of the mempool,
    storage, and what the engine has asked of its collaborators so far
    (background executions launched, collections requested, receipts
    broadcast, errors logged). *)
Record Engine := mkEngine {
  heap : list entity.ExecutableBlock;
  executionQueues : stdmap.QueuesBackdata;
  blockByCollection : gmap N entity.BlocksByCollection;
  maxCollectionHeight : N;
  execState : ExecutionState;
  collections : Identifier → Lookup flow.Collection;
  launched : list ptr;
  requested : list Identifier;
  forced : nat;
  broadcasted : list Identifier;
  errors : list string }.

Definition setHeap h (s : Engine) :=
  mkEngine h (executionQueues s) (blockByCollection s) (maxCollectionHeight s)
    (execState s) (collections s) (launched s) (requested s) (forced s)
    (broadcasted s) (errors s).
Definition setQueues q (s : Engine) :=
  mkEngine (heap s) q (blockByCollection s) (maxCollectionHeight s)
    (execState s) (collections s) (launched s) (requested s) (forced s)
    (broadcasted s) (errors s).
Definition setByCollection b (s : Engine) :=
  mkEngine (heap s) (executionQueues s) b (maxCollectionHeight s)
    (execState s) (collections s) (launched s) (requested s) (forced s)
    (broadcasted s) (errors s).
Definition setMaxHeight h (s : Engine) :=
  mkEngine (heap s) (executionQueues s) (blockByCollection s) h
    (execState s) (collections s) (launched s) (requested s) (forced s)
    (broadcasted s) (errors s).
Definition setExecState e (s : Engine) :=
  mkEngine (heap s) (executionQueues s) (blockByCollection s) (maxCollectionHeight s)
    e (collections s) (launched s) (requested s) (forced s)
    (broadcasted s) (errors s).
Definition setCollections c (s : Engine) :=
  mkEngine (heap s) (executionQueues s) (blockByCollection s) (maxCollectionHeight s)
    (execState s) c (launched s) (requested s) (forced s)
    (broadcasted s) (errors s).
Definition setLaunched l (s : Engine) :=
  mkEngine (heap s) (executionQueues s) (blockByCollection s) (maxCollectionHeight s)
    (execState s) (collections s) l (requested s) (forced s)
    (broadcasted s) (errors s).
Definition setRequested r (s : Engine) :=
  mkEngine (heap s) (executionQueues s) (blockByCollection s) (maxCollectionHeight s)
    (execState s) (collections s) (launched s) r (forced s)
    (broadcasted s) (errors s).
Definition setForced f (s : Engine) :=
  mkEngine (heap s) (executionQueues s) (blockByCollection s) (maxCollectionHeight s)
    (execState s) (collections s) (launched s) (requested s) f
    (broadcasted s) (errors s).
Definition setBroadcasted b (s : Engine) :=
  mkEngine (heap s) (executionQueues s) (blockByCollection s) (maxCollectionHeight s)
    (execState s) (collections s) (launched s) (requested s) (forced s)
    b (errors s).
Definition setErrors e (s : Engine) :=
  mkEngine (heap s) (executionQueues s) (blockByCollection s) (maxCollectionHeight s)
    (execState s) (collections s) (launched s) (requested s) (forced s)
    (broadcasted s) e.

(** *** The monad of the engine

    A call returns normally, returns a Go error, or ends the process
    ([log.Fatal], or a panic).  An error return keeps the mutations made
    before it: nothing is rolled back. *)
Inductive Result (A : Type) : Type :=
| Ok (s : Engine) (a : A)
| Failed (s : Engine) (e : string)
| Fatal (e : string).
Arguments Ok {A} s a.
Arguments Failed {A} s e.
Arguments Fatal {A} e.

Definition M (A : Type) : Type := Engine → Result A.

Definition ret {A} (a : A) : M A := fun s => Ok s a.
Definition bind {A B} (m : M A) (k : A → M B) : M B :=
  fun s => match m s with
           | Ok s' a => k a s'
           | Failed s' e => Failed s' e
           | Fatal e => Fatal e
           end.
Definition fail {A} (e : string) : M A := fun s => Failed s e.
Definition fatal {A} (e : string) : M A := fun _ => Fatal e.
Definition get : M Engine := fun s => Ok s s.
Definition modify (f : Engine → Engine) : M unit := fun s => Ok (f s) tt.

(** [err := m(); if err != nil { ... }]: the error is a value. *)
Definition try {A} (m : M A) : M (A + string) :=
  fun s => match m s with
           | Ok s' a => Ok s' (inl a)
           | Failed s' e => Ok s' (inr e)
           | Fatal e => Fatal e
           end.
(** [fmt.Errorf("msg: %w", err)] *)
Definition wrap {A} (msg : string) (m : M A) : M A :=
  fun s => match m s with
           | Failed s' e => Failed s' (msg +:+ e)
           | r => r
           end.

Notation "x <- m ;; k" := (bind m (fun x => k))
  (at level 20, m at level 99, k at level 200, only parsing).
Notation "m ;; k" := (bind m (fun _ => k))
  (at level 100, k at level 200, right associativity, only parsing).

Definition logError (msg : string) : M unit :=
  modify (fun s => setErrors (errors s ++ [msg]) s).

(** Reading and writing through a block pointer.  Every pointer the engine
    holds comes from an allocation; a dangling one is a crash. *)
Definition load (p : ptr) : M entity.ExecutableBlock :=
  fun s => match heap s !! p with
           | Some eb => Ok s eb
           | None => Fatal "invalid memory address or nil pointer dereference"
           end.
(** An assignment to a field of the block behind [p]. *)
Definition mutate (p : ptr) (f : entity.ExecutableBlock → entity.ExecutableBlock) : M unit :=
  fun s => match heap s !! p with
           | Some eb => Ok (setHeap (<[p := f eb]> (heap s)) s) tt
           | None => Fatal "invalid memory address or nil pointer dereference"
           end.

Definition stateOf {A} (r : Result A) : option Engine :=
  match r with Ok s _ => Some s | Failed s _ => Some s | Fatal _ => None end.

Definition blockify (p : ptr) (eb : entity.ExecutableBlock) : queue.Blockify :=
  queue.mkBlockify (entity.ID eb) (entity.ParentID eb) (entity.Height eb) p.

(** *** [newQueue], [enqueue] *)

Definition newQueue (b : queue.Blockify) (queues : stdmap.QueuesBackdata)
  : stdmap.QueuesBackdata * queue.Queue * bool :=
  let q := queue.NewQueue b in
  let '(queues', added) := stdmap.QAdd (queue.QueueID q) q queues in
  (queues', q, added).

(** The loop of [enqueue]: the first queue that stores the block wins. *)
Fixpoint tryAddFirst (b : queue.Blockify) (queues : stdmap.QueuesBackdata)
  : option (stdmap.QueuesBackdata * queue.Queue * bool) :=
  match queues with
  | [] => None
  | (k, q) :: rest =>
      let '(q', stored, isNew) := queue.TryAdd q b in
      if stored then Some ((k, q') :: rest, q', isNew)
      else match tryAddFirst b rest with
           | Some (rest', q'', isNew') => Some ((k, q) :: rest', q'', isNew')
           | None => None
           end
  end.

(** [enqueue] gives the queues after the call, the queue that holds the
    block, whether the block is new, and whether it heads a new queue. *)
Definition enqueue (b : queue.Blockify) (queues : stdmap.QueuesBackdata)
  : stdmap.QueuesBackdata * queue.Queue * bool * bool :=
  match tryAddFirst b queues with
  | Some (queues', q, isNew) => (queues', q, isNew, false)
  | None => let '(queues', q, isNew) := newQueue b queues in (queues', q, isNew, true)
  end.

(** *** [executeBlockIfComplete] *)

Definition executeBlockIfComplete (p : ptr) : M bool :=
  eb <- load p ;;
  if entity.Executing eb then ret false
  else if entity.IsComplete eb then
    mutate p (entity.withExecuting true) ;;
    modify (fun s => setLaunched (launched s ++ [p]) s) ;;
    ret true
  else ret false.

(** *** [matchAndFindMissingCollections] *)

(** [m[k] = v] on the block map of a reverse index entry. *)
Fixpoint assign (k : Identifier) (p : ptr) (l : list (Identifier * ptr))
  : list (Identifier * ptr) :=
  match l with
  | [] => [(k, p)]
  | (k', p') :: l' => if decide (k' = k) then (k, p) :: l' else (k', p') :: assign k p l'
  end.

Fixpoint matchLoop (p : ptr) (guarantees : list flow.CollectionGuarantee)
  (missingCollections : list flow.CollectionGuarantee)
  : M (list flow.CollectionGuarantee) :=
  match guarantees with
  | [] => ret missingCollections
  | guarantee :: rest =>
      let gid := flow.GuaranteeID guarantee in
      eb <- load p ;;
      mutate p (entity.setCollection gid (entity.mkComplete guarantee None)) ;;
      s <- get ;;
      match blockByCollection s !! gid with
      | Some blocksNeedingCollection =>
          modify (setByCollection
                    (<[gid := entity.mkByCollection
                                (entity.ByCollectionID blocksNeedingCollection)
                                (assign (entity.ID eb) p
                                   (entity.ExecutableBlocks blocksNeedingCollection))]>
                       (blockByCollection s))) ;;
          matchLoop p rest missingCollections
      | None =>
          let blocksNeedingCollection := entity.mkByCollection gid [(entity.ID eb, p)] in
          let '(backdata, added) :=
            stdmap.CAdd (entity.ByCollectionID blocksNeedingCollection)
              blocksNeedingCollection (blockByCollection s) in
          if added then
            modify (setByCollection backdata) ;;
            matchLoop p rest (missingCollections ++ [guarantee])
          else fail "collection already mapped to block"
      end
  end.

Definition matchAndFindMissingCollections (p : ptr) : M (list flow.CollectionGuarantee) :=
  eb <- load p ;;
  matchLoop p (flow.Guarantees (entity.Block eb)) [].

(** *** [addCollectionToMempool] *)

Fixpoint deliverLoop (collection : flow.Collection) (blocks : list (Identifier * ptr))
  : M unit :=
  match blocks with
  | [] => ret tt
  | (_, p) :: rest =>
      let collID := flow.CollID collection in
      eb <- load p ;;
      match entity.CompleteCollections eb !! collID with
      | None =>
          fail "cannot handle collection: internal inconsistency - collection pointing to block which does not contain said collection"
      | Some completeCollection =>
          modify (fun s => if (maxCollectionHeight s <? entity.Height eb)%N
                           then setMaxHeight (entity.Height eb) s else s) ;;
          if entity.IsCompleted completeCollection then deliverLoop collection rest
          else
            mutate p (entity.setCollection collID
                        (entity.mkComplete (entity.Guarantee completeCollection)
                           (Some (flow.Transactions collection)))) ;;
            executeBlockIfComplete p ;;
            deliverLoop collection rest
      end
  end.

Definition addCollectionToMempool (collection : flow.Collection) : M unit :=
  s <- get ;;
  match blockByCollection s !! flow.CollID collection with
  | None => ret tt
  | Some blockByCollectionID =>
      deliverLoop collection (entity.ExecutableBlocks blockByCollectionID) ;;
      modify (fun s => setByCollection (delete (flow.CollID collection) (blockByCollection s)) s)
  end.

(** Modelled from the spec: [state.IsBlockExecuted], of package [state],
    is not among the sources: it consults the executed-blocks index, and a
    storage error of that check is an error of the call ([None]). *)
Definition IsBlockExecuted (st : ExecutionState) (blockID : Identifier) : option bool :=
  executedIndex st blockID.

Definition override {A B} `{EqDecision A} (f : A → B) (k : A) (v : B) : A → B :=
  fun x => if decide (x = k) then v else f x.

(** Modelled from the spec: [ExecutionState.SaveExecutionResults], of
    package [state]: the commit-to-block index, the result index and the
    executed mark are written as one unit, and the last-executed marker
    follows the highest block saved. *)
Definition SaveExecutionResults (height : N) (blockID : Identifier)
  (result : ComputationResult) (st : ExecutionState) : ExecutionState :=
  mkExecState
    (override (commits st) blockID (Found (EndState result)))
    (override (resultIDs st) blockID (Found (ExecutionResultID result)))
    (override (executedIndex st) blockID (Some true))
    (match highestExecuted st with
     | Some (h, id) => if (height <? h)%N then Some (h, id) else Some (height, blockID)
     | None => Some (height, blockID)
     end).

Section Engine.

Variable env : Env.

(** *** [fetchCollection], [fetchAndHandleCollection], [addOrFetch] *)

Definition fetchCollection (blockID : Identifier) (height : N)
  (guarantee : flow.CollectionGuarantee) : M unit :=
  match findGuarantors env guarantee with
  | None => fatal "failed to find guarantors for guarantee"
  | Some _ =>
      modify (fun s => setRequested (requested s ++ [flow.GuaranteeID guarantee]) s)
  end.

Fixpoint fetchLoop (blockID : Identifier) (height : N)
  (guarantees : list flow.CollectionGuarantee)
  (handleCollection : flow.Collection → M unit) (fetched : bool) : M bool :=
  match guarantees with
  | [] => ret fetched
  | guarantee :: rest =>
      s <- get ;;
      match collections s (flow.CollectionID guarantee) with
      | Found collection =>
          wrap "could not handle collection: " (handleCollection collection) ;;
          fetchLoop blockID height rest handleCollection fetched
      | ErrStorage => fail "error while querying for collection"
      | ErrNotFound =>
          wrap "could not fetch collection: " (fetchCollection blockID height guarantee) ;;
          fetchLoop blockID height rest handleCollection true
      end
  end.

Definition fetchAndHandleCollection (blockID : Identifier) (height : N)
  (guarantees : list flow.CollectionGuarantee)
  (handleCollection : flow.Collection → M unit) : M unit :=
  fetched <- fetchLoop blockID height guarantees handleCollection false ;;
  if fetched then modify (fun s => setForced (S (forced s)) s) else ret tt.

Definition addOrFetch (blockID : Identifier) (height : N)
  (guarantees : list flow.CollectionGuarantee) : M unit :=
  fetchAndHandleCollection blockID height guarantees
    (fun collection =>
       wrap "could not add collection to mempool: " (addCollectionToMempool collection)).

(** *** [handleCollection], [OnCollection] *)

Definition handleCollection (collection : flow.Collection) : M unit :=
  if storeCollection env collection then
    modify (fun s => setCollections
                       (override (collections s) (flow.CollID collection) (Found collection)) s) ;;
    addCollectionToMempool collection
  else fail "cannot store collection".

Definition OnCollection (collection : flow.Collection) : M unit :=
  r <- try (handleCollection collection) ;;
  match r with
  | inl _ => ret tt
  | inr e => logError ("could not handle collection: " +:+ e)
  end.

(** *** [enqueueBlockAndCheckExecutable] *)

Definition enqueueBlockAndCheckExecutable (block : flow.Block)
  : M (list flow.CollectionGuarantee) :=
  s <- get ;;
  let executableBlock := entity.mkExecutable block None ∅ false in
  let p := length (heap s) in
  let blockID := entity.ID executableBlock in
  let '(queues, queue, added, head) :=
    enqueue (blockify p executableBlock) (executionQueues s) in
  if negb added then ret []
  else
    modify (fun s => setQueues queues (setHeap (heap s ++ [executableBlock]) s)) ;;
    match commits (execState s) (flow.ParentID (flow.BlockHeader block)) with
    | Found parentCommitment =>
        mutate p (entity.withStartState (Some parentCommitment))
    | ErrNotFound =>
        match queue.Nodes queue blockID with
        | Some _ => ret tt
        | None => logError "an unexecuted parent block is missing in the queue"
        end
    | ErrStorage => fatal "unexpected error while accessing storage, shutting down"
    end ;;
    missingCollections <-
      wrap "cannot send collection requests: " (matchAndFindMissingCollections p) ;;
    (if head then executeBlockIfComplete p else ret false) ;;
    ret missingCollections.

(** *** [handleBlock] *)

Definition handleBlock (block : flow.Block) : M unit :=
  let blockID := flow.BlockID block in
  s <- get ;;
  match IsBlockExecuted (execState s) blockID with
  | None => fail "could not check whether block is executed"
  | Some true => ret tt
  | Some false =>
      missingCollections <-
        wrap "could not enqueue block: " (enqueueBlockAndCheckExecutable block) ;;
      addOrFetch blockID (flow.Height (flow.BlockHeader block)) missingCollections
  end.

(** *** [onBlockExecuted] *)

(** [missingCollections[child] = append(missingCollections[child], missing...)] *)
Fixpoint appendAt (child : ptr) (missing : list flow.CollectionGuarantee)
  (m : list (ptr * list flow.CollectionGuarantee))
  : list (ptr * list flow.CollectionGuarantee) :=
  match m with
  | [] => [(child, missing)]
  | (c, l) :: m' =>
      if decide (c = child) then (c, l ++ missing) :: m' else (c, l) :: appendAt child missing m'
  end.

(** The loop over the dismounted queues.  It gives the missing collections
    gathered so far and the error that ended it, if one did: the map of
    missing collections lives outside the critical section and keeps what
    was written to it before an error. *)
Fixpoint requeueLoop (finalState : StateCommitment) (newQueues : list queue.Queue)
  (missingCollections : list (ptr * list flow.CollectionGuarantee))
  : M (list (ptr * list flow.CollectionGuarantee) * option string) :=
  match newQueues with
  | [] => ret (missingCollections, None)
  | queue :: rest =>
      s <- get ;;
      let queueID := queue.QueueID queue in
      let '(queues, added) := stdmap.QAdd queueID queue (executionQueues s) in
      if negb added then
        ret (missingCollections, Some "fatal error - child block already in execution queue")
      else
        modify (setQueues queues) ;;
        let child := queue.Item (queue.item (queue.Head queue)) in
        mutate child (entity.withStartState (Some finalState)) ;;
        r <- try (matchAndFindMissingCollections child) ;;
        match r with
        | inr e => ret (missingCollections, Some ("cannot send collection requests: " +:+ e))
        | inl missing =>
            let missingCollections' :=
              match missing with
              | [] => missingCollections
              | _ => appendAt child missing missingCollections
              end in
            executeBlockIfComplete child ;;
            requeueLoop finalState rest missingCollections'
        end
  end.

(** The critical section of [onBlockExecuted]. *)
Definition requeueChildren (executed : ptr) (finalState : StateCommitment)
  : M (list (ptr * list flow.CollectionGuarantee) * option string) :=
  eb <- load executed ;;
  s <- get ;;
  match stdmap.QByID (entity.ID eb) (executionQueues s) with
  | None =>
      ret ([], Some "block has been executed already, no longer exists in the queue")
  | Some executionQueue =>
      let '(_, newQueues) := queue.Dismount executionQueue in
      r <- requeueLoop finalState newQueues [] ;;
      match r.2 with
      | Some e => ret r
      | None =>
          modify (fun s => setQueues (stdmap.QRemove (entity.ID eb) (executionQueues s)) s) ;;
          ret r
      end
  end.

Fixpoint addOrFetchAll (missingCollections : list (ptr * list flow.CollectionGuarantee))
  : M unit :=
  match missingCollections with
  | [] => ret tt
  | (child, missing) :: rest =>
      eb <- load child ;;
      wrap "fail to add missing collections: "
        (addOrFetch (entity.ID eb) (entity.Height eb) missing) ;;
      addOrFetchAll rest
  end.

Definition onBlockExecuted (executed : ptr) (finalState : StateCommitment) : M unit :=
  r <- requeueChildren executed finalState ;;
  match r.2 with
  | Some e => logError ("error while requeueing blocks after execution: " +:+ e)
  | None => ret tt
  end ;;
  addOrFetchAll r.1.

(** *** [executeBlock] *)

(** The background task started by [executeBlockIfComplete].  The upload of
    the result is best effort and leaves no trace here. *)
Definition executeBlock (p : ptr) : M unit :=
  executableBlock <- load p ;;
  s <- get ;;
  let parentID := entity.ParentID executableBlock in
  match resultIDs (execState s) parentID with
  | Found parentErID =>
      match entity.StartState executableBlock with
      | None => fatal "invalid memory address or nil pointer dereference"
      | Some _ =>
          match computeBlock env parentErID executableBlock with
          | None => logError "error while computing block"
          | Some computationResult =>
              match saveOutcome env (entity.ID executableBlock) computationResult with
              | SaveDataMismatch =>
                  fatal "fatal: trying to store different results for the same block"
              | SaveError => logError "error while handing computation results"
              | SaveOk =>
                  modify (fun s => setExecState
                                     (SaveExecutionResults (entity.Height executableBlock)
                                        (entity.ID executableBlock) computationResult
                                        (execState s)) s) ;;
                  match sealedHead env with
                  | None => fatal "could not get sealed block before broadcasting"
                  | Some lastSealed =>
                      (if (entity.Height executableBlock <=? flow.Height lastSealed)%N
                       then ret tt
                       else match checkAuthorizedAtBlock env (entity.ID executableBlock) with
                            | None => fatal "could not check staking status"
                            | Some true =>
                                if broadcastReceipt env (entity.ID executableBlock)
                                then modify (fun s => setBroadcasted
                                               (broadcasted s ++ [entity.ID executableBlock]) s)
                                else logError "critical: failed to broadcast the receipt"
                            | Some false => ret tt
                            end) ;;
                      r <- try (onBlockExecuted p (EndState computationResult)) ;;
                      match r with
                      | inl _ => ret tt
                      | inr e => logError ("failed in process block's children: " +:+ e)
                      end
                  end
              end
          end
      end
  | _ => logError "could not get execution result ID for parent block"
  end.

(** *** Startup: [reloadBlock], [unexecutedBlocks], [reloadUnexecutedBlocks] *)

Definition reloadBlock (blockID : Identifier) : M unit :=
  match blocksByID env blockID with
  | None => fail "could not get block by ID"
  | Some block =>
      missingCollections <-
        wrap "could not enqueue block on reloading: "
          (enqueueBlockAndCheckExecutable block) ;;
      wrap "could not fetch or handle collection "
        (fetchAndHandleCollection blockID (flow.Height (flow.BlockHeader block))
           missingCollections
           (fun collection =>
              wrap "could not add collection to mempool: "
                (addCollectionToMempool collection)))
  end.

(** [for ; lastExecuted > rootBlock.Height; lastExecuted--]: at most
    [fuel] rounds, and the caller gives as many as there are heights above
    the root. *)
Fixpoint lastExecutedFrom (fuel : nat) (rootHeight lastExecuted : N) : M N :=
  match fuel with
  | O => ret lastExecuted
  | S fuel' =>
      if (rootHeight <? lastExecuted)%N then
        match atHeight env lastExecuted with
        | None => fail "could not get header at height"
        | Some header =>
            s <- get ;;
            match IsBlockExecuted (execState s) (flow.HeaderID header) with
            | None => fail "could not check whether block is executed"
            | Some true => ret lastExecuted
            | Some false => lastExecutedFrom fuel' rootHeight (lastExecuted - 1)
            end
        end
      else ret lastExecuted
  end.

(** Heights are [uint64]: an increment wraps around at [2^64]. *)
Definition maxUint64 : N := 18446744073709551615.
Definition wrap64 (n : N) : N := n mod 18446744073709551616.

(** [for height := firstUnexecuted; height <= final.Height; height++], at
    most [fuel] rounds.  When [final.Height] is below the largest [uint64]
    the loop leaves at [final.Height + 1].  When it is the largest, the
    condition holds at every height and the loop ends only at a height
    without header: once [2^64] rounds have passed every height has shown
    one, the loop goes on appending, and the process runs out of memory. *)
Fixpoint headersFrom (fuel : nat) (finalHeight height : N) : M (list Identifier) :=
  match fuel with
  | O => fatal "runtime: out of memory"
  | S fuel' =>
      if (height <=? finalHeight)%N then
        match atHeight env height with
        | None => fail "could not get header at height"
        | Some header =>
            rest <- headersFrom fuel' finalHeight (wrap64 (height + 1)) ;;
            ret (flow.HeaderID header :: rest)
        end
      else ret []
  end.

Definition finalizedUnexecutedBlocks : M (list Identifier) :=
  match finalHead env with
  | None => fail "could not get finalized block"
  | Some final =>
      match rootBlock env with
      | None => fail "failed to retrieve root block"
      | Some root =>
          lastExecuted <-
            lastExecutedFrom (N.to_nat (flow.Height final - flow.Height root))
              (flow.Height root) (flow.Height final) ;;
          let firstUnexecuted := wrap64 (lastExecuted + 1) in
          headersFrom
            (if (flow.Height final <? maxUint64)%N
             then S (N.to_nat (flow.Height final + 1 - firstUnexecuted))
             else N.to_nat 18446744073709551616)
            (flow.Height final) firstUnexecuted
      end
  end.

Fixpoint pendingLoop (pendings : list Identifier) : M (list Identifier) :=
  match pendings with
  | [] => ret []
  | pending :: rest =>
      s <- get ;;
      match IsBlockExecuted (execState s) pending with
      | None => fail "could not check block executed or not"
      | Some executed =>
          unexecuted <- pendingLoop rest ;;
          ret (if executed then unexecuted else pending :: unexecuted)
      end
  end.

Definition pendingUnexecutedBlocks : M (list Identifier) :=
  match finalDescendants env with
  | None => fail "could not get pending blocks"
  | Some pendings => pendingLoop pendings
  end.

Definition unexecutedBlocks : M (list Identifier * list Identifier) :=
  finalized <- finalizedUnexecutedBlocks ;;
  pending <- pendingUnexecutedBlocks ;;
  ret (finalized, pending).

Fixpoint reloadAll (unexecuted : list Identifier) : M unit :=
  match unexecuted with
  | [] => ret tt
  | blockID :: rest =>
      wrap "could not reload block: " (reloadBlock blockID) ;;
      reloadAll rest
  end.

(** The first half of [reloadUnexecutedBlocks]: the block the
    last-executed marker names. *)
Definition reloadLastExecuted : M unit :=
  s <- get ;;
  match highestExecuted (execState s) with
  | None => fail "could not get last executed"
  | Some (lastExecutedHeight, lastExecutedID) =>
      match atBlockID env lastExecutedID with
      | None => fail "could not get last executed final by ID"
      | Some last =>
          match rootBlock env with
          | None => fail "failed to retrieve root block"
          | Some rootBlock =>
              let isRoot := bool_decide (flow.HeaderID rootBlock = flow.HeaderID last) in
              if negb isRoot then
                match IsBlockExecuted (execState s) lastExecutedID with
                | None => fail "cannot check is last exeucted final block has been executed"
                | Some executed =>
                    if negb executed then
                      wrap "could not reload the last executed final block: "
                        (reloadBlock lastExecutedID)
                    else ret tt
                end
              else ret tt
          end
      end
  end.

Definition reloadUnexecutedBlocks : M unit :=
  reloadLastExecuted ;;
  r <- wrap "could not reload unexecuted blocks: " unexecutedBlocks ;;
  reloadAll (r.1 ++ r.2).

(** *** The engine as a transition system

    The entry points of the engine: a block notification, a collection
    delivery, the run of a launched background execution, and the reload at
    startup.  A call that returns an error leaves the process running in the
    state it reached; a fatal one ends it. *)
Inductive Event :=
| EvBlock (block : flow.Block)
| EvCollection (collection : flow.Collection)
| EvExecute (p : ptr)
| EvReload.

Definition handle (ev : Event) : M unit :=
  match ev with
  | EvBlock block => handleBlock block
  | EvCollection collection => OnCollection collection
  | EvExecute p => executeBlock p
  | EvReload => reloadUnexecutedBlocks
  end.

(** Only a launched execution runs. *)
Definition enabled (ev : Event) (s : Engine) : Prop :=
  match ev with
  | EvExecute p => p ∈ launched s
  | _ => True
  end.

(** A new engine has an empty mempool and has launched nothing; storage is
    whatever the last run left. *)
Definition initial (s : Engine) : Prop :=
  heap s = [] ∧ executionQueues s = [] ∧ blockByCollection s = ∅ ∧ launched s = [].

Inductive reachable : Engine → Prop :=
| reach_init s : initial s → reachable s
| reach_step s ev s' :
    reachable s → enabled ev s → stateOf (handle ev s) = Some s' → reachable s'.

(** A sequence of events, one after the other; [None] when one of them
    ended the process. *)
Fixpoint runEvents (evs : list Event) (s : Engine) : option Engine :=
  match evs with
  | [] => Some s
  | ev :: rest =>
      match stateOf (handle ev s) with
      | Some s' => runEvents rest s'
      | None => None
      end
  end.

(** The same, where moreover only launched executions run. *)
Fixpoint runEnabled (evs : list Event) (s : Engine) : option Engine :=
  match evs with
  | [] => Some s
  | ev :: rest =>
      if match ev with
         | EvExecute p => bool_decide (p ∈ launched s)
         | _ => true
         end
      then match stateOf (handle ev s) with
           | Some s' => runEnabled rest s'
           | None => None
           end
      else None
  end.

End Engine.

(** *** Predicates on engine states *)

(** What [enqueueBlockAndCheckExecutable] does once the block is in the
    queues: the start state from the commitment of the parent, the
    matching, and the launch of a head. *)
Definition afterEnqueue (parent : Lookup StateCommitment) (q : queue.Queue)
  (blockID : Identifier) (p : ptr) (head : bool) : M (list flow.CollectionGuarantee) :=
  match parent with
  | Found parentCommitment => mutate p (entity.withStartState (Some parentCommitment))
  | ErrNotFound =>
      match queue.Nodes q blockID with
      | Some _ => ret tt
      | None => logError "an unexecuted parent block is missing in the queue"
      end
  | ErrStorage => fatal "unexpected error while accessing storage, shutting down"
  end ;;
  missingCollections <-
    wrap "cannot send collection requests: " (matchAndFindMissingCollections p) ;;
  (if head then executeBlockIfComplete p else ret false) ;;
  ret missingCollections.

Definition isFound {A} (l : Lookup A) : Prop := ∃ a, l = Found a.

(** What the engine may do to a block behind a pointer: the block itself
    never changes, the executing flag is never cleared, a start state is
    never taken away. *)
Definition benign (eb eb' : entity.ExecutableBlock) : Prop :=
  entity.Block eb' = entity.Block eb ∧
  (entity.Executing eb = true → entity.Executing eb' = true) ∧
  (is_Some (entity.StartState eb) → is_Some (entity.StartState eb')).

Definition grows (s s' : Engine) : Prop :=
  (∀ p eb, heap s !! p = Some eb → ∃ eb', heap s' !! p = Some eb' ∧ benign eb eb') ∧
  launched s `prefix_of` launched s' ∧
  (∀ id, isFound (commits (execState s) id) → isFound (commits (execState s') id)).

(** Every launched block has its flag set and its start state known, and
    no block is launched twice. *)
Definition Latched (s : Engine) : Prop :=
  NoDup (launched s) ∧
  ∀ p, p ∈ launched s →
       ∃ eb, heap s !! p = Some eb ∧ entity.Executing eb = true ∧
             is_Some (entity.StartState eb).

(** A relation for an invariant: the later state has it if the earlier
    one had. *)
Definition keeps (I : Engine → Prop) : relation Engine := fun s s' => I s → I s'.

(** What the functions that only match collections and launch executions
    leave alone: the queues, the execution state, and the block and start
    state behind every pointer. *)
Definition calm (s s' : Engine) : Prop :=
  executionQueues s' = executionQueues s ∧
  execState s' = execState s ∧
  length (heap s') = length (heap s) ∧
  ∀ p eb, heap s !! p = Some eb →
          ∃ eb', heap s' !! p = Some eb' ∧ entity.Block eb' = entity.Block eb ∧
                 entity.StartState eb' = entity.StartState eb.

(** Local storage holds a collection of identifier [k]. *)
Definition stored (s : Engine) (k : Identifier) : Prop :=
  ∃ id c, collections s id = Found c ∧ flow.CollID c = k.

(** The reverse index keeps every entry, and storage is not written. *)
Definition indexKept (s s' : Engine) : Prop :=
  collections s' = collections s ∧
  ∀ k, is_Some (blockByCollection s !! k) → is_Some (blockByCollection s' !! k).

(** The reverse index loses an entry only to a collection that local
    storage holds; storage itself is not written. *)
Definition indexPruned (s s' : Engine) : Prop :=
  collections s' = collections s ∧
  ∀ k, is_Some (blockByCollection s !! k) →
       is_Some (blockByCollection s' !! k) ∨ stored s k.

(** The block of identifier [id] is a node of some execution queue. *)
Definition enqueued (id : Identifier) (s : Engine) : Prop :=
  ∃ k q, (k, q) ∈ executionQueues s ∧ is_Some (queue.Nodes q id).

(** The queues and the execution state are left alone. *)
Definition sameQueues (s s' : Engine) : Prop :=
  executionQueues s' = executionQueues s ∧ execState s' = execState s.

(** The block behind [p], of identifier [id], waits for collection [k] in
    the reverse index. *)
Definition waits (p : ptr) (id k : Identifier) (s : Engine) : Prop :=
  ∃ e, blockByCollection s !! k = Some e ∧ (id, p) ∈ entity.ExecutableBlocks e.

(** The block has a place for collection [k], without transactions. *)
Definition unfilled (eb : entity.ExecutableBlock) (k : Identifier) : Prop :=
  ∃ cc, entity.CompleteCollections eb !! k = Some cc ∧ entity.Transactions cc = None.

(** The block behind [p] holds the transactions of collection [k]. *)
Definition filled (p : ptr) (k : Identifier) (s : Engine) : Prop :=
  ∃ eb cc, heap s !! p = Some eb ∧ entity.CompleteCollections eb !! k = Some cc ∧
           entity.IsCompleted cc = true.

(** Local storage does not hold the collection of the guarantee. *)
Definition absent (s : Engine) (g : flow.CollectionGuarantee) : bool :=
  match collections s (flow.CollectionID g) with
  | ErrNotFound => true
  | _ => false
  end.

(** No collection is requested or stored. *)
Definition sameRequests (s s' : Engine) : Prop :=
  requested s' = requested s ∧ collections s' = collections s.

(** The execution result of block [id] is persisted. *)
Definition committed (s : Engine) (id : Identifier) : Prop :=
  isFound (commits (execState s) id).

(** The item of a node of a queue is a live block with the identifiers the
    node shows. *)
Definition agrees (h : list entity.ExecutableBlock) (b : queue.Blockify) : Prop :=
  ∃ eb, h !! queue.Item b = Some eb ∧ entity.ID eb = queue.ID b ∧
        entity.ParentID eb = queue.ParentID b.

(** Every node agrees with the heap and every child names its parent. *)
Fixpoint wellLinked (h : list entity.ExecutableBlock) (n : queue.Node) : Prop :=
  let 'queue.mkNode i cs := n in
  agrees h i ∧
  (fix go (l : list queue.Node) : Prop :=
     match l with
     | [] => True
     | c :: l' =>
         (queue.ParentID (queue.item c) = queue.ID i ∧ wellLinked h c) ∧ go l'
     end) cs.

(** Queues named after their heads and well linked. *)
Definition queuesOK (h : list entity.ExecutableBlock) (qs : stdmap.QueuesBackdata) : Prop :=
  ∀ k q, (k, q) ∈ qs → queue.QueueID q = k ∧ wellLinked h (queue.Head q).

(** The ordering invariant: a block with a start state has a parent whose
    result is persisted, and the queues are well linked and named after
    their heads. *)
Definition Ordered (s : Engine) : Prop :=
  (∀ p eb, heap s !! p = Some eb → is_Some (entity.StartState eb) →
           committed s (entity.ParentID eb)) ∧
  queuesOK (heap s) (executionQueues s).

(** The execution state is untouched and every block stays the block it
    was. *)
Definition settled (s s' : Engine) : Prop :=
  execState s' = execState s ∧
  ∀ p eb, heap s !! p = Some eb →
          ∃ eb', heap s' !! p = Some eb' ∧ entity.Block eb' = entity.Block eb.

(** What the loop over the dismounted queues needs of each of them. *)
Definition promotable (s : Engine) (q : queue.Queue) : Prop :=
  wellLinked (heap s) (queue.Head q) ∧
  committed s (queue.ParentID (queue.item (queue.Head q))).


(** Only the block behind [p] is written. *)
Definition onlyAt (p : ptr) (s s' : Engine) : Prop :=
  ∀ q, q ≠ p → heap s' !! q = heap s !! q.

(** What [onBlockExecuted] leaves of a child: the end state of the parent
    as start state, every guarantee matched again (its transactions unset,
    an entry in the reverse index), and the execution tried (the child is
    executing unless it is not complete). *)
Definition promoted (endState : StateCommitment) (p : ptr) (s : Engine) : Prop :=
  ∃ eb, heap s !! p = Some eb ∧
        entity.StartState eb = Some endState ∧
        (∀ g, g ∈ flow.Guarantees (entity.Block eb) →
              unfilled eb (flow.GuaranteeID g) ∧
              is_Some (blockByCollection s !! flow.GuaranteeID g)) ∧
        (entity.Executing eb = true ∨ entity.IsComplete eb = false).

(** The key, the pointer and the queue-set entry of a dismounted child. *)
Definition childKey (c : queue.Node) : Identifier := queue.ID (queue.item c).
Definition childPtr (c : queue.Node) : ptr := queue.Item (queue.item c).
Definition childEntry (c : queue.Node) : Identifier * queue.Queue :=
  (childKey c, queue.mkQueue c).

(** The block behind [p] has its executing flag set. *)
Definition flagged (p : ptr) (s : Engine) : Prop :=
  ∃ eb, heap s !! p = Some eb ∧ entity.Executing eb = true.

(** How many times the execution of the block behind [p] was launched. *)
Definition launches (p : ptr) (s : Engine) : nat :=
  length (filter (fun q => q = p) (launched s)).

(** Once the flag is set it stays, and the block is not launched again. *)
Definition latch (p : ptr) : relation Engine :=
  fun s s' => flagged p s → flagged p s' ∧ launches p s' = launches p s.

(** The execution state is not written. *)
Definition sameExec (s s' : Engine) : Prop := execState s' = execState s.

(** What a run of [executeBlock] on the block behind [p] does to the
    execution state: nothing, or the results of that block are saved. *)
Definition savesOnly (env : Env) (p : ptr) (s s' : Engine) : Prop :=
  sameExec s s' ∨
  ∃ eb parentErID result,
    heap s !! p = Some eb ∧
    resultIDs (execState s) (entity.ParentID eb) = Found parentErID ∧
    computeBlock env parentErID eb = Some result ∧
    saveOutcome env (entity.ID eb) result = SaveOk ∧
    execState s' =
      SaveExecutionResults (entity.Height eb) (entity.ID eb) result (execState s).

(** The same as [runEnabled], where moreover no execution of the block of
    identifier [id] runs. *)
Fixpoint runOthers (env : Env) (id : Identifier) (evs : list Event) (s : Engine)
  : option Engine :=
  match evs with
  | [] => Some s
  | ev :: rest =>
      if match ev with
         | EvExecute p =>
             bool_decide (p ∈ launched s) &&
             match heap s !! p with
             | Some eb => negb (bool_decide (entity.ID eb = id))
             | None => false
             end
         | _ => true
         end
      then match stateOf (handle env ev s) with
           | Some s' => runOthers env id rest s'
           | None => None
           end
      else None
  end.

(** [Execute] of the block [eb] fails before its results are saved, with
    the message that is logged. *)
Inductive executeFails (env : Env) (s : Engine) (eb : entity.ExecutableBlock)
  : string → Prop :=
| fails_parent :
    ¬ isFound (resultIDs (execState s) (entity.ParentID eb)) →
    executeFails env s eb "could not get execution result ID for parent block"
| fails_compute parentErID :
    resultIDs (execState s) (entity.ParentID eb) = Found parentErID →
    computeBlock env parentErID eb = None →
    executeFails env s eb "error while computing block"
| fails_save parentErID result :
    resultIDs (execState s) (entity.ParentID eb) = Found parentErID →
    computeBlock env parentErID eb = Some result →
    saveOutcome env (entity.ID eb) result = SaveError →
    executeFails env s eb "error while handing computation results".

(** *** The callers: [Ready], [BlockProcessable] *)
Section Callers.
Variable env : Env.

(** [Ready]: unless the stop control has paused the node, the unexecuted
    blocks are reloaded, and a failure of the reload ends the process.  The
    retry of the uploads leaves no trace here. *)
Definition Ready (paused : bool) : M unit :=
  if paused then ret tt
  else
    r <- try (reloadUnexecutedBlocks env) ;;
    match r with
    | inl _ => ret tt
    | inr e => fatal "failed to load all unexecuted blocks"
    end.

(** [BlockProcessable]: [processable] is the answer of the stop control. *)
Definition BlockProcessable (processable : bool) (b : flow.Header) : M unit :=
  if negb processable then ret tt
  else
    match blocksByID env (flow.HeaderID b) with
    | None => fatal "could not get incorporated block"
    | Some newBlock =>
        r <- try (handleBlock env newBlock) ;;
        match r with
        | inl _ => ret tt
        | inr e => logError ("failed to handle block: " +:+ e)
        end
    end.

End Callers.


(** *** The queries: [ExecuteScriptAtBlockID], [GetRegisterAtBlockID], [GetAccount] *)

(** What the queries ask of the execution state and of the computation
    manager: whether the state of a commitment is still held, the run of a
    script and the read of an account on the snapshot of a commitment (an
    error is a message), and the read of a register of that snapshot.
    Scripts, arguments, register keys and values are bytes; an account is
    whatever the computation manager hands back. *)
Record Queries (Account : Type) := mkQueries {
  hasState : StateCommitment → bool;
  executeScript : list Byte.byte → list (list Byte.byte) → flow.Header → StateCommitment →
                  list Byte.byte + string;
  getAccount : N → flow.Header → StateCommitment → Account + string;
  getRegister : StateCommitment → list Byte.byte → list Byte.byte →
                list Byte.byte + string }.
Arguments hasState {Account} q stateCommit.
Arguments executeScript {Account} q script arguments block stateCommit.
Arguments getAccount {Account} q addr block stateCommit.
Arguments getRegister {Account} q stateCommit owner key.

Section Queries.
Context {Account : Type}.
Variables (env : Env) (q : Queries Account).

Definition ExecuteScriptAtBlockID (script : list Byte.byte)
  (arguments : list (list Byte.byte)) (blockID : Identifier) : M (list Byte.byte) :=
  s <- get ;;
  match commits (execState s) blockID with
  | Found stateCommit =>
      if negb (hasState q stateCommit) then
        fail "failed to execute script at block: state commitment not found. this error usually happens if the reference block for this script is not set to a recent block"
      else
        match atBlockID env blockID with
        | None => fail "failed to get block"
        | Some block =>
            match executeScript q script arguments block stateCommit with
            | inl result => ret result
            | inr e => fail e
            end
        end
  | _ => fail "failed to get state commitment for block"
  end.

Definition GetRegisterAtBlockID (owner key : list Byte.byte) (blockID : Identifier)
  : M (list Byte.byte) :=
  s <- get ;;
  match commits (execState s) blockID with
  | Found stateCommit =>
      match getRegister q stateCommit owner key with
      | inl data => ret data
      | inr e => fail ("failed to get the register: " +:+ e)
      end
  | _ => fail "failed to get state commitment for block"
  end.

Definition GetAccount (addr : N) (blockID : Identifier) : M Account :=
  s <- get ;;
  match commits (execState s) blockID with
  | Found stateCommit =>
      if negb (hasState q stateCommit) then
        fail "failed to get account at block: state commitment not found. this error usually happens if the reference block for this script is not set to a recent block."
      else
        match atBlockID env blockID with
        | None => fail "failed to get block"
        | Some block =>
            match getAccount q addr block stateCommit with
            | inl account => ret account
            | inr e => fail e
            end
        end
  | _ => fail "failed to get state commitment for block"
  end.

End Queries.

(** *** More predicates on engine states *)

(** Nothing is broadcast and nothing is persisted. *)
Definition silent (s s' : Engine) : Prop :=
  broadcasted s' = broadcasted s ∧ execState s' = execState s.

(** What one run of [executeBlock] on the block [eb] leaves. *)
Definition outcome (env : Env) (eb : entity.ExecutableBlock) (s s' : Engine) : Prop :=
  (silent s s' ∧ ∃ msg, executeFails env s eb msg) ∨
  ∃ parentErID result,
    resultIDs (execState s) (entity.ParentID eb) = Found parentErID ∧
    computeBlock env parentErID eb = Some result ∧
    saveOutcome env (entity.ID eb) result = SaveOk ∧
    execState s' =
      SaveExecutionResults (entity.Height eb) (entity.ID eb) result (execState s) ∧
    (broadcasted s' = broadcasted s ∨
     broadcasted s' = broadcasted s ++ [entity.ID eb] ∧
     checkAuthorizedAtBlock env (entity.ID eb) = Some true ∧
     broadcastReceipt env (entity.ID eb) = true ∧
     ∃ sealed, sealedHead env = Some sealed ∧ flow.Height sealed < entity.Height eb).

(** Local storage of collections is not written, and no request is forced. *)
Definition sameStorage (s s' : Engine) : Prop :=
  collections s' = collections s ∧ forced s' = forced s.

(** Local storage of collections is not written. *)
Definition keepsCollections (s s' : Engine) : Prop := collections s' = collections s.

(** The queues and the log are left alone. *)
Definition quiet (s s' : Engine) : Prop :=
  executionQueues s' = executionQueues s ∧ errors s' = errors s.

(** What the loop over the children leaves when it stops: every queue that
    was in the set is still there; it stops without error only if the key of
    every child was free; and its only error is the duplicated child. *)
Definition stopped (qs : list queue.Queue) (s : Engine)
  (r : list (ptr * list flow.CollectionGuarantee) * option string) (s' : Engine) : Prop :=
  errors s' = errors s ∧
  (∀ k q, stdmap.QByID k (executionQueues s) = Some q →
          stdmap.QByID k (executionQueues s') = Some q) ∧
  (r.2 = None →
   Forall (fun q => stdmap.QByID (queue.QueueID q) (executionQueues s) = None) qs) ∧
  (∀ e, r.2 = Some e → e = "fatal error - child block already in execution queue").

(** The recorded height does not go down. *)
Definition rising (s s' : Engine) : Prop :=
  maxCollectionHeight s ≤ maxCollectionHeight s'.

(** The block is in the queues and every block that was there still is. *)
Definition joined (id : Identifier) (s s' : Engine) : Prop :=
  enqueued id s' ∧ ∀ id0, enqueued id0 s → enqueued id0 s'.

(** The block behind [p] is launched and its flag is set. *)
Definition started (p : ptr) (s : Engine) : Prop := p ∈ launched s ∧ flagged p s.

(** Every collection of the block but [k] has its transactions, and the
    block has its start state and is not executing. *)
Definition lacksOnly (k : Identifier) (eb : entity.ExecutableBlock) : Prop :=
  entity.Executing eb = false ∧ is_Some (entity.StartState eb) ∧
  unfilled eb k ∧
  ∀ k' cc, entity.CompleteCollections eb !! k' = Some cc → k' ≠ k →
           entity.IsCompleted cc = true.


(** *** Weakest preconditions for the monad *)

Definition wp {A} (m : M A) (Q : A → Engine → Prop) (E : Engine → Prop) (s : Engine)
  : Prop :=
  match m s with
  | Ok s' a => Q a s'
  | Failed s' _ => E s'
  | Fatal _ => True
  end.

(** [m] relates every state to the state it leaves, whether it returns or
    fails. *)
Definition steps (R : relation Engine) {A} (m : M A) : Prop :=
  ∀ s, wp m (fun _ s' => R s s') (fun s' => R s s') s.

End ingestion.

Import ingestion.

(** ** A small chain for the examples *)

Module examples.

Definition header (id height parent : N) : flow.Header := flow.mkHeader id height parent.
Definition block (id height parent : N) (guarantees : list N) : flow.Block :=
  flow.mkBlock (header id height parent) (flow.mkGuarantee <$> guarantees).

(** The root block is 100.  Every guarantee has guarantors, no block is in
    the protocol state, every computation and every save succeeds. *)
Definition env0 : Env :=
  mkEnv (Some (header 100 0 0)) (fun _ => None) (fun _ => None) None None
    (Some (header 100 0 0)) (fun _ => Some []) (fun _ => None)
    (fun _ eb => Some (mkResult (entity.ID eb + 1000) (entity.ID eb + 2000)))
    (fun _ _ => SaveOk) (fun _ => Some true) (fun _ => true) (fun _ => true).

(** The same, where every computation fails. *)
Definition envFailing : Env :=
  mkEnv (Some (header 100 0 0)) (fun _ => None) (fun _ => None) None None
    (Some (header 100 0 0)) (fun _ => Some []) (fun _ => None)
    (fun _ _ => None)
    (fun _ _ => SaveOk) (fun _ => Some true) (fun _ => true) (fun _ => true).

(** Storage holds the result of the root block and nothing else. *)
Definition st0 : ExecutionState :=
  mkExecState
    (fun id => if decide (id = 100) then Found 7 else ErrNotFound)
    (fun id => if decide (id = 100) then Found 70 else ErrNotFound)
    (fun id => Some (bool_decide (id = 100)))
    (Some (0, 100)).

Definition s0 : Engine := mkEngine [] [] ∅ 0 st0 (fun _ => ErrNotFound) [] [] 0 [] [].

(** Two children of the root without collections, and a child of the first. *)
Definition A1 := block 1 1 100 [].
Definition A2 := block 2 1 100 [].
Definition A3 := block 3 2 1 [].

Definition after (env : Env) (evs : list Event) (s : Engine) : Engine :=
  default s (runEnabled env evs s).

(** Both children of the root have arrived. *)
Definition siblings : Engine := after env0 [EvBlock A1; EvBlock A2] s0.

(** The first child, enqueued alone with its start state, not launched. *)
Definition readyBlock : entity.ExecutableBlock := entity.mkExecutable A1 (Some 7) ∅ false.
Definition ready : Engine :=
  mkEngine [readyBlock] [] ∅ 0 st0 (fun _ => ErrNotFound) [] [] 0 [] [].

(** The first child executing at the head of a queue, its own child
    waiting below it. *)
Definition parentBlock : entity.ExecutableBlock := entity.mkExecutable A1 (Some 7) ∅ true.
Definition childBlock : entity.ExecutableBlock := entity.mkExecutable A3 None ∅ false.
Definition childNode : queue.Node := queue.mkNode (blockify 1 childBlock) [].
Definition chainQueue : queue.Queue :=
  queue.mkQueue (queue.mkNode (blockify 0 parentBlock) [childNode]).
Definition chain : Engine :=
  mkEngine [parentBlock; childBlock] [(1, chainQueue)] ∅ 0 st0 (fun _ => ErrNotFound)
    [0%nat] [] 0 [] [].

(** The first child is launched and every computation fails. *)
Definition failing : Engine := after envFailing [EvBlock A1] s0.


(** A block with one guarantee whose collection local storage holds, and
    an empty reverse index. *)
Definition G1 := block 5 1 100 [50].
Definition held : Engine :=
  mkEngine [entity.mkExecutable G1 (Some 7) ∅ false] [] ∅ 0 st0
    (fun id => if decide (id = 50) then Found (flow.mkCollection 50 [1; 2]) else ErrNotFound)
    [] [] 0 [] [].

(** The same block after its execution, at the head of its queue, still
    listed in the reverse index for its collection. *)
Definition listedBlock : entity.ExecutableBlock :=
  entity.mkExecutable G1 (Some 7) {[ 50 := entity.mkComplete (flow.mkGuarantee 50) (Some [1; 2]) ]} true.
Definition listed : Engine :=
  mkEngine [listedBlock] [(5, queue.mkQueue (queue.mkNode (blockify 0 listedBlock) []))]
    {[ 50 := entity.mkByCollection 50 [(5, 0%nat)] ]} 0 st0 (fun _ => ErrNotFound)
    [0%nat] [] 0 [] [].

(** A block that arrived before its parent, which then joined the queue of
    the grandparent. *)
Definition A4 := block 4 3 3 [].
Definition early : Engine := after env0 [EvBlock A1; EvBlock A4; EvBlock A3] s0.

(** A restart on a finalized chain of the first child and its own child
    above the root, with one pending block above them. *)
Definition envChain : Env :=
  mkEnv (Some (header 100 0 0))
    (fun id => if decide (id = 100) then Some (header 100 0 0)
               else if decide (id = 1) then Some (header 1 1 100)
               else if decide (id = 3) then Some (header 3 2 1) else None)
    (fun height => if decide (height = 1) then Some (header 1 1 100)
                   else if decide (height = 2) then Some (header 3 2 1) else None)
    (Some (header 3 2 1)) (Some [4])
    (Some (header 100 0 0)) (fun _ => Some [])
    (fun id => if decide (id = 1) then Some A1
               else if decide (id = 3) then Some A3
               else if decide (id = 4) then Some A4 else None)
    (fun _ eb => Some (mkResult (entity.ID eb + 1000) (entity.ID eb + 2000)))
    (fun _ _ => SaveOk) (fun _ => Some true) (fun _ => true) (fun _ => true).

(** The three blocks of the chain reloaded into a new engine. *)
Definition restarted : Engine :=
  default s0 (stateOf (reloadAll envChain [1; 3; 4] s0)).

(** A new engine whose storage holds the results of every block, the marker
    at the finalized head. *)
Definition caughtUp : Engine :=
  mkEngine [] [] ∅ 0
    (mkExecState (commits st0) (resultIDs st0) (fun _ => Some true) (Some (2, 3)))
    (fun _ => ErrNotFound) [] [] 0 [] [].

(** The second child of the root has arrived alone. *)
Definition alone : Engine := after env0 [EvBlock A2] s0.

(** The first child of the root has been executed. *)
Definition firstDone : Engine := after env0 [EvExecute 0] siblings.

(** A block with one guarantee has arrived and waits for its collection;
    then the collection is delivered. *)
Definition C50 : flow.Collection := flow.mkCollection 50 [1; 2].
Definition waiting : Engine := after env0 [EvBlock G1] s0.
Definition delivered : Engine := after env0 [EvCollection C50] waiting.

(** A block that lists the same guarantee twice. *)
Definition G2 := block 6 1 100 [50; 50].
Definition twice : Engine :=
  mkEngine [entity.mkExecutable G2 (Some 7) ∅ false] [] ∅ 0 st0 (fun _ => ErrNotFound)
    [] [] 0 [] [].

(** The chain, where the child of the executing block also heads a queue of
    its own. *)
Definition doubled : Engine :=
  mkEngine [parentBlock; childBlock; childBlock]
    [(1, chainQueue); (3, queue.mkQueue (queue.mkNode (blockify 2 childBlock) []))]
    ∅ 0 st0 (fun _ => ErrNotFound) [0%nat] [] 0 [] [].
Definition stoppedAt : Engine :=
  default doubled (stateOf (onBlockExecuted env0 0 1001 doubled)).

(** The computation manager of the examples: every state is held, a script
    returns its own bytes, an account is its address, no register is set. *)
Definition queries0 : Queries N :=
  mkQueries N (fun _ => true) (fun script _ _ _ => inl script)
    (fun addr _ _ => inl addr) (fun _ _ _ => inl []).

(** The block that heads a queue of its own has been notified a second time
    and hangs under its parent as well; the grandparent has been executed,
    so the parent heads a queue with the second copy below it. *)
Definition twoCopies : Engine :=
  after env0 [EvBlock A1; EvBlock A4; EvBlock A3; EvBlock A4; EvExecute 0] s0.


Definition B3 := block 3 3 2 [50].


End examples.

(** * Reasoning rules *)

Section Wp.
Context {A : Type}.
Implicit Types (m : M A) (Q : A → Engine → Prop) (E : Engine → Prop).

Lemma wp_ret (a : A) Q E s : Q a s → wp (ret a) Q E s.
Proof. done. Qed.

Lemma wp_fail e Q E s : E s → wp (fail e) Q E s.
Proof. done. Qed.

Lemma wp_fatal e Q E s : wp (fatal e) Q E s.
Proof. done. Qed.

Lemma wp_wrap msg m Q E s : wp m Q E s → wp (wrap msg m) Q E s.
Proof. unfold wp, wrap. by destruct (m s). Qed.

Lemma wp_mono m Q Q' E E' s :
  wp m Q E s → (∀ a s', Q a s' → Q' a s') → (∀ s', E s' → E' s') → wp m Q' E' s.
Proof. unfold wp. destruct (m s); eauto. Qed.

End Wp.

Lemma wp_bind {A B} (m : M A) (k : A → M B) Q E s :
  wp m (fun a s' => wp (k a) Q E s') E s → wp (bind m k) Q E s.
Proof. unfold wp, bind. by destruct (m s). Qed.

Lemma wp_get Q E s : Q s s → wp get Q E s.
Proof. done. Qed.

Lemma wp_modify f Q E s : Q tt (f s) → wp (modify f) Q E s.
Proof. done. Qed.

Lemma wp_load p Q E s :
  (∀ eb, heap s !! p = Some eb → Q eb s) → wp (load p) Q E s.
Proof. unfold wp, load. destruct (heap s !! p); eauto. Qed.

Lemma wp_mutate p f Q E s :
  (∀ eb, heap s !! p = Some eb → Q tt (setHeap (<[p := f eb]> (heap s)) s)) →
  wp (mutate p f) Q E s.
Proof. unfold wp, mutate. destruct (heap s !! p); eauto. Qed.

Lemma wp_try {A} (m : M A) Q E s :
  wp m (fun a => Q (inl a)) (fun s' => ∀ e, Q (inr e) s') s → wp (try m) Q E s.
Proof. unfold wp, try. destruct (m s); eauto. Qed.

Section Steps.
Context (R : relation Engine) `{!PreOrder R}.

Lemma steps_ret {A} (a : A) : steps R (ret a).
Proof. intros s. apply wp_ret. reflexivity. Qed.

Lemma steps_fail {A} e : steps R (@fail A e).
Proof. intros s. apply wp_fail. reflexivity. Qed.

Lemma steps_fatal {A} e : steps R (@fatal A e).
Proof. intros s. apply wp_fatal. Qed.

Lemma steps_get : steps R get.
Proof. intros s. apply wp_get. reflexivity. Qed.

Lemma steps_load p : steps R (load p).
Proof. intros s. apply wp_load. reflexivity. Qed.

Lemma steps_bind {A B} (m : M A) (k : A → M B) :
  steps R m → (∀ a, steps R (k a)) → steps R (bind m k).
Proof.
  intros Hm Hk s. apply wp_bind. eapply wp_mono; [apply Hm| |done].
  intros a s' Hs. simpl in Hs.
  eapply wp_mono; [apply Hk| |]; simpl; intros; etrans; eauto.
Qed.

Lemma steps_wrap {A} msg (m : M A) : steps R m → steps R (wrap msg m).
Proof. intros Hm s. apply wp_wrap, Hm. Qed.

Lemma steps_try {A} (m : M A) : steps R m → steps R (try m).
Proof. intros Hm s. apply wp_try. eapply wp_mono; [apply Hm|done|done]. Qed.

Lemma steps_modify f : (∀ s, R s (f s)) → steps R (modify f).
Proof. intros Hf s. apply wp_modify, Hf. Qed.

Lemma steps_mutate p f :
  (∀ s eb, heap s !! p = Some eb → R s (setHeap (<[p := f eb]> (heap s)) s)) →
  steps R (mutate p f).
Proof. intros Hf s. apply wp_mutate. eauto. Qed.

Lemma steps_logError msg : (∀ s l, R s (setErrors l s)) → steps R (logError msg).
Proof. intros Hf. apply steps_modify. eauto. Qed.

(** What [steps] says of a run. *)
Lemma steps_stateOf {A} (m : M A) s s' : steps R m → stateOf (m s) = Some s' → R s s'.
Proof.
  intros Hm Hs. specialize (Hm s). unfold wp in Hm.
  destruct (m s); simpl in Hs; by simplify_eq.
Qed.

End Steps.

(** One structural step of a [steps] goal. *)
Ltac steps_order :=
  lazymatch goal with
  | |- PreOrder _ => apply _
  | _ => idtac
  end.

Ltac steps_step :=
  lazymatch goal with
  | |- steps _ (ret _) => apply steps_ret; steps_order
  | |- steps _ (fail _) => apply steps_fail; steps_order
  | |- steps _ (fatal _) => apply steps_fatal; steps_order
  | |- steps _ get => apply steps_get; steps_order
  | |- steps _ (load _) => apply steps_load; steps_order
  | |- steps _ (wrap _ _) => apply steps_wrap; steps_order
  | |- steps _ (try _) => apply steps_try; steps_order
  | |- steps _ (bind _ _) => apply steps_bind; steps_order
  | |- steps _ (match ?x with _ => _ end) => destruct x
  | |- PreOrder _ => apply _
  | |- steps _ _ => fail
  | |- forall _, _ => intros
  end.

Create HintDb engine.

(** * Relations that every engine function respects *)

(** [executeBlockIfComplete], in one equation. *)
Lemma executeBlockIfComplete_eq p s eb :
  heap s !! p = Some eb →
  executeBlockIfComplete p s =
    if entity.Executing eb then Ok s false
    else if entity.IsComplete eb
         then Ok (setLaunched (launched s ++ [p])
                    (setHeap (<[p := entity.withExecuting true eb]> (heap s)) s)) true
         else Ok s false.
Proof.
  intros Hp. unfold executeBlockIfComplete, bind, load. rewrite Hp.
  destruct (entity.Executing eb); [done|].
  destruct (entity.IsComplete eb); [|done].
  unfold mutate. rewrite Hp. done.
Qed.

Lemma executeBlockIfComplete_dangling p s :
  heap s !! p = None → ∃ e, executeBlockIfComplete p s = Fatal e.
Proof.
  intros Hp. unfold executeBlockIfComplete, bind, load. rewrite Hp. by eexists.
Qed.

Section Generic.
Context (R : relation Engine) `{!PreOrder R}.

Hypothesis R_same : ∀ s s',
  heap s' = heap s → launched s' = launched s → execState s' = execState s →
  executionQueues s' = executionQueues s → R s s'.
Hypothesis R_collection : ∀ s p eb k c,
  heap s !! p = Some eb → R s (setHeap (<[p := entity.setCollection k c eb]> (heap s)) s).
Hypothesis R_launch : ∀ p, steps R (executeBlockIfComplete p).

Local Ltac leaf :=
  lazymatch goal with
  | |- steps _ (modify _) =>
      apply steps_modify; intros; repeat case_match; first [reflexivity | by apply R_same]
  | |- steps _ (logError _) => apply steps_modify; intros; by apply R_same
  | |- steps _ (mutate _ (entity.setCollection _ _)) =>
      apply steps_mutate; intros; by apply R_collection
  | |- steps _ (executeBlockIfComplete _) => apply R_launch
  | _ => idtac
  end.
Local Ltac go := repeat steps_step; leaf; eauto.

Lemma gen_matchLoop p gs acc : steps R (matchLoop p gs acc).
Proof using R_same R_collection PreOrder0.
  revert acc. induction gs as [|g gs IH]; intros acc; simpl; go.
Qed.

Lemma gen_matchAndFindMissingCollections p : steps R (matchAndFindMissingCollections p).
Proof using R_same R_collection PreOrder0.
  unfold matchAndFindMissingCollections. go. apply gen_matchLoop.
Qed.

Lemma gen_deliverLoop c l : steps R (deliverLoop c l).
Proof using R_same R_collection R_launch PreOrder0.
  induction l as [|[k p] l IH]; simpl; go.
Qed.

Lemma gen_addCollectionToMempool c : steps R (addCollectionToMempool c).
Proof using R_same R_collection R_launch PreOrder0.
  unfold addCollectionToMempool. go. apply gen_deliverLoop.
Qed.

Variable env : Env.

Lemma gen_fetchCollection b h g : steps R (fetchCollection env b h g).
Proof using R_same PreOrder0. unfold fetchCollection. go. Qed.

Lemma gen_fetchLoop b h gs hc f :
  (∀ c, steps R (hc c)) → steps R (fetchLoop env b h gs hc f).
Proof using R_same PreOrder0.
  intros Hc. revert f. induction gs as [|g gs IH]; intros f; simpl; go.
  all: apply gen_fetchCollection.
Qed.

Lemma gen_fetchAndHandleCollection b h gs hc :
  (∀ c, steps R (hc c)) → steps R (fetchAndHandleCollection env b h gs hc).
Proof using R_same PreOrder0.
  intros Hc. unfold fetchAndHandleCollection. go. by apply gen_fetchLoop.
Qed.

Lemma gen_addOrFetch b h gs : steps R (addOrFetch env b h gs).
Proof using R_same R_collection R_launch PreOrder0.
  unfold addOrFetch. apply gen_fetchAndHandleCollection. intros c. go.
  apply gen_addCollectionToMempool.
Qed.

Lemma gen_addOrFetchAll l : steps R (addOrFetchAll env l).
Proof using R_same R_collection R_launch PreOrder0.
  induction l as [|[c m] l IH]; simpl; go. apply gen_addOrFetch.
Qed.

Lemma gen_OnCollection c : steps R (OnCollection env c).
Proof using R_same R_collection R_launch PreOrder0.
  unfold OnCollection, handleCollection. go. apply gen_addCollectionToMempool.
Qed.

(** The functions that move queues, set start states or write results. *)
Hypothesis R_start : ∀ s p eb c,
  heap s !! p = Some eb →
  R s (setHeap (<[p := entity.withStartState (Some c) eb]> (heap s)) s).
Hypothesis R_queues : ∀ s q, R s (setQueues q s).
Hypothesis R_alloc : ∀ s eb q, R s (setQueues q (setHeap (heap s ++ [eb]) s)).
Hypothesis R_save : ∀ s h b r,
  R s (setExecState (SaveExecutionResults h b r (execState s)) s).
Hypothesis R_broadcast : ∀ s l, R s (setBroadcasted l s).

Local Ltac leaf2 :=
  lazymatch goal with
  | |- steps _ (mutate _ (entity.withStartState _)) =>
      apply steps_mutate; intros; by apply R_start
  | |- steps _ (modify (setQueues _)) => apply steps_modify; intros; apply R_queues
  | |- steps _ (modify (fun s => setQueues _ s)) => apply steps_modify; intros; apply R_queues
  | |- steps _ (modify (fun s => setBroadcasted _ s)) =>
      apply steps_modify; intros; apply R_broadcast
  | |- steps _ (modify (fun s => setQueues _ (setHeap _ s))) =>
      apply steps_modify; intros; apply R_alloc
  | |- steps _ (modify (fun s => setExecState _ s)) =>
      apply steps_modify; intros; apply R_save
  | |- steps _ (matchAndFindMissingCollections _) => apply gen_matchAndFindMissingCollections
  | |- steps _ (addOrFetch _ _ _ _) => apply gen_addOrFetch
  | |- steps _ (addOrFetchAll _ _) => apply gen_addOrFetchAll
  | _ => leaf
  end.
Local Ltac go2 := repeat steps_step; leaf2; eauto.

Lemma gen_afterEnqueue parent q id p head : steps R (afterEnqueue parent q id p head).
Proof using R_same R_collection R_launch R_start PreOrder0. unfold afterEnqueue. go2. Qed.

Lemma gen_enqueueBlockAndCheckExecutable b : steps R (enqueueBlockAndCheckExecutable b).
Proof using R_same R_collection R_launch R_start R_queues R_alloc PreOrder0. unfold enqueueBlockAndCheckExecutable. go2. Qed.

Lemma gen_handleBlock b : steps R (handleBlock env b).
Proof using R_same R_collection R_launch R_start R_queues R_alloc PreOrder0. unfold handleBlock. go2. apply gen_enqueueBlockAndCheckExecutable. Qed.

Lemma gen_requeueLoop c qs acc : steps R (requeueLoop c qs acc).
Proof using R_same R_collection R_launch R_start R_queues R_alloc PreOrder0. revert acc. induction qs as [|q qs IH]; intros acc; simpl; go2. Qed.

Lemma gen_requeueChildren p c : steps R (requeueChildren p c).
Proof using R_same R_collection R_launch R_start R_queues R_alloc PreOrder0. unfold requeueChildren. go2. apply gen_requeueLoop. Qed.

Lemma gen_onBlockExecuted p c : steps R (onBlockExecuted env p c).
Proof using R_same R_collection R_launch R_start R_queues R_alloc PreOrder0. unfold onBlockExecuted. go2. apply gen_requeueChildren. Qed.

Lemma gen_executeBlock p : steps R (executeBlock env p).
Proof using All. unfold executeBlock. go2. all: apply gen_onBlockExecuted. Qed.

Lemma gen_reloadBlock b : steps R (reloadBlock env b).
Proof using R_same R_collection R_launch R_start R_queues R_alloc PreOrder0.
  unfold reloadBlock. go2.
  - apply gen_enqueueBlockAndCheckExecutable.
  - apply gen_fetchAndHandleCollection. intros. go2. apply gen_addCollectionToMempool.
Qed.

Lemma gen_lastExecutedFrom n r l : steps R (lastExecutedFrom env n r l).
Proof using PreOrder0. revert l. induction n as [|n IH]; intros l; simpl; go. Qed.

Lemma gen_headersFrom n f h : steps R (headersFrom env n f h).
Proof using PreOrder0. revert h. induction n as [|n IH]; intros h; simpl; go. Qed.

Lemma gen_pendingLoop l : steps R (pendingLoop l).
Proof using PreOrder0. induction l as [|x l IH]; simpl; go. Qed.

Lemma gen_reloadAll l : steps R (reloadAll env l).
Proof using R_same R_collection R_launch R_start R_queues R_alloc PreOrder0. induction l as [|x l IH]; simpl; go. apply gen_reloadBlock. Qed.

Lemma gen_reloadUnexecutedBlocks : steps R (reloadUnexecutedBlocks env).
Proof using R_same R_collection R_launch R_start R_queues R_alloc PreOrder0.
  unfold reloadUnexecutedBlocks, reloadLastExecuted, unexecutedBlocks,
    finalizedUnexecutedBlocks, pendingUnexecutedBlocks.
  go2.
  all: first [ apply gen_reloadBlock | apply gen_reloadAll | apply gen_lastExecutedFrom
             | apply gen_headersFrom | apply gen_pendingLoop ].
Qed.

Lemma gen_handle ev : steps R (handle env ev).
Proof using All.
  destruct ev; simpl.
  - apply gen_handleBlock.
  - apply gen_OnCollection.
  - apply gen_executeBlock.
  - apply gen_reloadUnexecutedBlocks.
Qed.

End Generic.

(** * First instance: the engine only grows its state *)

Global Instance benign_preorder : PreOrder benign.
Proof.
  split.
  - by intros eb.
  - intros a b c (?&?&?) (?&?&?). split_and!; [congruence|auto|auto].
Qed.

Global Instance grows_preorder : PreOrder grows.
Proof.
  split.
  - intros s. split_and!; [|done|done]. intros p eb ?. exists eb. split; [done|reflexivity].
  - intros a b c (H1&H2&H3) (H1'&H2'&H3'). split_and!.
    + intros p eb Hp. destruct (H1 _ _ Hp) as (eb'&Hp'&?).
      destruct (H1' _ _ Hp') as (eb''&?&?). exists eb''. split; [done|by etrans].
    + by etrans.
    + auto.
Qed.

Lemma grows_same s s' :
  heap s' = heap s → launched s' = launched s → execState s' = execState s → grows s s'.
Proof.
  intros Hh Hl He. split_and!.
  - intros p eb ?. exists eb. rewrite Hh. split; [done|reflexivity].
  - by rewrite Hl.
  - by rewrite He.
Qed.

Lemma grows_mutate s p eb f :
  heap s !! p = Some eb → benign eb (f eb) → grows s (setHeap (<[p := f eb]> (heap s)) s).
Proof.
  intros Hp Hb. split_and!; [|done|done].
  intros q eb' Hq. simpl. destruct (decide (p = q)) as [->|Hne].
  - exists (f eb). rewrite list_lookup_insert_eq; [|by eapply lookup_lt_Some].
    split; [done|]. congruence.
  - exists eb'. rewrite list_lookup_insert_ne; [|done]. split; [done|reflexivity].
Qed.

Lemma benign_withExecuting eb : benign eb (entity.withExecuting true eb).
Proof. by split_and!. Qed.

Lemma benign_withStartState eb c : benign eb (entity.withStartState (Some c) eb).
Proof. split_and!; [done|done|]. intros _. by eexists. Qed.

Lemma benign_setCollection eb k c : benign eb (entity.setCollection k c eb).
Proof. by split_and!. Qed.

Lemma grows_launch p : steps grows (executeBlockIfComplete p).
Proof.
  intros s. unfold wp. destruct (heap s !! p) as [eb|] eqn:Hp.
  - rewrite (executeBlockIfComplete_eq _ _ _ Hp).
    destruct (entity.Executing eb); [reflexivity|].
    destruct (entity.IsComplete eb); [|reflexivity].
    split_and!; [|by apply prefix_app_r|done].
    intros q eb' Hq. simpl. destruct (decide (p = q)) as [->|Hne].
    + eexists. rewrite list_lookup_insert_eq; [|by eapply lookup_lt_Some].
      split; [done|]. simplify_eq. apply benign_withExecuting.
    + exists eb'. rewrite list_lookup_insert_ne; [|done]. split; [done|reflexivity].
  - by destruct (executeBlockIfComplete_dangling _ _ Hp) as [e ->].
Qed.

Lemma grows_alloc s eb q : grows s (setQueues q (setHeap (heap s ++ [eb]) s)).
Proof.
  split_and!; [|done|done]. intros p eb' Hp. exists eb'. simpl.
  rewrite lookup_app_l; [|by eapply lookup_lt_Some]. split; [done|reflexivity].
Qed.

Lemma isFound_override (f : N → Lookup N) k v id :
  isFound (f id) → isFound (override f k (Found v) id).
Proof. intros Hf. unfold override. case_decide; [by eexists|done]. Qed.

Lemma grows_save s h b r :
  grows s (setExecState (SaveExecutionResults h b r (execState s)) s).
Proof.
  split_and!; [|done|].
  - intros p eb ?. exists eb. split; [done|reflexivity].
  - intros id. simpl. apply isFound_override.
Qed.

(** Every entry point of the engine grows the state. *)
Lemma grows_handle env ev : steps grows (handle env ev).
Proof.
  apply gen_handle; try apply _.
  - intros. by apply grows_same.
  - intros. apply grows_mutate; [done|apply benign_setCollection].
  - apply grows_launch.
  - intros. apply grows_mutate; [done|apply benign_withStartState].
  - intros. by apply grows_same.
  - apply grows_alloc.
  - apply grows_save.
  - intros. by apply grows_same.
Qed.

(** * Second instance: the latch *)

Global Instance keeps_preorder I : PreOrder (keeps I).
Proof. split; [by intros s Hs|]. intros a b c H1 H2 ?. apply H2, H1. done. Qed.

Lemma Latched_frame s s' :
  Latched s → launched s' = launched s →
  (∀ p eb, heap s !! p = Some eb → ∃ eb', heap s' !! p = Some eb' ∧ benign eb eb') →
  Latched s'.
Proof.
  intros [Hnd HL] Hl Hh. split; rewrite Hl; [done|].
  intros p Hp. destruct (HL p Hp) as (eb&Heb&Hx&Hs).
  destruct (Hh _ _ Heb) as (eb'&Heb'&_&Hx'&Hs'). exists eb'. auto.
Qed.

Lemma Latched_grows s s' :
  Latched s → launched s' = launched s → grows s s' → Latched s'.
Proof. intros HL Hl (Hh&_&_). by eapply Latched_frame. Qed.

Lemma IsComplete_start eb : entity.IsComplete eb = true → is_Some (entity.StartState eb).
Proof. unfold entity.IsComplete. destruct (entity.StartState eb); [by eexists|done]. Qed.

Lemma Latched_launch p : steps (keeps Latched) (executeBlockIfComplete p).
Proof.
  intros s. unfold wp. destruct (heap s !! p) as [eb|] eqn:Hp.
  - rewrite (executeBlockIfComplete_eq _ _ _ Hp).
    destruct (entity.Executing eb) eqn:Hx; [reflexivity|].
    destruct (entity.IsComplete eb) eqn:Hc; [|reflexivity].
    intros [Hnd HL].
    assert (p ∉ launched s) as Hnot.
    { intros Hin. destruct (HL p Hin) as (eb'&?&?&?). simplify_eq. congruence. }
    split; simpl.
    + apply NoDup_app. split_and!; [done| |apply NoDup_singleton].
      intros x Hx' ->%list_elem_of_singleton. done.
    + intros q [Hq| ->%list_elem_of_singleton]%elem_of_app.
      * destruct (HL q Hq) as (eb'&?&?&?). exists eb'.
        rewrite list_lookup_insert_ne; [done|]. intros ->. done.
      * eexists. rewrite list_lookup_insert_eq; [|by eapply lookup_lt_Some].
        split_and!; [done|done|]. by apply IsComplete_start.
  - by destruct (executeBlockIfComplete_dangling _ _ Hp) as [e ->].
Qed.

(** Every entry point of the engine keeps the latch. *)
Lemma Latched_handle env ev : steps (keeps Latched) (handle env ev).
Proof.
  apply gen_handle; try apply _.
  - intros s s' Hh Hl He _ HL. eapply Latched_grows; [done|done|by apply grows_same].
  - intros s p eb k c Hp HL. eapply Latched_grows; [done|done|].
    apply grows_mutate; [done|apply benign_setCollection].
  - apply Latched_launch.
  - intros s p eb c Hp HL. eapply Latched_grows; [done|done|].
    apply grows_mutate; [done|apply benign_withStartState].
  - intros s q HL. eapply Latched_grows; [done|done|by apply grows_same].
  - intros s eb q HL. eapply Latched_grows; [done|done|apply grows_alloc].
  - intros s h b r HL. eapply Latched_grows; [done|done|apply grows_save].
  - intros s l HL. eapply Latched_grows; [done|done|by apply grows_same].
Qed.

Lemma Latched_initial s : initial s → Latched s.
Proof.
  intros (_&_&_&Hl). split; rewrite Hl; [apply NoDup_nil_2|]. intros p Hp. by apply elem_of_nil in Hp.
Qed.

Lemma reachable_Latched env s : reachable env s → Latched s.
Proof.
  induction 1 as [s Hi|s ev s' _ IH _ Hs].
  - by apply Latched_initial.
  - by apply (steps_stateOf _ _ _ _ (Latched_handle env ev) Hs).
Qed.

(** * The executor latch *)

Global Instance latch_preorder p : PreOrder (latch p).
Proof.
  split.
  - by intros s Hs.
  - intros a b c H1 H2 Ha. destruct (H1 Ha) as [Hb E1]. destruct (H2 Hb) as [Hc E2].
    split; [done|congruence].
Qed.

Lemma latch_grows p s s' : grows s s' → launched s' = launched s → latch p s s'.
Proof.
  intros (Hh&_&_) Hl (eb&Hp&Hx). split.
  - destruct (Hh _ _ Hp) as (eb'&?&_&Hx'&_). exists eb'. auto.
  - unfold launches. by rewrite Hl.
Qed.

Lemma latch_launch p q : steps (latch p) (executeBlockIfComplete q).
Proof.
  intros s. unfold wp. destruct (heap s !! q) as [eb|] eqn:Hq.
  - rewrite (executeBlockIfComplete_eq _ _ _ Hq).
    destruct (entity.Executing eb) eqn:Hx; [reflexivity|].
    destruct (entity.IsComplete eb) eqn:Hc; [|reflexivity].
    intros (eb'&Hp&Hx'). assert (q ≠ p) as Hne by (intros ->; simplify_eq; congruence).
    split.
    + exists eb'. simpl. by rewrite list_lookup_insert_ne.
    + unfold launches. simpl. rewrite filter_app, length_app. simpl.
      rewrite filter_cons_False, filter_nil; [simpl; lia|done].
  - by destruct (executeBlockIfComplete_dangling _ _ Hq) as [e ->].
Qed.

Lemma latch_handle env p ev : steps (latch p) (handle env ev).
Proof.
  apply gen_handle; try apply _.
  - intros s s' Hh Hl He _. apply latch_grows; [by apply grows_same|done].
  - intros s q eb k c Hq. apply latch_grows; [|done].
    apply grows_mutate; [done|apply benign_setCollection].
  - apply latch_launch.
  - intros s q eb c Hq. apply latch_grows; [|done].
    apply grows_mutate; [done|apply benign_withStartState].
  - intros s q. apply latch_grows; [by apply grows_same|done].
  - intros s eb q. apply latch_grows; [apply grows_alloc|done].
  - intros s h b r. apply latch_grows; [apply grows_save|done].
  - intros s l. apply latch_grows; [by apply grows_same|done].
Qed.

Lemma latch_runEvents env p evs s s' :
  runEvents env evs s = Some s' → latch p s s'.
Proof.
  revert s. induction evs as [|ev evs IH]; intros s; simpl.
  - intros [= ->]. reflexivity.
  - destruct (stateOf (handle env ev s)) as [s1|] eqn:Hs; [|done].
    intros Hr. etrans; [|by apply IH].
    by apply (steps_stateOf _ _ _ _ (latch_handle env p ev) Hs).
Qed.

(** C3.  [executeBlockIfComplete] is a one-shot latch.  On a block whose
    executing flag is set, or that is not complete, it returns false and
    changes nothing; otherwise it sets the flag, launches the execution and
    returns true.  From then on the flag stays set through every event of
    the engine, the block is not launched a second time, and a further call
    on it returns false; in every reachable state no block has been launched
    twice. *)
Theorem executeBlockIfComplete_one_shot env s p eb :
  heap s !! p = Some eb →
  (entity.Executing eb = true ∨ entity.IsComplete eb = false →
   executeBlockIfComplete p s = Ok s false) ∧
  (entity.Executing eb = false → entity.IsComplete eb = true →
   ∃ s', executeBlockIfComplete p s = Ok s' true ∧
         heap s' = <[p := entity.withExecuting true eb]> (heap s) ∧
         launched s' = launched s ++ [p] ∧
         ∀ evs s'', runEvents env evs s' = Some s'' →
                    flagged p s'' ∧ launches p s'' = launches p s' ∧
                    executeBlockIfComplete p s'' = Ok s'' false) ∧
  (∀ s0, reachable env s0 → NoDup (launched s0)).
Proof.
  intros Hp. split_and!.
  - intros Hor. rewrite (executeBlockIfComplete_eq _ _ _ Hp).
    destruct (entity.Executing eb); [done|]. destruct Hor as [? | ->]; done.
  - intros Hx Hc. rewrite (executeBlockIfComplete_eq _ _ _ Hp), Hx, Hc.
    eexists. split_and!; [done..|].
    intros evs s'' Hrun.
    destruct (latch_runEvents env p _ _ _ Hrun) as [(eb'&Hp'&Hx') Hn].
    { eexists. simpl. rewrite list_lookup_insert_eq; [|by eapply lookup_lt_Some]. done. }
    split_and!; [by exists eb'|done|].
    by rewrite (executeBlockIfComplete_eq _ _ _ Hp'), Hx'.
  - intros s0 Hr. by destruct (reachable_Latched _ _ Hr).
Qed.

(** * Third instance: matching and launching are calm *)

Global Instance calm_preorder : PreOrder calm.
Proof.
  split.
  - intros s. split_and!; [done..|]. intros p eb ?. by exists eb.
  - intros a b c (Q1&E1&L1&H1) (Q2&E2&L2&H2). split_and!; [congruence..|].
    intros p eb Hp. destruct (H1 _ _ Hp) as (eb'&Hp'&?&?).
    destruct (H2 _ _ Hp') as (eb''&?&?&?). exists eb''. split_and!; congruence.
Qed.

Lemma calm_mutate s p eb f :
  heap s !! p = Some eb → entity.Block (f eb) = entity.Block eb →
  entity.StartState (f eb) = entity.StartState eb →
  calm s (setHeap (<[p := f eb]> (heap s)) s).
Proof.
  intros Hp Hb Hs. split_and!; [done|done|simpl; by rewrite length_insert|].
  intros q eb' Hq. simpl. destruct (decide (p = q)) as [->|Hne].
  - exists (f eb). rewrite list_lookup_insert_eq; [|by eapply lookup_lt_Some].
    simplify_eq. done.
  - exists eb'. by rewrite list_lookup_insert_ne.
Qed.

Lemma calm_same s s' :
  heap s' = heap s → execState s' = execState s →
  executionQueues s' = executionQueues s → calm s s'.
Proof.
  intros Hh He Hq. split_and!; [done|done|by rewrite Hh|].
  intros p eb ?. exists eb. by rewrite Hh.
Qed.

Lemma calm_launch p : steps calm (executeBlockIfComplete p).
Proof.
  intros s. unfold wp. destruct (heap s !! p) as [eb|] eqn:Hp.
  - rewrite (executeBlockIfComplete_eq _ _ _ Hp).
    destruct (entity.Executing eb); [reflexivity|].
    destruct (entity.IsComplete eb); [|reflexivity].
    etrans; [by apply (calm_mutate s p eb (entity.withExecuting true))|].
    by apply calm_same.
  - by destruct (executeBlockIfComplete_dangling _ _ Hp) as [e ->].
Qed.

Section Calm.
Variable env : Env.

Local Ltac inst :=
  first [ apply _
        | by intros; apply calm_same
        | by intros; apply calm_mutate
        | apply calm_launch ].

Lemma calm_matchAndFindMissingCollections p : steps calm (matchAndFindMissingCollections p).
Proof. apply gen_matchAndFindMissingCollections; inst. Qed.

Lemma calm_addCollectionToMempool c : steps calm (addCollectionToMempool c).
Proof. apply gen_addCollectionToMempool; inst. Qed.

Lemma calm_addOrFetch b h gs : steps calm (addOrFetch env b h gs).
Proof. apply gen_addOrFetch; inst. Qed.

Lemma calm_addOrFetchAll l : steps calm (addOrFetchAll env l).
Proof. apply gen_addOrFetchAll; inst. Qed.

Lemma calm_OnCollection c : steps calm (OnCollection env c).
Proof. apply gen_OnCollection; inst. Qed.

Lemma calm_fetchAndHandleCollection b h gs hc :
  (∀ c, steps calm (hc c)) → steps calm (fetchAndHandleCollection env b h gs hc).
Proof. apply gen_fetchAndHandleCollection; inst. Qed.

End Calm.

(** Matching never fails on a live pointer. *)
Lemma matchLoop_returns p gs acc s :
  is_Some (heap s !! p) → ∃ s' missing, matchLoop p gs acc s = Ok s' missing.
Proof.
  revert acc s. induction gs as [|g gs IH]; intros acc s [eb Hp]; simpl.
  - by eexists _, _.
  - unfold bind at 1. unfold load. rewrite Hp.
    unfold bind at 1. unfold mutate. rewrite Hp.
    unfold bind at 1. unfold get. simpl.
    assert (is_Some (<[p := entity.setCollection (flow.GuaranteeID g)
                              (entity.mkComplete g None) eb]> (heap s) !! p)) as Hp'.
    { eexists. apply list_lookup_insert_eq. by eapply lookup_lt_Some. }
    destruct (blockByCollection s !! flow.GuaranteeID g) as [e|] eqn:He.
    + unfold bind at 1. simpl. by apply IH.
    + unfold stdmap.CAdd. simpl. rewrite He. unfold bind at 1. simpl. by apply IH.
Qed.

Lemma matchAndFindMissingCollections_returns p s :
  is_Some (heap s !! p) →
  ∃ s' missing, matchAndFindMissingCollections p s = Ok s' missing.
Proof.
  intros [eb Hp]. unfold matchAndFindMissingCollections, bind, load. rewrite Hp.
  by apply matchLoop_returns.
Qed.

Lemma executeBlockIfComplete_returns p s :
  is_Some (heap s !! p) → ∃ s' b, executeBlockIfComplete p s = Ok s' b.
Proof.
  intros [eb Hp]. rewrite (executeBlockIfComplete_eq _ _ _ Hp).
  repeat case_match; by eexists _, _.
Qed.

Lemma bind_Ok {A B} (m : M A) (k : A → M B) s s' a :
  m s = Ok s' a → bind m k s = k a s'.
Proof. intros Hm. unfold bind. by rewrite Hm. Qed.

Lemma load_Ok p s eb : heap s !! p = Some eb → load p s = Ok s eb.
Proof. intros Hp. unfold load. by rewrite Hp. Qed.

Lemma mutate_Ok p f s eb :
  heap s !! p = Some eb → mutate p f s = Ok (setHeap (<[p := f eb]> (heap s)) s) tt.
Proof. intros Hp. unfold mutate. by rewrite Hp. Qed.

(** What [steps] gives for a call that returned. *)
Lemma steps_Ok (R : relation Engine) {A} (m : M A) s s' a :
  steps R m → m s = Ok s' a → R s s'.
Proof. intros Hm Hs. specialize (Hm s). unfold wp in Hm. by rewrite Hs in Hm. Qed.

(** The tail of [enqueueBlockAndCheckExecutable], after the start state. *)
Lemma enqueue_tail p (head : bool) s eb :
  heap s !! p = Some eb →
  ∃ s' missing,
    (missingCollections <-
       wrap "cannot send collection requests: " (matchAndFindMissingCollections p) ;;
     (if head then executeBlockIfComplete p else ret false) ;;
     ret missingCollections) s = Ok s' missing ∧ calm s s'.
Proof.
  intros Hp.
  destruct (matchAndFindMissingCollections_returns p s) as (s1&missing&H1); [by eexists|].
  pose proof (steps_Ok _ _ _ _ _ (calm_matchAndFindMissingCollections p) H1) as C1.
  destruct (proj2 (proj2 (proj2 C1)) _ _ Hp) as (eb1&Hp1&_).
  unfold bind at 1. unfold wrap. rewrite H1. unfold bind at 1.
  destruct head.
  - destruct (executeBlockIfComplete_returns p s1) as (s2&b&H2); [by eexists|].
    rewrite H2. eexists _, _. split; [done|].
    etrans; [done|]. apply (steps_Ok _ _ _ _ _ (calm_launch p) H2).
  - by eexists _, _.
Qed.

(** [enqueueBlockAndCheckExecutable] on a block that is new to the queues. *)
Lemma enqueueBlockAndCheckExecutable_added block s queues q head :
  let eb0 := entity.mkExecutable block None ∅ false in
  let p := length (heap s) in
  enqueue (blockify p eb0) (executionQueues s) = (queues, q, true, head) →
  enqueueBlockAndCheckExecutable block s =
    afterEnqueue (commits (execState s) (flow.ParentID (flow.BlockHeader block)))
      q (entity.ID eb0) p head
      (setQueues queues (setHeap (heap s ++ [eb0]) s)).
Proof.
  intros eb0 p Henq. unfold enqueueBlockAndCheckExecutable.
  unfold bind at 1. unfold get. fold eb0 p. rewrite Henq. reflexivity.
Qed.

Lemma enqueueBlockAndCheckExecutable_known block s queues q head :
  enqueue (blockify (length (heap s)) (entity.mkExecutable block None ∅ false))
    (executionQueues s) = (queues, q, false, head) →
  enqueueBlockAndCheckExecutable block s = Ok s [].
Proof.
  intros Henq. unfold enqueueBlockAndCheckExecutable.
  unfold bind at 1. unfold get. rewrite Henq. reflexivity.
Qed.

(** C5.  When a block is enqueued, its start state comes from the state
    commitment persisted for its parent: when the lookup succeeds the
    commitment is the start state of the new executable block, when it finds
    nothing the start state stays unset, and any other error of the lookup
    ends the process. *)
Theorem enqueue_populates_start_state block s queues q head :
  enqueue (blockify (length (heap s)) (entity.mkExecutable block None ∅ false))
    (executionQueues s) = (queues, q, true, head) →
  match commits (execState s) (flow.ParentID (flow.BlockHeader block)) with
  | Found parentCommitment =>
      ∃ s' missing eb,
        enqueueBlockAndCheckExecutable block s = Ok s' missing ∧
        heap s' !! length (heap s) = Some eb ∧ entity.Block eb = block ∧
        entity.StartState eb = Some parentCommitment
  | ErrNotFound =>
      ∃ s' missing eb,
        enqueueBlockAndCheckExecutable block s = Ok s' missing ∧
        heap s' !! length (heap s) = Some eb ∧ entity.Block eb = block ∧
        entity.StartState eb = None
  | ErrStorage => ∃ e, enqueueBlockAndCheckExecutable block s = Fatal e
  end.
Proof.
  intros Henq. rewrite (enqueueBlockAndCheckExecutable_added _ _ _ _ _ Henq).
  unfold afterEnqueue.
  set (eb0 := entity.mkExecutable block None ∅ false).
  set (s1 := setQueues queues (setHeap (heap s ++ [eb0]) s)).
  assert (heap s1 !! length (heap s) = Some eb0) as Hp.
  { simpl. by rewrite lookup_app_r, Nat.sub_diag. }
  destruct (commits (execState s) (flow.ParentID (flow.BlockHeader block))) as [c| |].
  - rewrite (bind_Ok _ _ _ _ _ (mutate_Ok _ (entity.withStartState (Some c)) _ _ Hp)).
    set (s2 := setHeap _ s1).
    assert (heap s2 !! length (heap s) = Some (entity.withStartState (Some c) eb0)) as Hp2.
    { simpl. rewrite list_lookup_insert_eq; [done|]. rewrite length_app. simpl. lia. }
    destruct (enqueue_tail (length (heap s)) head s2 _ Hp2) as (s'&missing&Hr&Hc).
    destruct (proj2 (proj2 (proj2 Hc)) _ _ Hp2) as (eb'&?&?&?).
    exists s', missing, eb'. by rewrite Hr.
  - assert (∃ s1', (match queue.Nodes q (entity.ID eb0) with
                    | Some _ => ret ()
                    | None => logError "an unexecuted parent block is missing in the queue"
                    end) s1 = Ok s1' tt ∧ heap s1' = heap s1) as (s1'&Hm&Hh).
    { destruct (queue.Nodes q (entity.ID eb0)); by eexists. }
    rewrite (bind_Ok _ _ _ _ _ Hm). rewrite <-Hh in Hp.
    destruct (enqueue_tail (length (heap s)) head s1' _ Hp) as (s'&missing&Hr&Hc).
    destruct (proj2 (proj2 (proj2 Hc)) _ _ Hp) as (eb'&?&?&?).
    exists s', missing, eb'. by rewrite Hr.
  - by eexists.
Qed.

(** * The reverse index *)

Global Instance indexKept_preorder : PreOrder indexKept.
Proof.
  split; [by intros s|]. intros a b c [C1 H1] [C2 H2]. split; [congruence|].
  intros k ?. by apply H2, H1.
Qed.

Global Instance indexPruned_preorder : PreOrder indexPruned.
Proof.
  split.
  - intros s. split; [done|]. by left.
  - intros a b c [C1 H1] [C2 H2]. split; [congruence|].
    intros k Hk. destruct (H1 k Hk) as [Hb|?]; [|by right].
    destruct (H2 k Hb) as [?|(id&x&Hx&?)]; [by left|right].
    exists id, x. by rewrite <-C1.
Qed.

Lemma indexKept_same s s' :
  blockByCollection s' = blockByCollection s → collections s' = collections s →
  indexKept s s'.
Proof. intros E C. split; [done|]. intros k. by rewrite E. Qed.

Lemma indexKept_insert s k e :
  indexKept s (setByCollection (<[k := e]> (blockByCollection s)) s).
Proof.
  split; [done|]. intros k' Hk. simpl. destruct (decide (k = k')) as [->|].
  - rewrite lookup_insert_eq. by eexists.
  - by rewrite lookup_insert_ne.
Qed.

Lemma indexKept_pruned s s' : indexKept s s' → indexPruned s s'.
Proof. intros [C H]. split; [done|]. intros k Hk. left. by apply H. Qed.

Local Ltac kept_leaf :=
  lazymatch goal with
  | |- steps _ (modify _) =>
      apply steps_modify; intros; repeat case_match; first [reflexivity | by apply indexKept_same]
  | |- steps _ (logError _) => apply steps_modify; intros; by apply indexKept_same
  | |- steps _ (mutate _ _) => apply steps_mutate; intros; by apply indexKept_same
  | _ => idtac
  end.

Lemma indexKept_executeBlockIfComplete p : steps indexKept (executeBlockIfComplete p).
Proof. unfold executeBlockIfComplete. repeat steps_step; kept_leaf. Qed.

Lemma indexKept_matchLoop p gs acc : steps indexKept (matchLoop p gs acc).
Proof.
  revert acc. induction gs as [|g gs IH]; intros acc; simpl; [by steps_step|].
  steps_step; [by steps_step|intros eb].
  steps_step; [kept_leaf|intros _].
  intros s. apply wp_bind, wp_get.
  destruct (blockByCollection s !! flow.GuaranteeID g) as [e|] eqn:He.
  - apply wp_bind, wp_modify.
    eapply wp_mono; [apply IH| |]; simpl; intros; (etrans; [apply indexKept_insert|done]).
  - unfold stdmap.CAdd. simpl. rewrite He.
    apply wp_bind, wp_modify.
    eapply wp_mono; [apply IH| |]; simpl; intros; (etrans; [apply indexKept_insert|done]).
Qed.

Lemma indexKept_matchAndFindMissingCollections p :
  steps indexKept (matchAndFindMissingCollections p).
Proof.
  unfold matchAndFindMissingCollections. repeat steps_step. apply indexKept_matchLoop.
Qed.

Lemma indexKept_requeueLoop c qs acc : steps indexKept (requeueLoop c qs acc).
Proof.
  revert acc. induction qs as [|q qs IH]; intros acc; simpl; repeat steps_step; kept_leaf;
    first [ apply indexKept_matchAndFindMissingCollections
          | apply indexKept_executeBlockIfComplete | apply IH ].
Qed.

Lemma indexKept_requeueChildren p c : steps indexKept (requeueChildren p c).
Proof.
  unfold requeueChildren. repeat steps_step; kept_leaf. apply indexKept_requeueLoop.
Qed.

(** Delivery *)

Lemma indexSame_deliverLoop c l s :
  wp (deliverLoop c l)
    (fun _ s' => blockByCollection s' = blockByCollection s ∧ collections s' = collections s)
    (fun s' => blockByCollection s' = blockByCollection s ∧ collections s' = collections s) s.
Proof.
  set (R := fun s s' : Engine =>
              blockByCollection s' = blockByCollection s ∧ collections s' = collections s).
  assert (PreOrder R) as HR.
  { split; [by intros ?|]. intros x y z [??] [??]. split; congruence. }
  assert (∀ p, steps R (executeBlockIfComplete p)) as HX.
  { intros p. unfold executeBlockIfComplete.
    repeat steps_step; first [apply steps_mutate; by intros | apply steps_modify; by intros]. }
  assert (steps R (deliverLoop c l)) as H; [|apply H].
  induction l as [|[k p] l IH]; simpl; repeat steps_step;
    first [ apply HX | apply IH | apply steps_mutate; by intros
          | apply steps_modify; intros; by case_match ].
Qed.

Lemma addCollectionToMempool_removes c s s' :
  addCollectionToMempool c s = Ok s' tt → blockByCollection s' !! flow.CollID c = None.
Proof.
  unfold addCollectionToMempool. unfold bind at 1. unfold get.
  destruct (blockByCollection s !! flow.CollID c) as [e|] eqn:He.
  - unfold bind. pose proof (indexSame_deliverLoop c (entity.ExecutableBlocks e) s) as H.
    unfold wp in H. destruct (deliverLoop c (entity.ExecutableBlocks e) s); [|done..].
    intros [= <-]. simpl. apply lookup_delete_eq.
  - by intros [= <-].
Qed.

Lemma indexPruned_addCollectionToMempool c :
  ∀ s, stored s (flow.CollID c) →
       wp (addCollectionToMempool c) (fun _ s' => indexPruned s s')
         (fun s' => indexPruned s s') s.
Proof.
  intros s Hst. unfold addCollectionToMempool. apply wp_bind, wp_get.
  destruct (blockByCollection s !! flow.CollID c) as [e|] eqn:He.
  - apply wp_bind. eapply wp_mono; [apply indexSame_deliverLoop| |].
    + intros _ s1 [Hb Hc]. apply wp_modify. split; [done|].
      intros k Hk. simpl. destruct (decide (flow.CollID c = k)) as [<-|Hne]; [by right|].
      left. by rewrite lookup_delete_ne, Hb.
    + intros s1 [Hb Hc]. apply indexKept_pruned. by apply indexKept_same.
  - apply wp_ret. reflexivity.
Qed.

Section Pruned.
Variable env : Env.

Lemma indexPruned_fetchLoop b h gs f s :
  wp (fetchLoop env b h gs
        (fun c => wrap "could not add collection to mempool: " (addCollectionToMempool c)) f)
    (fun _ s' => indexPruned s s') (fun s' => indexPruned s s') s.
Proof.
  revert f s. induction gs as [|g gs IH]; intros f s; simpl.
  - apply wp_ret. reflexivity.
  - apply wp_bind, wp_get.
    destruct (collections s (flow.CollectionID g)) as [c| |] eqn:Hc.
    + apply wp_bind, wp_wrap, wp_wrap.
      eapply wp_mono; [apply indexPruned_addCollectionToMempool; by eexists _, _| |done].
      intros ? s1 H1. simpl in H1. simpl.
      eapply wp_mono; [apply IH| |]; simpl; intros; by etrans.
    + apply wp_bind, wp_wrap. unfold fetchCollection.
      destruct (findGuarantors env g); [|done].
      apply wp_modify.
      eapply wp_mono; [apply IH| |]; simpl; intros;
        (etrans; [|done]); apply indexKept_pruned; by apply indexKept_same.
    + apply wp_fail. reflexivity.
Qed.

Lemma indexPruned_addOrFetch b h gs : steps indexPruned (addOrFetch env b h gs).
Proof.
  intros s. unfold addOrFetch, fetchAndHandleCollection. apply wp_bind.
  eapply wp_mono; [apply indexPruned_fetchLoop| |done].
  intros fetched s1 H1; simpl in *. destruct fetched; [|done].
  apply wp_modify. etrans; [done|]. apply indexKept_pruned. by apply indexKept_same.
Qed.

Lemma indexPruned_addOrFetchAll l : steps indexPruned (addOrFetchAll env l).
Proof.
  induction l as [|[c m] l IH]; simpl; repeat steps_step; [|done].
  apply indexPruned_addOrFetch.
Qed.

Lemma indexPruned_onBlockExecuted p c : steps indexPruned (onBlockExecuted env p c).
Proof.
  unfold onBlockExecuted. repeat steps_step.
  - intros s. eapply wp_mono; [apply indexKept_requeueChildren| |];
      simpl; intros; by apply indexKept_pruned.
  - apply steps_modify. intros. apply indexKept_pruned. by apply indexKept_same.
  - apply indexPruned_addOrFetchAll.
Qed.

End Pruned.

(** C8, as amended.  [onBlockExecuted] removes no reverse-index entry on
    account of the executed block: its critical section keeps every entry,
    and the call as a whole loses an entry only to a collection that local
    storage holds, delivered to a promoted child.  Entries are removed when
    the collection is delivered. *)
Theorem reverse_index_removed_only_on_delivery env :
  (∀ executed finalState s s',
     stateOf (requeueChildren executed finalState s) = Some s' →
     ∀ k, is_Some (blockByCollection s !! k) → is_Some (blockByCollection s' !! k)) ∧
  (∀ executed finalState s s',
     stateOf (onBlockExecuted env executed finalState s) = Some s' →
     ∀ k, is_Some (blockByCollection s !! k) →
          is_Some (blockByCollection s' !! k) ∨ stored s k) ∧
  (∀ collection s s',
     addCollectionToMempool collection s = Ok s' tt →
     blockByCollection s' !! flow.CollID collection = None).
Proof.
  split_and!.
  - intros p c s s' Hs.
    by destruct (steps_stateOf _ _ _ _ (indexKept_requeueChildren p c) Hs).
  - intros p c s s' Hs.
    by destruct (steps_stateOf _ _ _ _ (indexPruned_onBlockExecuted env p c) Hs).
  - apply addCollectionToMempool_removes.
Qed.

(** * Errors of the critical section of [onBlockExecuted] *)

(** C9, as amended.  An executed block that is missing from the queue set
    does not end the process: [onBlockExecuted] logs the error of its
    critical section and returns normally, and nothing else changes. *)
Theorem onBlockExecuted_missing_block_is_logged env executed finalState s eb :
  heap s !! executed = Some eb →
  stdmap.QByID (entity.ID eb) (executionQueues s) = None →
  onBlockExecuted env executed finalState s =
    Ok (setErrors
          (errors s ++
           ["error while requeueing blocks after execution: block has been executed already, no longer exists in the queue"])
          s) tt.
Proof.
  intros Hp Hq. unfold onBlockExecuted, requeueChildren.
  rewrite (bind_Ok _ _ s s ([], Some "block has been executed already, no longer exists in the queue")).
  - reflexivity.
  - rewrite (bind_Ok _ _ _ _ _ (load_Ok _ _ _ Hp)). unfold bind, get. by rewrite Hq.
Qed.

(** A duplicated child ends the loop over the children with an error, and
    that error too is a value handed back to [onBlockExecuted]. *)
Lemma requeueLoop_duplicated_child finalState q rest acc s :
  is_Some (stdmap.QByID (queue.QueueID q) (executionQueues s)) →
  requeueLoop finalState (q :: rest) acc s =
    Ok s (acc, Some "fatal error - child block already in execution queue").
Proof.
  intros [q' Hq]. simpl. unfold bind, get, stdmap.QAdd. by rewrite Hq.
Qed.

(** * Trees of blocks *)

Lemma Node_ind' (P : queue.Node → Prop) :
  (∀ i cs, Forall P cs → P (queue.mkNode i cs)) → ∀ n, P n.
Proof.
  intros H. fix IH 1. intros [i cs]. apply H.
  induction cs as [|c cs IHcs]; constructor; [apply IH|apply IHcs].
Qed.

Lemma find_unfold id i cs :
  queue.find id (queue.mkNode i cs) =
    if decide (queue.ID i = id) then Some i else queue.findIn id cs.
Proof. reflexivity. Qed.

Lemma findIn_cons id c l :
  queue.findIn id (c :: l) =
    match queue.find id c with Some b => Some b | None => queue.findIn id l end.
Proof. reflexivity. Qed.

Lemma findIn_Some id l :
  is_Some (queue.findIn id l) ↔ Exists (fun c => is_Some (queue.find id c)) l.
Proof.
  induction l as [|c l IH].
  - rewrite Exists_nil. split; [intros [? [=]]|done].
  - rewrite findIn_cons, Exists_cons. destruct (queue.find id c) as [b|].
    + split; [left|]; by eexists.
    + rewrite IH. split; [by right|]. intros [[? [=]]|]; done.
Qed.

Lemma find_attach_kept b id n :
  is_Some (queue.find id n) → is_Some (queue.find id (queue.attach b n)).
Proof.
  induction n as [i cs IH] using Node_ind'. simpl queue.attach.
  assert (is_Some (queue.findIn id cs) →
          is_Some (queue.findIn id (List.map (queue.attach b) cs))) as Hcs.
  { rewrite !findIn_Some. rewrite Exists_fmap. intros Hex.
    rewrite Exists_exists in *. destruct Hex as (c&Hc&Hf). exists c. split; [done|].
    rewrite Forall_forall in IH. by apply IH. }
  rewrite find_unfold. intros Hf.
  destruct (decide (queue.ID i = queue.ParentID b)); rewrite find_unfold;
    destruct (decide (queue.ID i = id)); try by eexists.
  - apply findIn_Some, Exists_app. left. apply findIn_Some. auto.
  - auto.
Qed.

Lemma find_attach_new b n :
  is_Some (queue.find (queue.ParentID b) n) →
  is_Some (queue.find (queue.ID b) (queue.attach b n)).
Proof.
  induction n as [i cs IH] using Node_ind'. simpl queue.attach.
  rewrite find_unfold. intros Hf.
  destruct (decide (queue.ID i = queue.ParentID b)) as [E|NE]; rewrite find_unfold;
    destruct (decide (queue.ID i = queue.ID b)); try by eexists.
  - apply findIn_Some, Exists_app. right. apply Exists_cons. left.
    rewrite find_unfold. rewrite decide_True; [by eexists|done].
  - apply findIn_Some. rewrite Exists_fmap.
    apply findIn_Some in Hf. rewrite Exists_exists in *.
    destruct Hf as (c&Hc&Hf). exists c. split; [done|].
    rewrite Forall_forall in IH. by apply IH.
Qed.

(** * Enqueueing *)

Lemma TryAdd_stored q b q' isNew :
  queue.TryAdd q b = (q', true, isNew) → is_Some (queue.Nodes q' (queue.ID b)).
Proof.
  unfold queue.TryAdd, queue.Nodes.
  destruct (queue.find (queue.ID b) (queue.Head q)) eqn:Hf.
  - intros [= <- <-]. rewrite Hf. by eexists.
  - destruct (queue.find (queue.ParentID b) (queue.Head q)) eqn:Hp; [|done].
    intros [= <- <-]. simpl. apply find_attach_new. rewrite Hp. by eexists.
Qed.

Lemma tryAddFirst_stored b queues queues' q isNew :
  tryAddFirst b queues = Some (queues', q, isNew) →
  ∃ k, (k, q) ∈ queues' ∧ is_Some (queue.Nodes q (queue.ID b)).
Proof.
  revert queues'. induction queues as [|[k q0] rest IH]; intros queues'; simpl; [done|].
  destruct (queue.TryAdd q0 b) as [[q1 stored] isNew1] eqn:Ht.
  destruct stored.
  - intros [= <- <- <-]. exists k. split; [apply list_elem_of_here|].
    by eapply TryAdd_stored.
  - destruct (tryAddFirst b rest) as [[[rest' q2] isNew2]|]; [|done].
    intros [= <- <- <-]. destruct (IH _ eq_refl) as (k'&Hin&Hn).
    exists k'. split; [by apply list_elem_of_further|done].
Qed.


(** * Fourth instance: what leaves the queues alone *)

Global Instance sameQueues_preorder : PreOrder sameQueues.
Proof.
  split; [by intros s|]. intros a b c [Q1 E1] [Q2 E2]. split; congruence.
Qed.

Lemma sameQueues_launch p : steps sameQueues (executeBlockIfComplete p).
Proof.
  intros s. eapply wp_mono; [apply calm_launch| |]; simpl;
    [by intros ?? (?&?&_)|by intros ? (?&?&_)].
Qed.

Section SameQueues.
Variable env : Env.

Local Ltac inst :=
  first [ apply _ | by intros | apply sameQueues_launch ].

Lemma sameQueues_afterEnqueue parent q id p head :
  steps sameQueues (afterEnqueue parent q id p head).
Proof. apply gen_afterEnqueue; inst. Qed.

Lemma sameQueues_addCollectionToMempool c : steps sameQueues (addCollectionToMempool c).
Proof. apply gen_addCollectionToMempool; inst. Qed.

Lemma sameQueues_fetchAndHandleCollection b h gs hc :
  (∀ c, steps sameQueues (hc c)) →
  steps sameQueues (fetchAndHandleCollection env b h gs hc).
Proof. apply gen_fetchAndHandleCollection; inst. Qed.

Lemma sameQueues_addOrFetch b h gs : steps sameQueues (addOrFetch env b h gs).
Proof. apply gen_addOrFetch; inst. Qed.

End SameQueues.

Lemma wp_eq {A} (m m' : M A) Q E s s1 : m s = m' s1 → wp m' Q E s1 → wp m Q E s.
Proof. unfold wp. by intros ->. Qed.



(** * Enqueueing the same block again *)

Lemma TryAdd_not_stored q b q' isNew :
  queue.TryAdd q b = (q', false, isNew) →
  q' = q ∧ queue.Nodes q (queue.ID b) = None ∧ queue.Nodes q (queue.ParentID b) = None.
Proof.
  unfold queue.TryAdd.
  destruct (queue.Nodes q (queue.ID b)); [done|].
  destruct (queue.Nodes q (queue.ParentID b)); [done|]. by intros [= <- <-].
Qed.

Lemma TryAdd_known q b :
  is_Some (queue.Nodes q (queue.ID b)) → queue.TryAdd q b = (q, true, false).
Proof. intros [x Hx]. unfold queue.TryAdd. by rewrite Hx. Qed.

Lemma TryAdd_unrelated q b :
  queue.Nodes q (queue.ID b) = None → queue.Nodes q (queue.ParentID b) = None →
  queue.TryAdd q b = (q, false, false).
Proof. intros H1 H2. unfold queue.TryAdd. by rewrite H1, H2. Qed.

Section Again.
Variables b b' : queue.Blockify.
Hypothesis same_id : queue.ID b' = queue.ID b.
Hypothesis same_parent : queue.ParentID b' = queue.ParentID b.

Lemma tryAddFirst_again queues queues' q isNew :
  tryAddFirst b queues = Some (queues', q, isNew) →
  tryAddFirst b' queues' = Some (queues', q, false).
Proof using same_id same_parent.
  revert queues'. induction queues as [|[k q0] rest IH]; intros queues'; simpl; [done|].
  destruct (queue.TryAdd q0 b) as [[q1 stored] isNew1] eqn:Ht.
  destruct stored.
  - intros [= <- <- <-]. simpl.
    rewrite TryAdd_known; [done|]. rewrite same_id. by eapply TryAdd_stored.
  - destruct (TryAdd_not_stored _ _ _ _ Ht) as (->&H1&H2).
    destruct (tryAddFirst b rest) as [[[rest' q2] isNew2]|]; [|done].
    intros [= <- <- <-]. simpl.
    rewrite TryAdd_unrelated; [|by rewrite same_id|by rewrite same_parent].
    by rewrite (IH _ eq_refl).
Qed.

Lemma tryAddFirst_none_app queues l :
  tryAddFirst b queues = None →
  tryAddFirst b' (queues ++ l) =
    match tryAddFirst b' l with
    | Some (l', q, isNew) => Some (queues ++ l', q, isNew)
    | None => None
    end.
Proof using same_id same_parent.
  induction queues as [|[k q0] rest IH]; simpl.
  - intros _. by destruct (tryAddFirst b' l) as [[[??]?]|].
  - destruct (queue.TryAdd q0 b) as [[q1 stored] isNew1] eqn:Ht.
    destruct stored; [done|].
    destruct (TryAdd_not_stored _ _ _ _ Ht) as (->&H1&H2).
    destruct (tryAddFirst b rest) as [[[rest' q2] isNew2]|]; [done|].
    intros _. rewrite TryAdd_unrelated; [|by rewrite same_id|by rewrite same_parent].
    rewrite IH; [|done]. by destruct (tryAddFirst b' l) as [[[??]?]|].
Qed.

(** After [enqueue], a second [enqueue] of the same block is refused and
    leaves the queues as they are. *)
Lemma enqueue_again queues queues' q added head :
  enqueue b queues = (queues', q, added, head) →
  ∃ q' head', enqueue b' queues' = (queues', q', false, head').
Proof using same_id same_parent.
  unfold enqueue.
  destruct (tryAddFirst b queues) as [[[qs1 q1] isNew1]|] eqn:Ht.
  - intros [= <- <- <- <-]. rewrite (tryAddFirst_again _ _ _ _ Ht). by eexists _, _.
  - unfold newQueue, stdmap.QAdd. change (queue.QueueID (queue.NewQueue b)) with (queue.ID b).
    destruct (stdmap.QByID (queue.ID b) queues) as [q0|] eqn:Hq.
    + intros [= <- <- <- <-].
      pose proof (tryAddFirst_none_app queues [] Ht) as Hn. simpl in Hn.
      rewrite app_nil_r in Hn. rewrite Hn.
      change (queue.QueueID (queue.NewQueue b')) with (queue.ID b').
      rewrite same_id, Hq. by eexists _, _.
    + intros [= <- <- <- <-].
      rewrite (tryAddFirst_none_app queues _ Ht). simpl.
      rewrite TryAdd_known; [by eexists _, _|].
      unfold queue.Nodes. simpl. rewrite decide_True; [by eexists|done].
  Qed.

End Again.

(** The first queue, in the order of the probe, that holds the block or
    its parent holds the block: the block is refused and nothing changes. *)
Lemma enqueue_known b before k q after :
  Forall (fun e => queue.Nodes e.2 (queue.ID b) = None ∧
                   queue.Nodes e.2 (queue.ParentID b) = None) before →
  is_Some (queue.Nodes q (queue.ID b)) →
  enqueue b (before ++ (k, q) :: after) = (before ++ (k, q) :: after, q, false, false).
Proof.
  intros Hb Hq. unfold enqueue.
  assert (tryAddFirst b (before ++ (k, q) :: after)
          = Some (before ++ (k, q) :: after, q, false)) as ->; [|done].
  induction Hb as [|[k0 q0] before [H1 H2] _ IH]; simpl.
  - by rewrite TryAdd_known.
  - rewrite TryAdd_unrelated; [|done..]. by rewrite IH.
Qed.

Lemma addOrFetch_nothing env blockID height s :
  addOrFetch env blockID height [] s = Ok s tt.
Proof. reflexivity. Qed.

(** A second call right after a first one, with the queue set ranged over
    in the same order, changes nothing. *)
Lemma handleBlock_again env block s s1 :
  stateOf (handleBlock env block s) = Some s1 →
  stateOf (handleBlock env block s1) = Some s1.
Proof.
  unfold handleBlock. unfold bind at 1 3. unfold get.
  destruct (IsBlockExecuted (execState s) (flow.BlockID block)) as [[]|] eqn:Hx.
  - simpl. intros [= <-]. by rewrite Hx.
  - set (eb0 := entity.mkExecutable block None ∅ false).
    destruct (enqueue (blockify (length (heap s)) eb0) (executionQueues s))
      as [[[queues q] added] head] eqn:He.
    destruct added.
    + intros Hs.
      assert (sameQueues (setQueues queues (setHeap (heap s ++ [eb0]) s)) s1) as [Hq Hst].
      { revert Hs. unfold bind, wrap.
        rewrite (enqueueBlockAndCheckExecutable_added _ _ _ _ _ He).
        fold eb0.
        pose proof (sameQueues_afterEnqueue
                      (commits (execState s) (flow.ParentID (flow.BlockHeader block)))
                      q (entity.ID eb0) (length (heap s)) head
                      (setQueues queues (setHeap (heap s ++ [eb0]) s))) as H1.
        unfold wp in H1.
        destruct (afterEnqueue _ _ _ _ _ _) as [s2 missing|s2 e|e]; simpl; [|congruence|done].
        intros Hs. etrans; [done|]. revert Hs.
        apply (steps_stateOf _ _ _ _ (sameQueues_addOrFetch env _ _ _)). }
      simpl in Hq, Hst. rewrite Hst, Hx.
      destruct (enqueue_again (blockify (length (heap s)) eb0)
                  (blockify (length (heap s1)) eb0) eq_refl eq_refl _ _ _ _ _ He)
        as (q'&head'&He').
      unfold bind, wrap. rewrite <-Hq in He'.
      by rewrite (enqueueBlockAndCheckExecutable_known _ _ _ _ _ He').
    + unfold bind, wrap. rewrite (enqueueBlockAndCheckExecutable_known _ _ _ _ _ He).
      simpl. intros [= <-]. rewrite Hx.
      by rewrite (enqueueBlockAndCheckExecutable_known _ _ _ _ _ He).
  - simpl. intros [= <-]. by rewrite Hx.
Qed.

(** * Matching, fetching, delivering *)

Lemma assign_here k p l : (k, p) ∈ assign k p l.
Proof.
  induction l as [|[k' p'] l IH]; simpl; [apply list_elem_of_here|].
  case_decide; [apply list_elem_of_here|by apply list_elem_of_further].
Qed.

Lemma matchLoop_cons p g gs acc s eb :
  heap s !! p = Some eb →
  let gid := flow.GuaranteeID g in
  let s1 := setHeap (<[p := entity.setCollection gid (entity.mkComplete g None) eb]> (heap s)) s in
  matchLoop p (g :: gs) acc s =
    match blockByCollection s !! gid with
    | Some e =>
        matchLoop p gs acc
          (setByCollection
             (<[gid := entity.mkByCollection (entity.ByCollectionID e)
                         (assign (entity.ID eb) p (entity.ExecutableBlocks e))]>
                (blockByCollection s)) s1)
    | None =>
        matchLoop p gs (acc ++ [g])
          (setByCollection
             (<[gid := entity.mkByCollection gid [(entity.ID eb, p)]]>
                (blockByCollection s)) s1)
    end.
Proof.
  intros Hp gid s1. simpl.
  rewrite (bind_Ok _ _ _ _ _ (load_Ok _ _ _ Hp)).
  rewrite (bind_Ok _ _ _ _ _ (mutate_Ok _ _ _ _ Hp)).
  unfold bind at 1. unfold get. simpl. fold gid.
  destruct (blockByCollection s !! gid) as [e|] eqn:He; [done|].
  unfold stdmap.CAdd. simpl. fold gid. by rewrite He.
Qed.

Lemma guarantee_eq (g g' : flow.CollectionGuarantee) :
  flow.GuaranteeID g = flow.GuaranteeID g' → g = g'.
Proof. destruct g, g'. simpl. by intros ->. Qed.

Lemma matchLoop_spec p gs : ∀ acc s eb,
  heap s !! p = Some eb →
  ∃ s' new eb',
    matchLoop p gs acc s = Ok s' (acc ++ new) ∧
    (∀ g, g ∈ new ↔ g ∈ gs ∧ blockByCollection s !! flow.GuaranteeID g = None) ∧
    heap s' !! p = Some eb' ∧ entity.Block eb' = entity.Block eb ∧
    entity.StartState eb' = entity.StartState eb ∧
    (∀ k, unfilled eb k → unfilled eb' k) ∧
    (∀ g, g ∈ gs → unfilled eb' (flow.GuaranteeID g)) ∧
    (∀ k, waits p (entity.ID eb) k s → waits p (entity.ID eb) k s') ∧
    (∀ g, g ∈ gs → waits p (entity.ID eb) (flow.GuaranteeID g) s') ∧
    collections s' = collections s ∧ requested s' = requested s.
Proof.
  induction gs as [|g gs IH]; intros acc s eb Hp.
  - exists s, [], eb. rewrite app_nil_r. split_and!; try done.
    + intros g. split; [by intros ?%elem_of_nil|by intros [?%elem_of_nil _]].
    + by intros g ?%elem_of_nil.
    + by intros g ?%elem_of_nil.
  - rewrite (matchLoop_cons _ _ _ _ _ _ Hp).
    set (gid := flow.GuaranteeID g).
    set (eb1 := entity.setCollection gid (entity.mkComplete g None) eb).
    set (s1 := setHeap (<[p := eb1]> (heap s)) s).
    assert (heap s1 !! p = Some eb1) as Hp1.
    { simpl. apply list_lookup_insert_eq. by eapply lookup_lt_Some. }
    assert (∀ k, unfilled eb k → unfilled eb1 k) as Hun.
    { intros k (cc&Hcc&Ht). unfold unfilled, eb1. simpl.
      destruct (decide (gid = k)) as [->|].
      - rewrite lookup_insert_eq. by eexists.
      - rewrite lookup_insert_ne; [|done]. by eexists. }
    assert (unfilled eb1 gid) as Hg.
    { unfold unfilled, eb1. simpl. rewrite lookup_insert_eq. by eexists. }
    destruct (blockByCollection s !! gid) as [e|] eqn:He.
    + set (s2 := setByCollection _ s1).
      destruct (IH acc s2 eb1 Hp1) as (s'&new&eb'&Hr&Hnew&Hp'&Hb&Hst&Hk&Hgs&Hw&Hwg&Hc&Hq).
      assert (waits p (entity.ID eb) gid s2) as Hw2.
      { eexists. simpl. rewrite lookup_insert_eq. split; [done|]. simpl. apply assign_here. }
      exists s', new, eb'. split_and!; try done.
      * intros x. rewrite Hnew. simpl. rewrite elem_of_cons.
        destruct (decide (gid = flow.GuaranteeID x)) as [E|NE].
        -- rewrite <-E, lookup_insert_eq, He. split; by intros [_ [=]].
        -- rewrite lookup_insert_ne; [|done].
           split; [by intros [??]; split; [right|]|].
           intros [[->|?] ?]; [done|by split].
      * intros k Hk'. by apply Hk, Hun.
      * intros x [->|Hx]%elem_of_cons; [by apply Hk|by apply Hgs].
      * intros k (e0&He0&Hin). apply Hw. unfold waits. simpl.
        destruct (decide (gid = k)) as [<-|NE]; [done|].
        rewrite lookup_insert_ne; [|done]. by eexists.
      * intros x [->|Hx]%elem_of_cons; [by apply Hw|by apply Hwg].
    + set (s2 := setByCollection _ s1).
      destruct (IH (acc ++ [g]) s2 eb1 Hp1)
        as (s'&new&eb'&Hr&Hnew&Hp'&Hb&Hst&Hk&Hgs&Hw&Hwg&Hc&Hq).
      assert (waits p (entity.ID eb) gid s2) as Hw2.
      { eexists. simpl. rewrite lookup_insert_eq. split; [done|]. simpl. apply list_elem_of_here. }
      exists s', (g :: new), eb'. split_and!; try done.
      * by rewrite Hr, <-app_assoc.
      * intros x. rewrite !elem_of_cons, Hnew. simpl.
        destruct (decide (gid = flow.GuaranteeID x)) as [E|NE].
        -- apply guarantee_eq in E. subst x.
           split; [intros _; by split; [left|]|by left].
        -- rewrite lookup_insert_ne; [|done].
           assert (x ≠ g) by (intros ->; done).
           split; [intros [?|[??]]; [done|by split; [right|]]|].
           intros [[?|?] ?]; [done|by right].
      * intros k Hk'. by apply Hk, Hun.
      * intros x [->|Hx]%elem_of_cons; [by apply Hk|by apply Hgs].
      * intros k (e0&He0&Hin). apply Hw. unfold waits. simpl.
        destruct (decide (gid = k)) as [<-|NE]; [congruence|].
        rewrite lookup_insert_ne; [|done]. by eexists.
      * intros x [->|Hx]%elem_of_cons; [by apply Hw|by apply Hwg].
Qed.

Lemma filled_mutate_collection p k q k' g txs s eb :
  heap s !! q = Some eb →
  filled p k s →
  filled p k (setHeap (<[q := entity.setCollection k' (entity.mkComplete g (Some txs)) eb]>
                         (heap s)) s).
Proof.
  intros Hq (eb0&cc&Hp&Hcc&Hc). unfold filled. simpl.
  destruct (decide (q = p)) as [->|NE].
  - rewrite list_lookup_insert_eq; [|by eapply lookup_lt_Some]. simplify_eq.
    destruct (decide (k' = k)) as [->|].
    + eexists _, (entity.mkComplete g (Some txs)). split; [done|]. simpl.
      by rewrite lookup_insert_eq.
    + eexists _, cc. split; [done|]. simpl. by rewrite lookup_insert_ne.
  - rewrite list_lookup_insert_ne; [|done]. by exists eb0, cc.
Qed.

Lemma filled_launch p k q : steps (keeps (filled p k)) (executeBlockIfComplete q).
Proof.
  intros s. unfold wp. destruct (heap s !! q) as [eb|] eqn:Hq.
  - rewrite (executeBlockIfComplete_eq _ _ _ Hq).
    destruct (entity.Executing eb); [reflexivity|].
    destruct (entity.IsComplete eb); [|reflexivity].
    intros (eb0&cc&Hp&Hcc&Hc). unfold filled. simpl.
    destruct (decide (q = p)) as [->|NE].
    + rewrite list_lookup_insert_eq; [|by eapply lookup_lt_Some]. simplify_eq.
      by eexists _, cc.
    + rewrite list_lookup_insert_ne; [|done]. by exists eb0, cc.
  - by destruct (executeBlockIfComplete_dangling _ _ Hq) as [e ->].
Qed.

Lemma filled_frame p k s s' : heap s' = heap s → filled p k s → filled p k s'.
Proof. intros E. unfold filled. by rewrite E. Qed.

(** The loop of a delivery keeps what is filled, and fills every block it
    goes over. *)
Lemma deliverLoop_keeps p k c l : steps (keeps (filled p k)) (deliverLoop c l).
Proof.
  induction l as [|[id q] l IH]; simpl; repeat steps_step;
    first [ apply IH | apply filled_launch
          | apply steps_modify; intros s; unfold keeps; case_match; by apply filled_frame
          | apply steps_mutate; intros s eb Hq; unfold keeps;
            by apply filled_mutate_collection ].
Qed.

Lemma deliverLoop_fills c l s s' p id :
  (id, p) ∈ l → deliverLoop c l s = Ok s' tt → filled p (flow.CollID c) s'.
Proof.
  revert s. induction l as [|[id' q] l IH]; intros s Hin; [by apply elem_of_nil in Hin|].
  simpl. unfold bind at 1. unfold load.
  destruct (heap s !! q) as [eb|] eqn:Hq; [|done].
  destruct (entity.CompleteCollections eb !! flow.CollID c) as [cc|] eqn:Hcc; [|done].
  unfold bind at 1. unfold modify.
  set (s1 := if (maxCollectionHeight s <? entity.Height eb)%N then _ else s).
  assert (heap s1 = heap s) as Hh by (unfold s1; by case_match).
  assert (∀ s2, filled q (flow.CollID c) s2 → deliverLoop c l s2 = Ok s' tt →
                filled p (flow.CollID c) s') as Hrest.
  { intros s2 Hf Hr. apply elem_of_cons in Hin as [[= -> ->]|Hin]; [|by eapply IH].
    by apply (steps_Ok _ _ _ _ _ (deliverLoop_keeps q (flow.CollID c) c l) Hr). }
  destruct (entity.IsCompleted cc) eqn:Hc.
  - apply Hrest. exists eb, cc. by rewrite Hh.
  - rewrite <-Hh in Hq.
    rewrite (bind_Ok _ _ _ _ _ (mutate_Ok _ _ _ _ Hq)).
    set (s2 := setHeap _ s1).
    assert (filled q (flow.CollID c) s2) as Hf.
    { eexists _, _. simpl. rewrite list_lookup_insert_eq; [|by eapply lookup_lt_Some].
      split; [done|]. simpl. by rewrite lookup_insert_eq. }
    unfold bind at 1.
    pose proof (filled_launch q (flow.CollID c) q s2) as HL. unfold wp in HL.
    destruct (executeBlockIfComplete q s2) as [s3 b| |]; [|done..].
    apply Hrest. by apply HL.
Qed.

(** A delivery fills the collection of every block that waits for it. *)
Lemma addCollectionToMempool_fills c s s' p id :
  waits p id (flow.CollID c) s → addCollectionToMempool c s = Ok s' tt →
  filled p (flow.CollID c) s'.
Proof.
  intros (e&He&Hin). unfold addCollectionToMempool. unfold bind at 1. unfold get.
  rewrite He. unfold bind.
  destruct (deliverLoop c (entity.ExecutableBlocks e) s) as [s1 []| |] eqn:Hd; [|done..].
  intros [= <-]. apply (filled_frame _ _ s1); [done|]. by eapply deliverLoop_fills.
Qed.

Global Instance sameRequests_preorder : PreOrder sameRequests.
Proof.
  split; [by intros s|]. intros a b c [Q1 E1] [Q2 E2]. split; congruence.
Qed.

Lemma sameRequests_launch p : steps sameRequests (executeBlockIfComplete p).
Proof.
  unfold executeBlockIfComplete. repeat steps_step;
    first [apply steps_mutate; by intros | apply steps_modify; by intros].
Qed.

Lemma sameRequests_deliverLoop c l : steps sameRequests (deliverLoop c l).
Proof.
  induction l as [|[k p] l IH]; simpl; repeat steps_step;
    first [ apply sameRequests_launch | apply IH | apply steps_mutate; by intros
          | apply steps_modify; intros; by case_match ].
Qed.

Lemma sameRequests_addCollectionToMempool c : steps sameRequests (addCollectionToMempool c).
Proof.
  unfold addCollectionToMempool. repeat steps_step;
    first [ apply sameRequests_deliverLoop | apply steps_modify; by intros ].
Qed.

(** Only the guarantees whose collection storage does not hold are
    requested. *)
Lemma fetchLoop_requests env blockID height gs : ∀ fetched s s' r,
  fetchLoop env blockID height gs
    (fun c => wrap "could not add collection to mempool: " (addCollectionToMempool c))
    fetched s = Ok s' r →
  requested s' =
    requested s ++ (flow.GuaranteeID <$> filter (fun g => absent s g = true) gs).
Proof.
  induction gs as [|g gs IH]; intros fetched s s' r; simpl.
  - intros [= <- _]. by rewrite app_nil_r.
  - unfold bind at 1. unfold get.
    destruct (collections s (flow.CollectionID g)) as [c| |] eqn:Hc; [| |done].
    + unfold bind at 1.
      pose proof (sameRequests_addCollectionToMempool c s) as Hf. unfold wp in Hf.
      unfold wrap. destruct (addCollectionToMempool c s) as [s1 []| |]; [|done..].
      intros Hr. apply IH in Hr. destruct Hf as [Hq Hcs].
      rewrite Hr, Hq. f_equal. rewrite filter_cons_False; [|unfold absent; by rewrite Hc].
      f_equal. apply list_filter_iff. intros x. unfold absent. by rewrite Hcs.
    + unfold bind at 1. unfold wrap, fetchCollection.
      destruct (findGuarantors env g); [|done]. simpl.
      intros Hr. apply IH in Hr. rewrite Hr. simpl.
      rewrite filter_cons_True; [|unfold absent; by rewrite Hc].
      rewrite <-app_assoc. done.
Qed.

(** C7, as amended.  [matchAndFindMissingCollections] does not look at
    local storage: it returns as missing every guarantee of the block that
    has no entry in the reverse index, leaves the transactions of every
    guarantee unfilled and records the block as waiting.  Storage is looked
    at afterwards, by [addOrFetch] on the guarantees returned: only those
    whose collection storage does not hold are requested, and a collection
    that is handed to [addCollectionToMempool] fills the transactions of
    every block waiting for it. *)
Theorem matching_then_storage env :
  (∀ s p eb,
     heap s !! p = Some eb →
     ∃ s' missing eb',
       matchAndFindMissingCollections p s = Ok s' missing ∧
       collections s' = collections s ∧ heap s' !! p = Some eb' ∧
       (∀ g, g ∈ missing ↔
             g ∈ flow.Guarantees (entity.Block eb) ∧
             blockByCollection s !! flow.GuaranteeID g = None) ∧
       (∀ g, g ∈ flow.Guarantees (entity.Block eb) →
             unfilled eb' (flow.GuaranteeID g) ∧
             waits p (entity.ID eb) (flow.GuaranteeID g) s')) ∧
  (∀ blockID height guarantees s s',
     addOrFetch env blockID height guarantees s = Ok s' tt →
     requested s' =
       requested s ++ (flow.GuaranteeID <$> filter (fun g => absent s g = true) guarantees)) ∧
  (∀ collection s s' p id,
     waits p id (flow.CollID collection) s →
     addCollectionToMempool collection s = Ok s' tt →
     filled p (flow.CollID collection) s').
Proof.
  split_and!.
  - intros s p eb Hp. unfold matchAndFindMissingCollections.
    rewrite (bind_Ok _ _ _ _ _ (load_Ok _ _ _ Hp)).
    destruct (matchLoop_spec p (flow.Guarantees (entity.Block eb)) [] s eb Hp)
      as (s'&new&eb'&Hr&Hnew&Hp'&Hb&Hst&Hk&Hgs&Hw&Hwg&Hc&Hq).
    exists s', new, eb'. split_and!; try done. intros g Hg. split; auto.
  - intros blockID height gs s s'. unfold addOrFetch, fetchAndHandleCollection.
    unfold bind at 1.
    destruct (fetchLoop _ _ _ _ _ _ _) as [s1 fetched| |] eqn:Hf; [|done..].
    apply fetchLoop_requests in Hf.
    destruct fetched; simpl; intros [= <-]; done.
  - intros c s s' p id. apply addCollectionToMempool_fills.
Qed.

(** * The ordering invariant *)

Lemma steps_weaken (R R' : relation Engine) {A} (m : M A) :
  (∀ s s', R s s' → R' s s') → steps R m → steps R' m.
Proof. intros HR Hm s. eapply wp_mono; [apply Hm| |]; simpl; eauto. Qed.

Lemma wellLinked_unfold h i cs :
  wellLinked h (queue.mkNode i cs) ↔
  agrees h i ∧
  Forall (fun c => queue.ParentID (queue.item c) = queue.ID i ∧ wellLinked h c) cs.
Proof.
  simpl. apply and_iff_compat_l. induction cs as [|c cs IH].
  - split; [constructor|done].
  - rewrite Forall_cons, IH. done.
Qed.

Lemma agrees_mono h h' b :
  (∀ p eb, h !! p = Some eb → ∃ eb', h' !! p = Some eb' ∧ entity.Block eb' = entity.Block eb) →
  agrees h b → agrees h' b.
Proof.
  intros Hh (eb&Hp&Hid&Hpar). destruct (Hh _ _ Hp) as (eb'&Hp'&Hb).
  exists eb'. unfold entity.ID, entity.ParentID in *. rewrite Hb. done.
Qed.

Lemma wellLinked_mono h h' n :
  (∀ p eb, h !! p = Some eb → ∃ eb', h' !! p = Some eb' ∧ entity.Block eb' = entity.Block eb) →
  wellLinked h n → wellLinked h' n.
Proof.
  intros Hh. induction n as [i cs IH] using Node_ind'.
  rewrite !wellLinked_unfold. intros [Ha Hcs]. split; [by eapply agrees_mono|].
  rewrite Forall_forall in *. intros c Hc. destruct (Hcs c Hc). split; [done|]. by apply IH.
Qed.

Lemma wellLinked_attach h b n :
  agrees h b → wellLinked h n → wellLinked h (queue.attach b n).
Proof.
  intros Hb. induction n as [i cs IH] using Node_ind'.
  rewrite wellLinked_unfold. intros [Ha Hcs]. simpl queue.attach.
  assert (Forall (fun c => queue.ParentID (queue.item c) = queue.ID i ∧ wellLinked h c)
            (List.map (queue.attach b) cs)) as Hcs'.
  { apply Forall_fmap. rewrite Forall_forall in *. intros c Hc. simpl.
    destruct (Hcs c Hc) as [Hp Hw]. split; [|by apply IH].
    destruct c as [ic ccs]. simpl in *. by case_decide. }
  case_decide; rewrite wellLinked_unfold; (split; [done|]); [|done].
  apply Forall_app. split; [done|]. apply Forall_singleton. split; [done|].
  rewrite wellLinked_unfold. split; [done|constructor].
Qed.

Lemma TryAdd_wellLinked h q b q' stored isNew :
  queue.TryAdd q b = (q', stored, isNew) → agrees h b →
  wellLinked h (queue.Head q) →
  queue.QueueID q' = queue.QueueID q ∧ wellLinked h (queue.Head q').
Proof.
  unfold queue.TryAdd. intros Ht Hb Hw.
  destruct (queue.Nodes q (queue.ID b)); [by simplify_eq|].
  destruct (queue.Nodes q (queue.ParentID b)); [|by simplify_eq].
  simplify_eq. simpl. split; [|by apply wellLinked_attach].
  unfold queue.QueueID. simpl. destruct (queue.Head q) as [i cs]. simpl. by case_decide.
Qed.

Lemma tryAddFirst_wellLinked h b qs qs' q isNew :
  tryAddFirst b qs = Some (qs', q, isNew) → agrees h b → queuesOK h qs → queuesOK h qs'.
Proof.
  intros Ht Hb. revert qs' Ht. induction qs as [|[k q0] rest IH]; intros qs'; simpl; [done|].
  destruct (queue.TryAdd q0 b) as [[q1 stored] isNew1] eqn:Hq.
  intros Ht Hok.
  assert (queuesOK h rest) as Hrest.
  { intros k' q' Hin. apply Hok. by apply list_elem_of_further. }
  destruct (Hok k q0) as [Hk Hw]; [apply list_elem_of_here|].
  destruct (TryAdd_wellLinked h _ _ _ _ _ Hq Hb Hw) as [Hk1 Hw1].
  destruct stored.
  - simplify_eq. intros k' q' [[= -> ->]|Hin]%elem_of_cons; [by rewrite Hk1|by apply Hrest].
  - destruct (tryAddFirst b rest) as [[[rest' q2] isNew2]|]; [|done]. simplify_eq.
    intros k' q' [[= -> ->]|Hin]%elem_of_cons; [done|]. by eapply IH.
Qed.

Lemma QAdd_OK h id q qs qs' added :
  stdmap.QAdd id q qs = (qs', added) → queue.QueueID q = id → wellLinked h (queue.Head q) →
  queuesOK h qs → queuesOK h qs'.
Proof.
  unfold stdmap.QAdd. destruct (stdmap.QByID id qs); intros [= <- <-]; [done|].
  intros Hid Hw Hok k' q' [Hin|[= -> ->]%list_elem_of_singleton]%elem_of_app; [by apply Hok|done].
Qed.

Lemma enqueue_wellLinked h b qs qs' q added head :
  enqueue b qs = (qs', q, added, head) → agrees h b → queuesOK h qs → queuesOK h qs'.
Proof.
  unfold enqueue. intros He Hb Hok.
  destruct (tryAddFirst b qs) as [[[qs1 q1] isNew1]|] eqn:Ht.
  - simplify_eq. by eapply tryAddFirst_wellLinked.
  - unfold newQueue in He.
    destruct (stdmap.QAdd _ _ qs) as [qs1 added1] eqn:Hq. simplify_eq.
    eapply QAdd_OK; [done|done| |done].
    simpl. split; [done|done].
Qed.

Lemma queuesOK_mono h h' qs :
  (∀ p eb, h !! p = Some eb → ∃ eb', h' !! p = Some eb' ∧ entity.Block eb' = entity.Block eb) →
  queuesOK h qs → queuesOK h' qs.
Proof.
  intros Hh Hok k q Hin. destruct (Hok k q Hin). split; [done|]. by eapply wellLinked_mono.
Qed.

(** Calm steps keep the invariant. *)
Lemma Ordered_calm s s' : Ordered s → calm s s' → Ordered s'.
Proof.
  intros [H1 H2] (Hq&He&Hl&Hh). split.
  - intros p eb' Hp' Hs. unfold committed. rewrite He.
    assert (is_Some (heap s !! p)) as [eb Hp].
    { apply lookup_lt_is_Some. rewrite <-Hl. by eapply lookup_lt_Some. }
    destruct (Hh _ _ Hp) as (eb''&?&Hb&Hst). simplify_eq.
    unfold entity.ParentID. rewrite Hb. apply (H1 p eb Hp). by rewrite <-Hst.
  - rewrite Hq. eapply queuesOK_mono; [|exact H2].
    intros p eb Hp. destruct (Hh _ _ Hp) as (eb'&?&?&?). eauto.
Qed.

Lemma Ordered_steps_calm {A} (m : M A) : steps calm m → steps (keeps Ordered) m.
Proof. apply steps_weaken. intros s s' Hc Ho. by eapply Ordered_calm. Qed.

Lemma committed_calm s s' id : calm s s' → committed s id → committed s' id.
Proof. intros (_&He&_) Hc. unfold committed. by rewrite He. Qed.

Lemma Ordered_mutate_start s p eb c :
  Ordered s → heap s !! p = Some eb → committed s (entity.ParentID eb) →
  Ordered (setHeap (<[p := entity.withStartState (Some c) eb]> (heap s)) s).
Proof.
  intros [H1 H2] Hp Hc. split; simpl.
  - intros q eb' Hq Hs. destruct (decide (p = q)) as [->|NE].
    + rewrite list_lookup_insert_eq in Hq; [|by eapply lookup_lt_Some]. by simplify_eq.
    + rewrite list_lookup_insert_ne in Hq; [|done]. by eapply H1.
  - eapply queuesOK_mono; [|exact H2]. intros q eb' Hq.
    destruct (decide (p = q)) as [->|NE].
    + rewrite list_lookup_insert_eq; [|by eapply lookup_lt_Some]. simplify_eq. by eexists.
    + rewrite list_lookup_insert_ne; [|done]. by eexists.
Qed.

Lemma Ordered_alloc s eb0 qs' q added head :
  Ordered s → entity.StartState eb0 = None →
  enqueue (blockify (length (heap s)) eb0) (executionQueues s) = (qs', q, added, head) →
  Ordered (setQueues qs' (setHeap (heap s ++ [eb0]) s)).
Proof.
  intros [H1 H2] Hs He. split; simpl.
  - intros p eb Hp Hst. apply lookup_app_Some in Hp as [Hp|[_ Hp]]; [by eapply H1|].
    apply list_lookup_singleton_Some in Hp as [_ <-]. rewrite Hs in Hst. by destruct Hst.
  - eapply enqueue_wellLinked; [done| |].
    + exists eb0. simpl. by rewrite lookup_app_r, Nat.sub_diag.
    + eapply queuesOK_mono; [|exact H2]. intros p eb Hp. exists eb.
      by rewrite lookup_app_l; [|by eapply lookup_lt_Some].
Qed.

Lemma calm_enqueue_rest p (head : bool) :
  steps calm
    (missingCollections <-
       wrap "cannot send collection requests: " (matchAndFindMissingCollections p) ;;
     (if head then executeBlockIfComplete p else ret false) ;;
     ret missingCollections).
Proof.
  repeat steps_step; first [apply calm_matchAndFindMissingCollections | apply calm_launch].
Qed.

Lemma Ordered_afterEnqueue parent q id p head s eb :
  Ordered s → heap s !! p = Some eb →
  (isFound parent → committed s (entity.ParentID eb)) →
  wp (afterEnqueue parent q id p head) (fun _ => Ordered) Ordered s.
Proof.
  intros Ho Hp Hc. unfold afterEnqueue. apply wp_bind.
  assert (∀ s1, Ordered s1 →
                wp (missingCollections <-
                      wrap "cannot send collection requests: "
                        (matchAndFindMissingCollections p) ;;
                    (if head then executeBlockIfComplete p else ret false) ;;
                    ret missingCollections) (fun _ => Ordered) Ordered s1) as Hrest.
  { intros s1 H1. eapply wp_mono; [apply (calm_enqueue_rest p head)| |]; simpl;
      intros; by eapply Ordered_calm. }
  destruct parent as [c| |].
  - apply wp_mutate. intros eb' Hp'. simplify_eq. apply Hrest.
    apply Ordered_mutate_start; [done..|]. apply Hc. by eexists.
  - destruct (queue.Nodes q id).
    + apply wp_ret. by apply Hrest.
    + apply wp_modify. apply Hrest. eapply Ordered_calm; [done|]. by apply calm_same.
  - apply wp_fatal.
Qed.

Lemma Ordered_enqueueBlockAndCheckExecutable block s :
  Ordered s → wp (enqueueBlockAndCheckExecutable block) (fun _ => Ordered) Ordered s.
Proof.
  intros Ho.
  set (eb0 := entity.mkExecutable block None ∅ false).
  destruct (enqueue (blockify (length (heap s)) eb0) (executionQueues s))
    as [[[qs' q] added] head] eqn:He.
  destruct added.
  - eapply wp_eq; [by apply enqueueBlockAndCheckExecutable_added|].
    eapply Ordered_afterEnqueue.
    + by eapply Ordered_alloc.
    + simpl. by rewrite lookup_app_r, Nat.sub_diag.
    + intros Hf. exact Hf.
  - unfold wp. by rewrite (enqueueBlockAndCheckExecutable_known _ _ _ _ _ He).
Qed.

Section OrderedEnv.
Variable env : Env.

Lemma Ordered_addOrFetch b h gs : steps (keeps Ordered) (addOrFetch env b h gs).
Proof. apply Ordered_steps_calm, calm_addOrFetch. Qed.

Lemma wp_keeps {A} (I : Engine → Prop) (m : M A) s :
  steps (keeps I) m → I s → wp m (fun _ => I) I s.
Proof. intros Hm Hi. eapply wp_mono; [apply Hm| |]; simpl; intros; auto. Qed.

Lemma Ordered_handleBlock block s :
  Ordered s → wp (handleBlock env block) (fun _ => Ordered) Ordered s.
Proof.
  intros Ho. unfold handleBlock. apply wp_bind, wp_get.
  destruct (IsBlockExecuted (execState s) (flow.BlockID block)) as [[]|]; [done| |done].
  apply wp_bind, wp_wrap.
  eapply wp_mono; [by apply Ordered_enqueueBlockAndCheckExecutable| |done].
  intros missing s1 H1. simpl. by apply wp_keeps; [apply Ordered_addOrFetch|].
Qed.

Lemma Ordered_OnCollection c s :
  Ordered s → wp (OnCollection env c) (fun _ => Ordered) Ordered s.
Proof. intros Ho. by apply wp_keeps; [apply Ordered_steps_calm, calm_OnCollection|]. Qed.

End OrderedEnv.

(** ** Promotion of the children *)

Global Instance settled_preorder : PreOrder settled.
Proof.
  split.
  - intros s. split; [done|]. intros p eb ?. by exists eb.
  - intros a b c [E1 H1] [E2 H2]. split; [congruence|].
    intros p eb Hp. destruct (H1 _ _ Hp) as (eb'&Hp'&?).
    destruct (H2 _ _ Hp') as (eb''&?&?). exists eb''. split; [done|congruence].
Qed.

Lemma settled_calm s s' : calm s s' → settled s s'.
Proof.
  intros (_&He&_&Hh). split; [done|]. intros p eb Hp.
  destruct (Hh _ _ Hp) as (eb'&?&?&_). eauto.
Qed.

Lemma settled_mutate s p eb f :
  heap s !! p = Some eb → entity.Block (f eb) = entity.Block eb →
  settled s (setHeap (<[p := f eb]> (heap s)) s).
Proof.
  intros Hp Hb. split; [done|]. intros q eb' Hq. simpl.
  destruct (decide (p = q)) as [->|NE].
  - rewrite list_lookup_insert_eq; [|by eapply lookup_lt_Some]. simplify_eq. by eexists.
  - rewrite list_lookup_insert_ne; [|done]. by eexists.
Qed.

Lemma promotable_settled s s' q : settled s s' → promotable s q → promotable s' q.
Proof.
  intros [He Hh] [Hw Hc]. split; [by eapply wellLinked_mono|].
  unfold committed. by rewrite He.
Qed.

Lemma wellLinked_agrees h n : wellLinked h n → agrees h (queue.item n).
Proof. destruct n as [i cs]. rewrite wellLinked_unfold. by intros [? _]. Qed.

Lemma Ordered_requeueLoop finalState qs : ∀ acc s,
  Ordered s → Forall (promotable s) qs →
  wp (requeueLoop finalState qs acc) (fun _ => Ordered) Ordered s.
Proof.
  induction qs as [|q qs IH]; intros acc s Ho Hqs; simpl; [done|].
  apply Forall_cons in Hqs as [[Hw Hc] Hqs].
  apply wp_bind, wp_get.
  destruct (stdmap.QAdd (queue.QueueID q) q (executionQueues s)) as [queues added] eqn:Hq.
  destruct added; simpl; [|done].
  apply wp_bind, wp_modify.
  set (s1 := setQueues queues s).
  assert (Ordered s1) as Ho1.
  { destruct Ho as [H1 H2]. split; [done|]. simpl. by eapply QAdd_OK. }
  destruct (wellLinked_agrees _ _ Hw) as (eb&Hp&Hid&Hpar).
  apply wp_bind, wp_mutate. intros eb' Hp'. simpl in Hp'. simplify_eq.
  set (s2 := setHeap _ s1).
  assert (Ordered s2) as Ho2.
  { apply Ordered_mutate_start; [done|done|]. by rewrite Hpar. }
  assert (settled s s2) as Hs2.
  { by apply (settled_mutate s1 _ eb (entity.withStartState (Some finalState))). }
  apply wp_bind, wp_try.
  eapply wp_mono; [apply calm_matchAndFindMissingCollections| |]; simpl.
  - intros missing s3 Hc3. apply wp_bind.
    eapply wp_mono; [apply calm_launch| |]; simpl;
      [|intros s4 Hc4; eapply Ordered_calm; [exact Ho2|by etrans]].
    intros b s4 Hc4.
    assert (calm s2 s4) as Hc24 by (by etrans).
    apply IH; [by eapply Ordered_calm|].
    eapply Forall_impl; [exact Hqs|]. intros q'. apply promotable_settled.
    etrans; [exact Hs2|]. by apply settled_calm.
  - intros s3 Hc3 e. by eapply Ordered_calm.
Qed.

Lemma QByID_elem id qs q : stdmap.QByID id qs = Some q → (id, q) ∈ qs.
Proof.
  unfold stdmap.QByID. destruct (List.find _ qs) as [[k q']|] eqn:Hf; [|done].
  simpl. intros [= ->]. apply find_some in Hf as [Hin Hk].
  apply bool_decide_eq_true in Hk. simpl in Hk. subst. by apply list_elem_of_In.
Qed.

Lemma QRemove_elem id qs k q : (k, q) ∈ stdmap.QRemove id qs → (k, q) ∈ qs.
Proof.
  unfold stdmap.QRemove. rewrite !list_elem_of_In. intros Hin.
  by apply filter_In in Hin as [? _].
Qed.

Lemma Ordered_requeueChildren executed finalState s eb :
  Ordered s → heap s !! executed = Some eb → committed s (entity.ID eb) →
  wp (requeueChildren executed finalState) (fun _ => Ordered) Ordered s.
Proof.
  intros Ho Hp Hc. unfold requeueChildren.
  apply wp_bind, wp_load. intros eb' Hp'. simplify_eq.
  apply wp_bind, wp_get.
  destruct (stdmap.QByID (entity.ID eb) (executionQueues s)) as [q|] eqn:Hq; [|done].
  simpl. apply wp_bind.
  destruct (proj2 Ho _ _ (QByID_elem _ _ _ Hq)) as [Hk Hw].
  destruct (queue.Head q) as [i cs] eqn:Hh. simpl.
  apply wellLinked_unfold in Hw as [Ha Hcs].
  eapply wp_mono; [apply Ordered_requeueLoop; [done|]| |done].
  - apply Forall_fmap. eapply Forall_impl; [exact Hcs|].
    intros c [Hpar Hwc]. split; [done|]. simpl. rewrite Hpar.
    unfold queue.QueueID in Hk. rewrite Hh in Hk. simpl in Hk. by rewrite Hk.
  - intros [acc [e|]] s1 H1; simpl; [done|].
    apply wp_bind, wp_modify. apply wp_ret.
    destruct H1 as [HA HB]. split; [done|]. simpl.
    intros k' q' Hin. apply HB. by eapply QRemove_elem.
Qed.

Section OrderedExec.
Variable env : Env.

Lemma Ordered_onBlockExecuted executed finalState s eb :
  Ordered s → heap s !! executed = Some eb → committed s (entity.ID eb) →
  wp (onBlockExecuted env executed finalState) (fun _ => Ordered) Ordered s.
Proof.
  intros Ho Hp Hc. unfold onBlockExecuted. apply wp_bind.
  eapply wp_mono; [by eapply Ordered_requeueChildren| |done].
  intros r s1 H1. simpl. apply wp_bind.
  assert (wp (match r.2 with
              | Some e => logError ("error while requeueing blocks after execution: " +:+ e)
              | None => ret ()
              end) (fun _ => Ordered) Ordered s1) as Hlog.
  { destruct (r.2); [|done]. apply wp_modify. eapply Ordered_calm; [done|]. by apply calm_same. }
  eapply wp_mono; [exact Hlog| |done].
  intros ? s2 H2. simpl in *.
  by apply wp_keeps; [apply Ordered_steps_calm, calm_addOrFetchAll|].
Qed.

Lemma Ordered_save s h b r :
  Ordered s → Ordered (setExecState (SaveExecutionResults h b r (execState s)) s).
Proof.
  intros [H1 H2]. split; [|done]. intros p eb Hp Hs. simpl.
  unfold committed. simpl. apply isFound_override. by eapply H1.
Qed.

Lemma Ordered_executeBlock p s :
  Ordered s → wp (executeBlock env p) (fun _ => Ordered) Ordered s.
Proof.
  intros Ho. unfold executeBlock.
  apply wp_bind, wp_load. intros eb Hp. apply wp_bind, wp_get.
  assert (∀ msg, wp (logError msg) (fun _ => Ordered) Ordered s) as Hlog.
  { intros msg. apply wp_modify. eapply Ordered_calm; [done|]. by apply calm_same. }
  destruct (resultIDs (execState s) (entity.ParentID eb)) as [parentErID| |]; [|done..].
  destruct (entity.StartState eb); [|done].
  destruct (computeBlock env parentErID eb) as [result|]; [|done].
  destruct (saveOutcome env (entity.ID eb) result); [|done|done].
  apply wp_bind, wp_modify.
  set (s1 := setExecState _ s).
  assert (Ordered s1) as Ho1 by (by apply Ordered_save).
  assert (committed s1 (entity.ID eb)) as Hc1.
  { unfold committed, s1. simpl. unfold override. rewrite decide_True; [by eexists|done]. }
  destruct (sealedHead env) as [lastSealed|]; [|done].
  apply wp_bind.
  assert (wp (if (entity.Height eb <=? flow.Height lastSealed)%N
              then ret ()
              else match checkAuthorizedAtBlock env (entity.ID eb) with
                   | Some true =>
                       if broadcastReceipt env (entity.ID eb)
                       then modify (fun s => setBroadcasted
                                      (broadcasted s ++ [entity.ID eb]) s)
                       else logError "critical: failed to broadcast the receipt"
                   | Some false => ret ()
                   | None => fatal "could not check staking status"
                   end)
            (fun _ s2 => Ordered s2 ∧ calm s1 s2) (fun _ => False) s1) as Hb.
  { repeat case_match; try done.
    - split; [|by apply calm_same]. eapply Ordered_calm; [done|]. by apply calm_same.
    - split; [|by apply calm_same]. eapply Ordered_calm; [done|]. by apply calm_same. }
  eapply wp_mono; [exact Hb| |done].
  intros ? s2 [Ho2 Hc2]. simpl.
  destruct (proj2 (proj2 (proj2 Hc2)) p eb Hp) as (eb2&Hp2&Hb2&_).
  apply wp_bind, wp_try.
  eapply wp_mono; [eapply Ordered_onBlockExecuted; [done|exact Hp2|]| |].
  - unfold entity.ID. rewrite Hb2. by eapply committed_calm.
  - intros ? s3 H3. done.
  - intros s3 H3 e. simpl. apply wp_modify. eapply Ordered_calm; [done|]. by apply calm_same.
Qed.

Lemma Ordered_reloadBlock blockID s :
  Ordered s → wp (reloadBlock env blockID) (fun _ => Ordered) Ordered s.
Proof.
  intros Ho. unfold reloadBlock. destruct (blocksByID env blockID) as [block|]; [|done].
  apply wp_bind, wp_wrap.
  eapply wp_mono; [by apply Ordered_enqueueBlockAndCheckExecutable| |done].
  intros missing s1 H1. simpl. apply wp_wrap. apply wp_keeps; [|done].
  apply Ordered_steps_calm, calm_fetchAndHandleCollection. intros c.
  repeat steps_step. apply calm_addCollectionToMempool.
Qed.

Lemma Ordered_reloadAll l : ∀ s,
  Ordered s → wp (reloadAll env l) (fun _ => Ordered) Ordered s.
Proof.
  induction l as [|x l IH]; intros s Ho; simpl; [done|].
  apply wp_bind, wp_wrap. eapply wp_mono; [by apply Ordered_reloadBlock| |done].
  intros ? s1 H1. by apply IH.
Qed.

Lemma same_lastExecutedFrom n r l : steps eq (lastExecutedFrom env n r l).
Proof. revert l. induction n as [|n IH]; intros l; simpl; repeat steps_step; done. Qed.

Lemma same_headersFrom n f h : steps eq (headersFrom env n f h).
Proof. revert h. induction n as [|n IH]; intros h; simpl; repeat steps_step; done. Qed.

Lemma same_pendingLoop l : steps eq (pendingLoop l).
Proof. induction l as [|x l IH]; simpl; repeat steps_step; done. Qed.

Lemma same_unexecutedBlocks : steps eq (unexecutedBlocks env).
Proof.
  unfold unexecutedBlocks, finalizedUnexecutedBlocks, pendingUnexecutedBlocks.
  repeat steps_step;
    first [apply same_lastExecutedFrom | apply same_headersFrom | apply same_pendingLoop].
Qed.

Lemma Ordered_reloadLastExecuted s :
  Ordered s → wp (reloadLastExecuted env) (fun _ => Ordered) Ordered s.
Proof.
  intros Ho. unfold reloadLastExecuted. apply wp_bind, wp_get.
  repeat case_match; try done. by apply wp_wrap, Ordered_reloadBlock.
Qed.

Lemma Ordered_reloadUnexecutedBlocks s :
  Ordered s → wp (reloadUnexecutedBlocks env) (fun _ => Ordered) Ordered s.
Proof.
  intros Ho. unfold reloadUnexecutedBlocks. apply wp_bind.
  eapply wp_mono; [by apply Ordered_reloadLastExecuted| |done].
  intros ? s1 H1. simpl in *. apply wp_bind, wp_wrap.
  eapply wp_mono; [apply same_unexecutedBlocks| |]; simpl; [|by intros ? <-].
  intros r s2 <-. by apply Ordered_reloadAll.
Qed.

Lemma Ordered_handle ev s :
  Ordered s → wp (handle env ev) (fun _ => Ordered) Ordered s.
Proof.
  intros Ho. destruct ev; simpl.
  - by apply Ordered_handleBlock.
  - by apply Ordered_OnCollection.
  - by apply Ordered_executeBlock.
  - by apply Ordered_reloadUnexecutedBlocks.
Qed.

Lemma Ordered_initial s : initial s → Ordered s.
Proof.
  intros (Hh&Hq&_&_). split.
  - intros p eb. by rewrite Hh.
  - intros k q. rewrite Hq. by intros ?%elem_of_nil.
Qed.

Lemma reachable_Ordered s : reachable env s → Ordered s.
Proof.
  induction 1 as [s Hi|s ev s' _ IH _ Hs]; [by apply Ordered_initial|].
  pose proof (Ordered_handle ev s IH) as Hwp. unfold wp in Hwp.
  destruct (handle env ev s); simpl in Hs; by simplify_eq.
Qed.

End OrderedExec.

(** * Promotion of the children, in full *)

Global Instance onlyAt_preorder p : PreOrder (onlyAt p).
Proof.
  split; [by intros s q|]. intros a b c H1 H2 q Hq. by rewrite H2, H1.
Qed.

Lemma onlyAt_mutate p f s eb :
  heap s !! p = Some eb → onlyAt p s (setHeap (<[p := f eb]> (heap s)) s).
Proof. intros _ q Hq. simpl. by rewrite list_lookup_insert_ne. Qed.

Local Ltac only_leaf :=
  lazymatch goal with
  | |- steps _ (modify _) => apply steps_modify; intros; repeat case_match; by intros ??
  | |- steps _ (mutate _ _) => apply steps_mutate; intros; by eapply onlyAt_mutate
  | _ => idtac
  end.

Lemma onlyAt_launch p : steps (onlyAt p) (executeBlockIfComplete p).
Proof. unfold executeBlockIfComplete. repeat steps_step; only_leaf. Qed.

Lemma onlyAt_matchLoop p gs acc : steps (onlyAt p) (matchLoop p gs acc).
Proof.
  revert acc. induction gs as [|g gs IH]; intros acc; simpl; repeat steps_step; only_leaf;
    apply IH.
Qed.

Lemma onlyAt_matchAndFindMissingCollections p :
  steps (onlyAt p) (matchAndFindMissingCollections p).
Proof.
  unfold matchAndFindMissingCollections. repeat steps_step. apply onlyAt_matchLoop.
Qed.

Lemma promoted_other endState p q s s' :
  q ≠ p → onlyAt p s s' → indexKept s s' → promoted endState q s → promoted endState q s'.
Proof.
  intros Hne Ho [_ Hk] (eb&Hq&Hs&Hg&Hx). exists eb. rewrite Ho; [|done].
  split_and!; [done..| |done]. intros g Hin. destruct (Hg g Hin). split; [done|]. by apply Hk.
Qed.

(** One round of the loop: the start state, the matching, the launch. *)
Lemma promote_spec endState p s :
  is_Some (heap s !! p) →
  ∃ s1 s2 s' missing b,
    mutate p (entity.withStartState (Some endState)) s = Ok s1 tt ∧
    matchAndFindMissingCollections p s1 = Ok s2 missing ∧
    executeBlockIfComplete p s2 = Ok s' b ∧
    promoted endState p s' ∧
    onlyAt p s s' ∧ indexKept s s' ∧ executionQueues s' = executionQueues s.
Proof.
  intros [eb Hp]. rewrite (mutate_Ok _ _ _ _ Hp).
  set (eb1 := entity.withStartState (Some endState) eb).
  set (s1 := setHeap (<[p := eb1]> (heap s)) s).
  assert (heap s1 !! p = Some eb1) as Hp1.
  { simpl. apply list_lookup_insert_eq. by eapply lookup_lt_Some. }
  assert (onlyAt p s s1) as Ho1 by (by eapply onlyAt_mutate).
  destruct (matchLoop_spec p (flow.Guarantees (entity.Block eb1)) [] s1 eb1 Hp1)
    as (s2&new&eb2&Hr&Hnew&Hp2&Hb&Hst&Hk&Hgs&Hw&Hwg&Hc&Hq).
  simpl app in Hr.
  assert (matchAndFindMissingCollections p s1 = Ok s2 new) as Hm.
  { unfold matchAndFindMissingCollections.
    by rewrite (bind_Ok _ _ _ _ _ (load_Ok _ _ _ Hp1)). }
  exists s1, s2.
  pose proof (steps_Ok _ _ _ _ _ (onlyAt_matchLoop p _ _) Hr) as Ho2.
  pose proof (steps_Ok _ _ _ _ _ (indexKept_matchLoop p _ _) Hr) as Hi2.
  pose proof (steps_Ok _ _ _ _ _ (gen_matchLoop sameQueues
                (fun s s' Hh Hl He Hq => conj Hq He)
                (fun s p eb k c Hp => conj eq_refl eq_refl) p _ _) Hr) as [Hq2 _].
  assert (∀ g, g ∈ flow.Guarantees (entity.Block eb2) →
               unfilled eb2 (flow.GuaranteeID g) ∧
               is_Some (blockByCollection s2 !! flow.GuaranteeID g)) as Hg2.
  { intros g. rewrite Hb. intros Hin. split; [by apply Hgs|].
    destruct (Hwg g Hin) as (e&He&_). by eexists. }
  pose proof (executeBlockIfComplete_eq _ _ _ Hp2) as Hx0.
  assert (indexKept s s2) as Hi.
  { etrans; [|exact Hi2]. by apply indexKept_same. }
  destruct (entity.Executing eb2) eqn:Hx; [|destruct (entity.IsComplete eb2) eqn:Hcm];
    rewrite Hx0.
  - eexists _, _, _. split_and!; [done..| |by etrans|done|done].
    exists eb2. split_and!; [done|by rewrite Hst|done|by left].
  - eexists _, _, _. split_and!; [done..| | | |].
    + eexists. simpl. rewrite list_lookup_insert_eq; [|by eapply lookup_lt_Some].
      split_and!; [done|simpl; by rewrite Hst|done|by left].
    + etrans; [done|]. etrans; [done|]. intros q Hne. simpl.
      by rewrite list_lookup_insert_ne.
    + done.
    + done.
  - eexists _, _, _. split_and!; [done..| |by etrans|done|done].
    exists eb2. split_and!; [done|by rewrite Hst|done|by right].
Qed.

Lemma QByID_app k l l' :
  stdmap.QByID k (l ++ l') =
    match stdmap.QByID k l with Some q => Some q | None => stdmap.QByID k l' end.
Proof.
  unfold stdmap.QByID. induction l as [|[k0 q0] l IH]; simpl; [by destruct (List.find _ l')|].
  case_bool_decide; simpl; [done|exact IH].
Qed.

Lemma QByID_QRemove k l : stdmap.QByID k (stdmap.QRemove k l) = None.
Proof.
  unfold stdmap.QByID, stdmap.QRemove. induction l as [|[k0 q0] l IH]; simpl; [done|].
  case_bool_decide as Hk; simpl; [exact IH|]. by rewrite bool_decide_false.
Qed.

Lemma QByID_QRemove_ne k k' l :
  k' ≠ k → stdmap.QByID k' (stdmap.QRemove k l) = stdmap.QByID k' l.
Proof.
  intros Hne. unfold stdmap.QByID, stdmap.QRemove.
  induction l as [|[k0 q0] l IH]; simpl; [done|].
  repeat (case_bool_decide; simpl; simplify_eq); congruence.
Qed.

Lemma try_Ok {A} (m : M A) s s' a : m s = Ok s' a → try m s = Ok s' (inl a).
Proof. intros H. unfold try. by rewrite H. Qed.

Lemma requeueLoop_round endState c rest acc s s1 s2 s' missing b :
  stdmap.QByID (childKey c) (executionQueues s) = None →
  mutate (childPtr c) (entity.withStartState (Some endState))
    (setQueues (executionQueues s ++ [childEntry c]) s) = Ok s1 tt →
  matchAndFindMissingCollections (childPtr c) s1 = Ok s2 missing →
  executeBlockIfComplete (childPtr c) s2 = Ok s' b →
  requeueLoop endState (queue.mkQueue c :: rest) acc s =
    requeueLoop endState rest
      (match missing with [] => acc | _ => appendAt (childPtr c) missing acc end) s'.
Proof.
  intros Hq H1 H2 H3. simpl requeueLoop.
  rewrite (bind_Ok get _ s s s eq_refl).
  unfold stdmap.QAdd. change (queue.QueueID (queue.mkQueue c)) with (childKey c).
  rewrite Hq. change (negb true) with false. cbv iota.
  rewrite (bind_Ok (modify _) _ s _ tt eq_refl).
  change (queue.Item (queue.item c)) with (childPtr c).
  change (setQueues (executionQueues s ++ [(childKey c, queue.mkQueue c)]) s)
    with (setQueues (executionQueues s ++ [childEntry c]) s).
  rewrite (bind_Ok _ _ _ _ _ H1).
  rewrite (bind_Ok _ _ _ _ _ (try_Ok _ _ _ _ H2)).
  by rewrite (bind_Ok _ _ _ _ _ H3).
Qed.

Lemma requeueLoop_spec endState cs : ∀ acc s,
  NoDup (childKey <$> cs) →
  (∀ c, c ∈ cs → stdmap.QByID (childKey c) (executionQueues s) = None) →
  (∀ c, c ∈ cs → is_Some (heap s !! childPtr c)) →
  ∃ s' acc',
    requeueLoop endState (queue.mkQueue <$> cs) acc s = Ok s' (acc', None) ∧
    executionQueues s' = executionQueues s ++ (childEntry <$> cs) ∧
    (∀ c, c ∈ cs → promoted endState (childPtr c) s') ∧
    (∀ p, promoted endState p s → promoted endState p s') ∧
    (∀ q, is_Some (heap s !! q) → is_Some (heap s' !! q)) ∧
    indexKept s s'.
Proof.
  induction cs as [|c cs IH]; intros acc s Hnd Hfresh Hlive.
  - exists s, acc. rewrite app_nil_r. split_and!; try done. by intros c ?%elem_of_nil.
  - apply NoDup_cons in Hnd as [Hc Hnd].
    set (s0 := setQueues (executionQueues s ++ [childEntry c]) s).
    destruct (promote_spec endState (childPtr c) s0)
      as (sa&sb&s1&missing&b&Ha&Hb&Hp&Hpr&Ho&Hi&Hq1).
    { apply Hlive, list_elem_of_here. }
    assert (∀ q, is_Some (heap s !! q) → is_Some (heap s1 !! q)) as Hl1.
    { intros q Hq. destruct (decide (q = childPtr c)) as [->|Hne].
      - destruct Hpr as (eb&?&_). by eexists.
      - by rewrite (Ho q Hne). }
    assert (∀ p, promoted endState p s → promoted endState p s1) as Hst1.
    { intros p Hpp. destruct (decide (p = childPtr c)) as [->|Hne]; [done|].
      by eapply (promoted_other _ _ _ s0). }
    destruct (IH (match missing with [] => acc | _ => appendAt (childPtr c) missing acc end) s1)
      as (s'&acc'&Hr&Hq'&Hcs&Hst&Hl&Hi').
    + done.
    + intros c' Hc'. rewrite Hq1. simpl. rewrite QByID_app.
      rewrite (Hfresh c'); [|by apply list_elem_of_further].
      unfold stdmap.QByID. simpl. rewrite bool_decide_false; [done|].
      simpl. intros E. apply Hc. rewrite E. by apply list_elem_of_fmap_2.
    + intros c' Hc'. apply Hl1, Hlive. by apply list_elem_of_further.
    + exists s', acc'. split_and!.
      * rewrite fmap_cons.
        rewrite (requeueLoop_round _ _ _ _ _ _ _ _ _ _
                   (Hfresh c (list_elem_of_here _ _)) Ha Hb Hp).
        exact Hr.
      * rewrite Hq', Hq1. simpl. by rewrite <-app_assoc.
      * intros c' [->|Hc']%elem_of_cons; [by apply Hst|by apply Hcs].
      * intros p Hpp. by apply Hst, Hst1.
      * intros q Hq. by apply Hl, Hl1.
      * etrans; [|exact Hi']. etrans; [|exact Hi]. by apply indexKept_same.
Qed.

Lemma QByID_children c cs :
  NoDup (childKey <$> cs) → c ∈ cs →
  stdmap.QByID (childKey c) (childEntry <$> cs) = Some (queue.mkQueue c).
Proof.
  unfold stdmap.QByID. induction cs as [|c0 cs IH]; intros Hnd Hc.
  - by apply elem_of_nil in Hc.
  - rewrite fmap_cons in Hnd. apply NoDup_cons in Hnd as [Hc0 Hnd]. simpl.
    apply elem_of_cons in Hc as [->|Hc].
    + by rewrite bool_decide_true.
    + rewrite bool_decide_false; [by apply IH|].
      intros E. apply Hc0. rewrite E. by apply list_elem_of_fmap_2.
Qed.

Lemma map_fmap {A B} (f : A → B) l : List.map f l = f <$> l.
Proof. induction l as [|a l IH]; simpl; [done|by rewrite IH]. Qed.

Lemma promoted_queues endState p f s :
  promoted endState p s → promoted endState p (setQueues f s).
Proof. done. Qed.

(** The critical section of [onBlockExecuted] on a queue with fresh
    children. *)
Lemma requeueChildren_spec executed endState s eb q :
  heap s !! executed = Some eb →
  stdmap.QByID (entity.ID eb) (executionQueues s) = Some q →
  NoDup (childKey <$> queue.children (queue.Head q)) →
  (∀ c, c ∈ queue.children (queue.Head q) →
        stdmap.QByID (childKey c) (executionQueues s) = None) →
  (∀ c, c ∈ queue.children (queue.Head q) → is_Some (heap s !! childPtr c)) →
  ∃ s1 missing,
    requeueChildren executed endState s = Ok s1 (missing, None) ∧
    executionQueues s1 =
      stdmap.QRemove (entity.ID eb)
        (executionQueues s ++ (childEntry <$> queue.children (queue.Head q))) ∧
    (∀ c, c ∈ queue.children (queue.Head q) → promoted endState (childPtr c) s1).
Proof.
  intros Hp Hq Hnd Hfresh Hlive.
  destruct (requeueLoop_spec endState (queue.children (queue.Head q)) [] s Hnd Hfresh Hlive)
    as (s'&acc'&Hr&Hq'&Hcs&_).
  exists (setQueues (stdmap.QRemove (entity.ID eb) (executionQueues s')) s'), acc'.
  split_and!.
  - unfold requeueChildren.
    rewrite (bind_Ok _ _ _ _ _ (load_Ok _ _ _ Hp)).
    rewrite (bind_Ok get _ s s s eq_refl). rewrite Hq.
    unfold queue.Dismount. rewrite map_fmap.
    rewrite (bind_Ok _ _ _ _ _ Hr). simpl.
    by rewrite (bind_Ok (modify _) _ s' _ tt eq_refl).
  - simpl. by rewrite Hq'.
  - intros c Hc. by apply promoted_queues, Hcs.
Qed.

(** The promotion where the queues hold no block twice.  [onBlockExecuted]
    on a block [eb] that heads a queue, whose children are distinct, held by
    live pointers and not themselves keys of the queue set: the critical
    section returns without error; the queue set it leaves is the old one
    with one queue per child added, each headed by that child, and the entry
    of [eb] removed; every child has [endState] as start state, its
    guarantees matched again and its execution tried.  The requests for
    collections that follow change neither the queues nor a start state. *)
Lemma onBlockExecuted_promotes_children env executed endState s eb q :
  heap s !! executed = Some eb →
  stdmap.QByID (entity.ID eb) (executionQueues s) = Some q →
  NoDup (childKey <$> queue.children (queue.Head q)) →
  (∀ c, c ∈ queue.children (queue.Head q) →
        stdmap.QByID (childKey c) (executionQueues s) = None) →
  (∀ c, c ∈ queue.children (queue.Head q) → is_Some (heap s !! childPtr c)) →
  ∃ s1 missing,
    requeueChildren executed endState s = Ok s1 (missing, None) ∧
    executionQueues s1 =
      stdmap.QRemove (entity.ID eb)
        (executionQueues s ++ (childEntry <$> queue.children (queue.Head q))) ∧
    stdmap.QByID (entity.ID eb) (executionQueues s1) = None ∧
    (∀ c, c ∈ queue.children (queue.Head q) →
          stdmap.QByID (childKey c) (executionQueues s1) = Some (queue.mkQueue c) ∧
          promoted endState (childPtr c) s1) ∧
    (∀ s', stateOf (onBlockExecuted env executed endState s) = Some s' →
           executionQueues s' = executionQueues s1 ∧
           ∀ c, c ∈ queue.children (queue.Head q) →
                ∃ eb', heap s' !! childPtr c = Some eb' ∧
                       entity.StartState eb' = Some endState).
Proof.
  intros Hp Hq Hnd Hfresh Hlive.
  destruct (requeueChildren_spec executed endState s eb q Hp Hq Hnd Hfresh Hlive)
    as (s1&missing&Hr&Hq1&Hcs).
  exists s1, missing. split_and!; [done|done| | |].
  - rewrite Hq1. apply QByID_QRemove.
  - intros c Hc. split; [|by apply Hcs].
    rewrite Hq1, QByID_QRemove_ne, QByID_app, (Hfresh c Hc).
    + by apply QByID_children.
    + intros E. specialize (Hfresh c Hc). rewrite E, Hq in Hfresh. done.
  - intros s' Hs'. unfold onBlockExecuted in Hs'.
    rewrite (bind_Ok _ _ _ _ _ Hr) in Hs'. simpl in Hs'.
    rewrite (bind_Ok (ret tt) _ s1 s1 tt eq_refl) in Hs'.
    eapply (steps_stateOf calm) in Hs'; [|apply calm_addOrFetchAll].
    destruct Hs' as (Hqs&_&_&Hh). split; [done|].
    intros c Hc. destruct (Hcs c Hc) as (eb1&H1&Hst&_).
    destruct (Hh _ _ H1) as (eb'&?&_&Hst'). exists eb'. split; [done|].
    by rewrite Hst'.
Qed.

(** * Who writes the execution state *)

Global Instance sameExec_preorder : PreOrder sameExec.
Proof. split; [by intros s|]. intros a b c H1 H2. unfold sameExec in *. congruence. Qed.

Lemma sameExec_launch p : steps sameExec (executeBlockIfComplete p).
Proof. eapply steps_weaken; [|apply calm_launch]. by intros s s' (_&?&_). Qed.

Section SameExec.
Variable env : Env.

Local Ltac inst := first [ apply _ | by intros | apply sameExec_launch ].

Lemma sameExec_handleBlock b : steps sameExec (handleBlock env b).
Proof. apply gen_handleBlock; inst. Qed.

Lemma sameExec_OnCollection c : steps sameExec (OnCollection env c).
Proof. apply gen_OnCollection; inst. Qed.

Lemma sameExec_onBlockExecuted p c : steps sameExec (onBlockExecuted env p c).
Proof. apply gen_onBlockExecuted; inst. Qed.

Lemma sameExec_reloadUnexecutedBlocks : steps sameExec (reloadUnexecutedBlocks env).
Proof. apply gen_reloadUnexecutedBlocks; inst. Qed.

Lemma savesOnly_executeBlock p s :
  wp (executeBlock env p) (fun _ => savesOnly env p s) (savesOnly env p s) s.
Proof.
  unfold executeBlock.
  apply wp_bind, wp_load. intros eb Hp. apply wp_bind, wp_get.
  destruct (resultIDs (execState s) (entity.ParentID eb)) as [parentErID| |] eqn:Hr;
    [|by left..].
  destruct (entity.StartState eb); [|done].
  destruct (computeBlock env parentErID eb) as [result|] eqn:Hc; [|by left].
  destruct (saveOutcome env (entity.ID eb) result) eqn:Hs; [|done|by left].
  apply wp_bind, wp_modify.
  set (s1 := setExecState _ s).
  assert (∀ s2, sameExec s1 s2 → savesOnly env p s s2) as Hs1.
  { intros s2 H2. right. exists eb, parentErID, result. split_and!; [done..|].
    by rewrite H2. }
  match goal with |- wp ?m _ _ _ => assert (steps sameExec m) as Hm end.
  { repeat steps_step;
      first [ apply steps_modify; by intros | apply sameExec_onBlockExecuted ]. }
  eapply wp_mono; [apply Hm| |]; simpl; eauto.
Qed.

(** A step that persists the result of a block is the execution of that
    block, past its three points of failure. *)
Lemma commit_step ev s s' id :
  stateOf (handle env ev s) = Some s' → ¬ committed s id → committed s' id →
  ∃ p eb parentErID result,
    ev = EvExecute p ∧ heap s !! p = Some eb ∧ entity.ID eb = id ∧
    resultIDs (execState s) (entity.ParentID eb) = Found parentErID ∧
    computeBlock env parentErID eb = Some result ∧
    saveOutcome env (entity.ID eb) result = SaveOk.
Proof.
  intros Hs Hn Hc.
  assert (sameExec s s' → False) as Hsame.
  { intros E. apply Hn. unfold committed in *. by rewrite <-E. }
  destruct ev as [b|c|p|]; simpl in Hs.
  - destruct Hsame. by apply (steps_stateOf _ _ _ _ (sameExec_handleBlock b) Hs).
  - destruct Hsame. by apply (steps_stateOf _ _ _ _ (sameExec_OnCollection c) Hs).
  - pose proof (savesOnly_executeBlock p s) as Hwp. unfold wp in Hwp.
    assert (savesOnly env p s s') as [E|(eb&pe&r&Hp&Hr&Hcb&Hso&E)].
    { destruct (executeBlock env p s); simpl in Hs; by simplify_eq. }
    { by destruct Hsame. }
    exists p, eb, pe, r. split_and!; try done.
    destruct (decide (entity.ID eb = id)) as [|Hne]; [done|].
    destruct Hn. unfold committed in *. rewrite E in Hc. simpl in Hc.
    unfold override in Hc. by rewrite decide_False in Hc.
  - destruct Hsame. by apply (steps_stateOf _ _ _ _ sameExec_reloadUnexecutedBlocks Hs).
Qed.

End SameExec.

(** * Parent before child *)

Lemma reachable_runEnabled env evs : ∀ s s',
  reachable env s → runEnabled env evs s = Some s' → reachable env s'.
Proof.
  induction evs as [|ev evs IH]; intros s s' Hr; simpl; [by intros [= <-]|].
  destruct (match ev with EvExecute p => bool_decide (p ∈ launched s) | _ => true end)
    eqn:Hen; [|done].
  destruct (stateOf (handle env ev s)) as [s1|] eqn:Hs; [|done].
  apply IH. eapply reach_step; [done| |done].
  destruct ev; simpl; try done. by apply bool_decide_eq_true in Hen.
Qed.

(** C1.  In every reachable state of the engine: a block with a start
    state has a parent whose result is persisted; a launched block has its
    flag and its start state set, so its parent is persisted; a step that
    persists the result of a block is the execution of a launched block
    whose parent was persisted before the step; and no step takes a launched
    block back, so that launched siblings run in any order. *)
Theorem parent_executed_before_child env s :
  reachable env s →
  (∀ p eb, heap s !! p = Some eb → is_Some (entity.StartState eb) →
           committed s (entity.ParentID eb)) ∧
  (∀ p, p ∈ launched s →
        ∃ eb, heap s !! p = Some eb ∧ entity.Executing eb = true ∧
              is_Some (entity.StartState eb) ∧ committed s (entity.ParentID eb)) ∧
  (∀ ev s' id, enabled ev s → stateOf (handle env ev s) = Some s' →
               ¬ committed s id → committed s' id →
               ∃ p eb, ev = EvExecute p ∧ p ∈ launched s ∧ heap s !! p = Some eb ∧
                       entity.ID eb = id ∧ committed s (entity.ParentID eb)) ∧
  (∀ ev s' q, stateOf (handle env ev s) = Some s' → q ∈ launched s →
              enabled (EvExecute q) s').
Proof.
  intros Hr. pose proof (reachable_Ordered env s Hr) as [Hord _].
  pose proof (reachable_Latched env s Hr) as [_ Hl].
  assert (∀ p, p ∈ launched s →
               ∃ eb, heap s !! p = Some eb ∧ entity.Executing eb = true ∧
                     is_Some (entity.StartState eb) ∧ committed s (entity.ParentID eb)) as Hla.
  { intros p Hp. destruct (Hl p Hp) as (eb&?&?&?). exists eb. split_and!; eauto. }
  split_and!; [done|done| |].
  - intros ev s' id Hen Hs Hn Hc.
    destruct (commit_step env ev s s' id Hs Hn Hc) as (p&eb&_&_&->&Hp&Hid&_).
    simpl in Hen. destruct (Hla p Hen) as (eb'&Hp'&_&_&Hpc).
    exists p, eb. split_and!; try done. congruence.
  - intros ev s' q Hs Hq. simpl.
    pose proof (steps_stateOf _ _ _ _ (grows_handle env ev) Hs) as (_&Hpre&_).
    by eapply elem_of_prefix.
Qed.

(** * A failed execution *)

Lemma executeBlock_fails env p s eb msg :
  heap s !! p = Some eb → is_Some (entity.StartState eb) → executeFails env s eb msg →
  executeBlock env p s = Ok (setErrors (errors s ++ [msg]) s) tt.
Proof.
  intros Hp [c Hc] Hf. unfold executeBlock.
  rewrite (bind_Ok _ _ _ _ _ (load_Ok _ _ _ Hp)).
  rewrite (bind_Ok get _ s s s eq_refl).
  destruct Hf as [Hn|pe Hr Hcb|pe r Hr Hcb Hs].
  - destruct (resultIDs (execState s) (entity.ParentID eb)); [|done..].
    destruct Hn. by eexists.
  - by rewrite Hr, Hc, Hcb.
  - by rewrite Hr, Hc, Hcb, Hs.
Qed.

Lemma runOthers_runEnabled env id evs : ∀ s s',
  runOthers env id evs s = Some s' → runEnabled env evs s = Some s'.
Proof.
  induction evs as [|ev evs IH]; intros s s'; simpl; [done|].
  destruct ev as [b|c|p|]; try (destruct (stateOf _); [apply IH|done]).
  destruct (bool_decide (p ∈ launched s)); simpl; [|done].
  destruct (heap s !! p) as [eb|]; [|done].
  destruct (negb _); [|done]. destruct (stateOf _); [apply IH|done].
Qed.

Lemma runOthers_uncommitted env id evs : ∀ s s',
  runOthers env id evs s = Some s' → ¬ committed s id → ¬ committed s' id.
Proof.
  induction evs as [|ev evs IH]; intros s s'; simpl; [by intros [= <-]|].
  destruct (match ev with EvExecute _ => _ | _ => true end) eqn:Hen; [|done].
  destruct (stateOf (handle env ev s)) as [s1|] eqn:Hs; [|done].
  intros Hrun Hn. apply (IH s1 s' Hrun). intros Hc.
  destruct (commit_step env ev s s1 id Hs Hn Hc) as (p&eb&_&_&->&Hp&Hid&_).
  rewrite Hp in Hen. apply andb_true_iff in Hen as [_ Hen].
  apply negb_true_iff, bool_decide_eq_false in Hen. done.
Qed.

(** What a failed execution leaves.  The execution of a launched block [eb]
    that fails before its results are saved (no result of the parent, an
    error of the computation, an error of the save other than a mismatch)
    returns with one more line in the error log and nothing else changed: the
    queues are those of before, so the queue of the block is not dismounted,
    nothing is persisted, and the flag of the block is still set.  Through
    every later event the flag stays set and this executable block is not
    launched again.  And through a later run in which no executable block of
    that identifier is executed, the result of the block is never persisted,
    and no block whose parent it is gets a start state or is launched. *)
Lemma failed_execution_leaves_block_stuck env s p eb msg :
  reachable env s → p ∈ launched s → heap s !! p = Some eb →
  executeFails env s eb msg →
  executeBlock env p s = Ok (setErrors (errors s ++ [msg]) s) tt ∧
  executionQueues (setErrors (errors s ++ [msg]) s) = executionQueues s ∧
  execState (setErrors (errors s ++ [msg]) s) = execState s ∧
  flagged p (setErrors (errors s ++ [msg]) s) ∧
  (∀ evs s2, runEvents env evs (setErrors (errors s ++ [msg]) s) = Some s2 →
             flagged p s2 ∧ launches p s2 = launches p s) ∧
  (¬ committed s (entity.ID eb) →
   ∀ evs s2, runOthers env (entity.ID eb) evs (setErrors (errors s ++ [msg]) s) = Some s2 →
             ¬ committed s2 (entity.ID eb) ∧
             ∀ c ebc, heap s2 !! c = Some ebc →
                      entity.ParentID ebc = entity.ID eb →
                      entity.StartState ebc = None ∧ c ∉ launched s2).
Proof.
  intros Hr Hl Hp Hf.
  destruct (reachable_Latched env s Hr) as [_ Hla].
  destruct (Hla p Hl) as (eb'&Hp'&Hx&Hst). simplify_eq.
  pose proof (executeBlock_fails env p s eb msg Hp Hst Hf) as He.
  set (s1 := setErrors (errors s ++ [msg]) s) in *.
  assert (flagged p s1) as Hfl by (by exists eb).
  assert (reachable env s1) as Hr1.
  { eapply (reach_step env s (EvExecute p)); [done|done|]. simpl. by rewrite He. }
  split_and!; [done..| |].
  - intros evs s2 Hrun. by destruct (latch_runEvents env p _ _ _ Hrun Hfl).
  - intros Hn evs s2 Hrun.
    assert (¬ committed s2 (entity.ID eb)) as Hn2.
    { by eapply runOthers_uncommitted. }
    split; [done|]. intros c ebc Hc Hpar.
    assert (reachable env s2) as Hr2.
    { eapply reachable_runEnabled; [exact Hr1|]. by eapply runOthers_runEnabled. }
    destruct (reachable_Ordered env s2 Hr2) as [Hord _].
    destruct (reachable_Latched env s2 Hr2) as [_ Hla2].
    assert (entity.StartState ebc = None) as Hnone.
    { destruct (entity.StartState ebc) eqn:Hs; [|done].
      destruct Hn2. rewrite <-Hpar. eapply Hord; [done|]. by rewrite Hs. }
    split; [done|]. intros Hcl. destruct (Hla2 c Hcl) as (eb2&?&_&Hs2).
    simplify_eq. rewrite Hnone in Hs2. by destruct Hs2.
Qed.

(** * Startup: the blocks to reload *)

(** [pendingLoop] is a filter, unless a check fails. *)
Lemma pendingLoop_filter pendings s :
  Forall (fun id => is_Some (IsBlockExecuted (execState s) id)) pendings →
  pendingLoop pendings s =
    Ok s (filter (fun id => IsBlockExecuted (execState s) id = Some false) pendings).
Proof.
  induction 1 as [|id l [b Hb] _ IH]; simpl; [done|].
  rewrite (bind_Ok get _ s s s eq_refl), Hb.
  rewrite (bind_Ok _ _ _ _ _ IH). destruct b.
  - rewrite filter_cons_False; [done|]. by rewrite Hb.
  - rewrite filter_cons_True; [done|]. by rewrite Hb.
Qed.

Lemma pendingLoop_fails pendings s :
  Exists (fun id => IsBlockExecuted (execState s) id = None) pendings →
  pendingLoop pendings s = Failed s "could not check block executed or not".
Proof.
  induction pendings as [|id l IH]; intros Hex; [by apply Exists_nil in Hex|].
  simpl. rewrite (bind_Ok get _ s s s eq_refl).
  destruct (IsBlockExecuted (execState s) id) as [b|] eqn:Hb; [|done].
  apply Exists_cons in Hex as [Hex|Hex]; [congruence|].
  unfold bind. by rewrite (IH Hex).
Qed.

(** X1.  [pendingUnexecutedBlocks] returns the descendants of the finalized
    head that the executed check says are not executed, in the order the
    protocol state lists them, and leaves the engine as it was; it fails
    when the descendants cannot be read or one check fails. *)
Theorem pendingUnexecutedBlocks_filter env s :
  pendingUnexecutedBlocks env s =
    match finalDescendants env with
    | None => Failed s "could not get pending blocks"
    | Some pendings =>
        if decide (Forall (fun id => is_Some (IsBlockExecuted (execState s) id)) pendings)
        then Ok s (filter (fun id => IsBlockExecuted (execState s) id = Some false) pendings)
        else Failed s "could not check block executed or not"
    end.
Proof.
  unfold pendingUnexecutedBlocks. destruct (finalDescendants env) as [pendings|]; [|done].
  case_decide as Hall; [by apply pendingLoop_filter|].
  apply pendingLoop_fails. apply not_Forall_Exists in Hall; [|apply _].
  eapply Exists_impl; [exact Hall|]. simpl. intros id Hn.
  destruct (IsBlockExecuted (execState s) id); [|done]. destruct Hn. by eexists.
Qed.

Section Finalized.
Variable env : Env.

(** The downward scan stops at the highest executed height above the root,
    or at the root. *)
Lemma lastExecutedFrom_spec fuel rootHeight s : ∀ last,
  (N.to_nat (last - rootHeight) ≤ fuel)%nat →
  (∀ k, rootHeight < k ≤ last →
        ∃ header, atHeight env k = Some header ∧
                  is_Some (IsBlockExecuted (execState s) (flow.HeaderID header))) →
  ∃ h, lastExecutedFrom env fuel rootHeight last s = Ok s h ∧
       h ≤ last ∧ (rootHeight < last → rootHeight ≤ h) ∧ (last ≤ rootHeight → h = last) ∧
       (∀ k, h < k ≤ last →
             ∃ header, atHeight env k = Some header ∧
                       IsBlockExecuted (execState s) (flow.HeaderID header) = Some false) ∧
       (rootHeight < h →
        ∃ header, atHeight env h = Some header ∧
                  IsBlockExecuted (execState s) (flow.HeaderID header) = Some true).
Proof.
  induction fuel as [|fuel IH]; intros last Hfuel Hall; simpl.
  - exists last. split_and!; [done|lia|lia|done|intros; lia|intros; lia].
  - destruct (rootHeight <? last) eqn:Hlt.
    + apply N.ltb_lt in Hlt.
      destruct (Hall last) as (header&Hh&[b Hb]); [lia|]. rewrite Hh.
      rewrite (bind_Ok get _ s s s eq_refl), Hb. destruct b.
      * exists last. split_and!; [done|lia|lia|lia|intros; lia|]. intros _. by exists header.
      * destruct (IH (last - 1)) as (h&Hr&H1&H2&H3&H4&H5); [lia|intros; apply Hall; lia|].
        exists h. split_and!; [done|lia| | | |done].
        -- intros _. destruct (decide (rootHeight < last - 1)); [by apply H2|].
           rewrite H3; lia.
        -- intros; lia.
        -- intros k Hk. destruct (decide (k = last)) as [->|]; [by exists header|].
           apply H4. lia.
    + apply N.ltb_ge in Hlt. exists last.
      split_and!; [done|lia|lia|done|intros; lia|intros; lia].
Qed.

Lemma headersFrom_S fuel finalHeight height :
  headersFrom env (S fuel) finalHeight height =
    if height <=? finalHeight then
      match atHeight env height with
      | None => fail "could not get header at height"
      | Some header =>
          rest <- headersFrom env fuel finalHeight (wrap64 (height + 1)) ;;
          ret (flow.HeaderID header :: rest)
      end
    else ret [].
Proof. reflexivity. Qed.

Lemma wrap64_small n : n ≤ maxUint64 → wrap64 n = n.
Proof. intros Hn. apply N.mod_small. unfold maxUint64 in Hn. lia. Qed.

Lemma wrap64_bound n : wrap64 n ≤ maxUint64.
Proof.
  unfold wrap64, maxUint64.
  pose proof (N.mod_upper_bound n 18446744073709551616). lia.
Qed.

(** Below the largest height the upward scan lists the headers of the
    heights up to the finalized one, in a row, and leaves the loop. *)
Lemma headersFrom_spec final s : ∀ count height,
  final < maxUint64 → height + N.of_nat count = final + 1 →
  (∀ k, height ≤ k ≤ final → is_Some (atHeight env k)) →
  ∃ ids, headersFrom env (S count) final height s = Ok s ids ∧ length ids = count ∧
         ∀ i, (i < count)%nat →
              ∃ header, atHeight env (height + N.of_nat i) = Some header ∧
                        ids !! i = Some (flow.HeaderID header).
Proof.
  induction count as [|count IH]; intros height Hmax Hcount Hall; rewrite headersFrom_S.
  - assert ((height <=? final) = false) as -> by (apply N.leb_gt; lia).
    exists []. split_and!; [done|done|]. intros; lia.
  - assert ((height <=? final) = true) as -> by (apply N.leb_le; lia).
    destruct (Hall height) as [header Hh]; [lia|]. rewrite Hh.
    rewrite wrap64_small by lia.
    destruct (IH (height + 1)) as (ids&Hr&Hlen&Hids); [done|lia|intros; apply Hall; lia|].
    rewrite (bind_Ok _ _ _ _ _ Hr). exists (flow.HeaderID header :: ids).
    split_and!; [done|by simpl; rewrite Hlen|].
    intros [|i] Hi.
    + exists header. by rewrite N.add_0_r.
    + destruct (Hids i) as (hd&H1&H2); [lia|]. exists hd. split; [|done].
      rewrite <-H1. f_equal. lia.
Qed.

(** At the largest height the upward scan never leaves the loop. *)
Lemma headersFrom_at_max final s : ∀ fuel height s' ids,
  maxUint64 ≤ final → height ≤ maxUint64 →
  headersFrom env fuel final height s ≠ Ok s' ids.
Proof.
  induction fuel as [|fuel IH]; intros height s' ids Hmax Hh; [done|].
  rewrite headersFrom_S.
  assert ((height <=? final) = true) as -> by (apply N.leb_le; lia).
  destruct (atHeight env height) as [header|]; [|done].
  unfold bind.
  destruct (headersFrom env fuel final (wrap64 (height + 1)) s) as [s1 rest| |] eqn:Hr;
    [|done..].
  by destruct (IH _ _ _ Hmax (wrap64_bound _) Hr).
Qed.

(** X2.  [finalizedUnexecutedBlocks], heights being [uint64].  When the
    finalized head is below the largest height, the protocol state has a
    header at every height above the root up to the finalized head and the
    executed check answers for each of them, the call returns, leaves the
    engine as it was, and lists the headers of the heights [h+1 .. final] in
    rising order, where [h] is the highest height that is executed, or the
    height of the root when none above it is: every block listed is not
    executed, and nothing is listed when the finalized head is executed or is
    the root.  When the finalized head is at the largest height, the first
    unexecuted height wraps around or the loop condition never fails, and the
    call does not return normally. *)
Theorem finalizedUnexecutedBlocks_spec final root s :
  finalHead env = Some final → rootBlock env = Some root →
  (flow.Height final < maxUint64 →
   (∀ k, flow.Height root < k ≤ flow.Height final →
         ∃ header, atHeight env k = Some header ∧
                   is_Some (IsBlockExecuted (execState s) (flow.HeaderID header))) →
   ∃ h ids,
     finalizedUnexecutedBlocks env s = Ok s ids ∧
     h ≤ flow.Height final ∧
     (flow.Height root < flow.Height final → flow.Height root ≤ h) ∧
     (flow.Height root < h →
      ∃ header, atHeight env h = Some header ∧
                IsBlockExecuted (execState s) (flow.HeaderID header) = Some true) ∧
     length ids = N.to_nat (flow.Height final - h) ∧
     (∀ i, (i < length ids)%nat →
           ∃ header, atHeight env (h + 1 + N.of_nat i) = Some header ∧
                     ids !! i = Some (flow.HeaderID header) ∧
                     IsBlockExecuted (execState s) (flow.HeaderID header) = Some false)) ∧
  (flow.Height final = maxUint64 →
   ∀ s' ids, finalizedUnexecutedBlocks env s ≠ Ok s' ids).
Proof.
  intros Hf Hr. split.
  - intros Hmax Hall. unfold finalizedUnexecutedBlocks. rewrite Hf, Hr.
    destruct (lastExecutedFrom_spec (N.to_nat (flow.Height final - flow.Height root))
                (flow.Height root) s (flow.Height final)) as (h&Hl&H1&H2&H3&H4&H5);
      [lia|done|].
    rewrite (bind_Ok _ _ _ _ _ Hl).
    assert ((flow.Height final <? maxUint64) = true) as -> by (by apply N.ltb_lt).
    rewrite wrap64_small by lia.
    destruct (headersFrom_spec (flow.Height final) s
                (N.to_nat (flow.Height final + 1 - (h + 1))) (h + 1))
      as (ids&Hh&Hlen&Hids); [done|lia| |].
    { intros k Hk. destruct (H4 k) as (hd&?&_); [lia|]. by eexists. }
    exists h, ids. split_and!; [done|done|done|done|rewrite Hlen; lia|].
    intros i Hi. destruct (Hids i) as (hd&Ha&Hi'); [lia|].
    exists hd. split_and!; [done|done|].
    destruct (H4 (h + 1 + N.of_nat i)) as (hd'&Ha'&Hx); [lia|]. congruence.
  - intros Hmax s' ids. unfold finalizedUnexecutedBlocks. rewrite Hf, Hr.
    unfold bind at 1.
    destruct (lastExecutedFrom _ _ _ _ s) as [s1 last| |] eqn:Hl; [|done..].
    apply headersFrom_at_max; [lia|apply wrap64_bound].
Qed.

End Finalized.

(** * Startup of a node that has nothing to execute *)

Section CaughtUp.
Variable env : Env.

Lemma reloadLastExecuted_nothing s lastHeight lastID last root :
  highestExecuted (execState s) = Some (lastHeight, lastID) →
  atBlockID env lastID = Some last → rootBlock env = Some root →
  flow.HeaderID root = flow.HeaderID last ∨
    IsBlockExecuted (execState s) lastID = Some true →
  reloadLastExecuted env s = Ok s tt.
Proof.
  intros Hm Ha Hr Hor. unfold reloadLastExecuted.
  rewrite (bind_Ok get _ s s s eq_refl), Hm, Ha, Hr.
  case_bool_decide as Hroot; simpl; [done|].
  destruct Hor as [?|Hx]; [done|]. by rewrite Hx.
Qed.

Lemma finalizedUnexecutedBlocks_nothing s final root :
  finalHead env = Some final → rootBlock env = Some root →
  flow.Height final < maxUint64 →
  flow.Height final ≤ flow.Height root ∨
    (∃ header, atHeight env (flow.Height final) = Some header ∧
               IsBlockExecuted (execState s) (flow.HeaderID header) = Some true) →
  finalizedUnexecutedBlocks env s = Ok s [].
Proof.
  intros Hf Hr Hmax Hor. unfold finalizedUnexecutedBlocks. rewrite Hf, Hr.
  assert (lastExecutedFrom env (N.to_nat (flow.Height final - flow.Height root))
            (flow.Height root) (flow.Height final) s = Ok s (flow.Height final)) as Hl.
  { destruct (N.to_nat (flow.Height final - flow.Height root)) as [|n] eqn:Hn; [done|].
    simpl. destruct (flow.Height root <? flow.Height final) eqn:Hlt; [|done].
    apply N.ltb_lt in Hlt. destruct Hor as [?|(header&Ha&Hx)]; [lia|].
    by rewrite Ha, (bind_Ok get _ s s s eq_refl), Hx. }
  rewrite (bind_Ok _ _ _ _ _ Hl).
  assert ((flow.Height final <? maxUint64) = true) as -> by (by apply N.ltb_lt).
  rewrite wrap64_small by lia.
  replace (N.to_nat (flow.Height final + 1 - (flow.Height final + 1))) with 0%nat by lia.
  rewrite headersFrom_S.
  by assert ((flow.Height final + 1 <=? flow.Height final) = false) as ->
    by (apply N.leb_gt; lia).
Qed.

Lemma pendingLoop_nothing pendings s :
  Forall (fun id => IsBlockExecuted (execState s) id = Some true) pendings →
  pendingLoop pendings s = Ok s [].
Proof.
  intros Hall. rewrite pendingLoop_filter.
  - f_equal. induction Hall as [|id l Hx _ IH]; [done|].
    rewrite filter_cons_False; [done|]. by rewrite Hx.
  - eapply Forall_impl; [exact Hall|]. simpl. intros id ->. by eexists.
Qed.

(** X3.  A node that has nothing to execute starts without touching the
    engine: when the last-executed marker names the root block or a block
    whose result is in storage, the finalized head is below the largest
    [uint64] height and is executed or not above the root, and every pending
    block is executed, [reloadUnexecutedBlocks] returns with the engine as it
    was, and so does [Ready]; a paused node reloads nothing at all. *)
Theorem startup_with_nothing_to_execute s lastHeight lastID last root final pendings :
  highestExecuted (execState s) = Some (lastHeight, lastID) →
  atBlockID env lastID = Some last → rootBlock env = Some root →
  flow.HeaderID root = flow.HeaderID last ∨
    IsBlockExecuted (execState s) lastID = Some true →
  finalHead env = Some final →
  flow.Height final < maxUint64 →
  flow.Height final ≤ flow.Height root ∨
    (∃ header, atHeight env (flow.Height final) = Some header ∧
               IsBlockExecuted (execState s) (flow.HeaderID header) = Some true) →
  finalDescendants env = Some pendings →
  Forall (fun id => IsBlockExecuted (execState s) id = Some true) pendings →
  reloadUnexecutedBlocks env s = Ok s tt ∧ Ready env false s = Ok s tt ∧
  ∀ s0, Ready env true s0 = Ok s0 tt.
Proof.
  intros Hm Ha Hr Hor Hf Hmax Hfin Hd Hp.
  assert (reloadUnexecutedBlocks env s = Ok s tt) as Hre.
  { unfold reloadUnexecutedBlocks.
    rewrite (bind_Ok _ _ _ _ _ (reloadLastExecuted_nothing _ _ _ _ _ Hm Ha Hr Hor)).
    assert (unexecutedBlocks env s = Ok s ([], [])) as Hu.
    { unfold unexecutedBlocks.
      rewrite (bind_Ok _ _ _ _ _ (finalizedUnexecutedBlocks_nothing _ _ _ Hf Hr Hmax Hfin)).
      unfold pendingUnexecutedBlocks. rewrite Hd.
      by rewrite (bind_Ok _ _ _ _ _ (pendingLoop_nothing _ _ Hp)). }
    assert (wrap "could not reload unexecuted blocks: " (unexecutedBlocks env) s
            = Ok s ([], [])) as Hw by (unfold wrap; by rewrite Hu).
    by rewrite (bind_Ok _ _ _ _ _ Hw). }
  split_and!; [done| |done].
  unfold Ready. by rewrite (bind_Ok _ _ _ _ _ (try_Ok _ _ _ _ Hre)).
Qed.

End CaughtUp.

(** * What [enqueue] answers *)

Lemma tryAddFirst_keys b queues : ∀ queues' q isNew,
  tryAddFirst b queues = Some (queues', q, isNew) →
  queues'.*1 = queues.*1 ∧ (isNew = false → queues' = queues).
Proof.
  induction queues as [|[k q0] rest IH]; intros queues' q isNew; simpl; [done|].
  destruct (queue.TryAdd q0 b) as [[q1 stored] isNew1] eqn:Ht. destruct stored.
  - intros [= <- <- <-]. split; [done|]. intros ->.
    unfold queue.TryAdd in Ht. destruct (queue.Nodes q0 (queue.ID b)); [by simplify_eq|].
    destruct (queue.Nodes q0 (queue.ParentID b)); by simplify_eq.
  - destruct (tryAddFirst b rest) as [[[rest' q2] isNew2]|]; [|done].
    intros [= <- <- <-]. destruct (IH _ _ _ eq_refl) as [H1 H2]. split.
    + rewrite !fmap_cons. by rewrite H1.
    + intros Hn. by rewrite (H2 Hn).
Qed.

Lemma tryAddFirst_none b queues :
  tryAddFirst b queues = None →
  Forall (fun e => queue.Nodes e.2 (queue.ID b) = None ∧
                   queue.Nodes e.2 (queue.ParentID b) = None) queues.
Proof.
  induction queues as [|[k q0] rest IH]; simpl; [by constructor|].
  destruct (queue.TryAdd q0 b) as [[q1 stored] isNew1] eqn:Ht.
  destruct stored; [done|].
  destruct (TryAdd_not_stored _ _ _ _ Ht) as (_&H1&H2).
  destruct (tryAddFirst b rest) as [[[rest' q2] isNew2]|]; [done|].
  intros _. constructor; [done|by apply IH].
Qed.

(** X4.  What [enqueue] answers.  A block reported as not added leaves the
    queues as they were; a block reported as added is a node of the queue
    handed back, which is in the queue set; a block reported as the head
    of a queue heads a new queue, last in the set, and that happens only
    when no queue holds the block or its parent; a block that is not a head
    leaves the keys of the set as they were. *)
Theorem enqueue_contract b queues queues' q added head :
  enqueue b queues = (queues', q, added, head) →
  (added = false → queues' = queues) ∧
  (added = true →
   ∃ k, (k, q) ∈ queues' ∧ is_Some (queue.Nodes q (queue.ID b))) ∧
  (head = true →
   Forall (fun e => queue.Nodes e.2 (queue.ID b) = None ∧
                    queue.Nodes e.2 (queue.ParentID b) = None) queues ∧
   q = queue.NewQueue b ∧
   (added = true → queues' = queues ++ [(queue.ID b, queue.NewQueue b)])) ∧
  (head = false → queues'.*1 = queues.*1).
Proof.
  unfold enqueue.
  destruct (tryAddFirst b queues) as [[[qs1 q1] isNew1]|] eqn:Ht.
  - intros [= <- <- <- <-]. destruct (tryAddFirst_keys _ _ _ _ _ Ht) as [Hk Hn].
    split_and!; [done| |done|done].
    intros _. by eapply tryAddFirst_stored.
  - unfold newQueue, stdmap.QAdd.
    change (queue.QueueID (queue.NewQueue b)) with (queue.ID b).
    destruct (stdmap.QByID (queue.ID b) queues) as [q0|] eqn:Hq;
      intros [= <- <- <- <-].
    + split_and!; [done|done| |done].
      intros _. split_and!; [by apply tryAddFirst_none|done|done].
    + split_and!; [done| | |done].
      * intros _. exists (queue.ID b). split; [apply elem_of_app; right; apply list_elem_of_here|].
        unfold queue.Nodes. simpl. rewrite decide_True; [by eexists|done].
      * intros _. split_and!; [by apply tryAddFirst_none|done|done].
Qed.

(** * Block intake *)

Lemma enqueue_enqueues b queues queues' q added head :
  (∀ k q0, (k, q0) ∈ queues → queue.QueueID q0 = k) →
  enqueue b queues = (queues', q, added, head) →
  ∃ k q0, (k, q0) ∈ queues' ∧ is_Some (queue.Nodes q0 (queue.ID b)).
Proof.
  intros Hok. unfold enqueue.
  destruct (tryAddFirst b queues) as [[[qs1 q1] isNew1]|] eqn:Ht.
  - intros [= <- <- <- <-]. destruct (tryAddFirst_stored _ _ _ _ _ Ht) as (k&?&?).
    by exists k, q1.
  - unfold newQueue, stdmap.QAdd.
    change (queue.QueueID (queue.NewQueue b)) with (queue.ID b).
    destruct (stdmap.QByID (queue.ID b) queues) as [q0|] eqn:Hq;
      intros [= <- <- <- <-].
    + apply QByID_elem in Hq. exists (queue.ID b), q0. split; [done|].
      pose proof (Hok _ _ Hq) as Hid. unfold queue.QueueID in Hid.
      unfold queue.Nodes. destruct (queue.Head q0) as [i cs]. simpl in *.
      rewrite decide_True; [by eexists|done].
    + exists (queue.ID b), (queue.NewQueue b).
      split; [apply elem_of_app; right; apply list_elem_of_here|].
      unfold queue.Nodes. simpl. rewrite decide_True; [by eexists|done].
Qed.

(** A block that is known already leaves the queues as they were. *)
Lemma enqueue_not_added b queues queues' q head :
  enqueue b queues = (queues', q, false, head) → queues' = queues.
Proof.
  unfold enqueue.
  destruct (tryAddFirst b queues) as [[[qs1 q1] isNew1]|] eqn:Ht.
  - intros He. injection He as H1 H2 H3 H4. subst.
    by destruct (tryAddFirst_keys _ _ _ _ _ Ht) as [_ ->].
  - unfold newQueue, stdmap.QAdd.
    destruct (stdmap.QByID _ queues); intros He; by simplify_eq.
Qed.

Lemma enqueued_sameQueues id s s' : sameQueues s s' → enqueued id s → enqueued id s'.
Proof. intros [Hq _] (k&q&?&?). exists k, q. by rewrite Hq. Qed.

Lemma handleBlock_enqueues_wp env block s :
  (∀ k q0, (k, q0) ∈ executionQueues s → queue.QueueID q0 = k) →
  IsBlockExecuted (execState s) (flow.BlockID block) = Some false →
  wp (handleBlock env block) (fun _ => enqueued (flow.BlockID block))
    (enqueued (flow.BlockID block)) s.
Proof.
  intros Hok Hx. unfold handleBlock. apply wp_bind, wp_get. rewrite Hx.
  set (eb0 := entity.mkExecutable block None ∅ false).
  destruct (enqueue (blockify (length (heap s)) eb0) (executionQueues s))
    as [[[queues q] added] head] eqn:He.
  destruct (enqueue_enqueues _ _ _ _ _ _ Hok He) as (k&q0&Hin&Hn).
  assert (∀ s1, executionQueues s1 = queues → enqueued (flow.BlockID block) s1) as Hen.
  { intros s1 H1. exists k, q0. by rewrite H1. }
  apply wp_bind, wp_wrap. destruct added.
  - eapply wp_eq; [by apply enqueueBlockAndCheckExecutable_added|].
    eapply wp_mono; [apply sameQueues_afterEnqueue| |]; simpl.
    + intros missing s1 H1.
      assert (enqueued (flow.BlockID block) s1) as He1.
      { eapply enqueued_sameQueues; [exact H1|]. by apply Hen. }
      eapply wp_mono; [apply (sameQueues_addOrFetch env)| |]; simpl;
        intros; by eapply enqueued_sameQueues.
    + intros s1 H1. eapply enqueued_sameQueues; [exact H1|]. by apply Hen.
  - pose proof (enqueue_not_added _ _ _ _ _ He) as Hsame.
    unfold wp at 1. rewrite (enqueueBlockAndCheckExecutable_known _ _ _ _ _ He).
    unfold wp. rewrite addOrFetch_nothing. by apply Hen.
Qed.

(** X5.  Block intake does not lose a block.  In a reachable state, after
    [handleBlock] has returned for a block that the executed check says is
    not executed, with or without an error, the block is a node of an
    execution queue; the same holds after [BlockProcessable], which turns
    the error into a line of the log. *)
Theorem handleBlock_enqueues env block s :
  reachable env s →
  IsBlockExecuted (execState s) (flow.BlockID block) = Some false →
  (∀ s', stateOf (handleBlock env block s) = Some s' → enqueued (flow.BlockID block) s') ∧
  (∀ header s',
     blocksByID env (flow.HeaderID header) = Some block →
     stateOf (BlockProcessable env true header s) = Some s' →
     enqueued (flow.BlockID block) s').
Proof.
  intros Hr Hx.
  assert (wp (handleBlock env block) (fun _ => enqueued (flow.BlockID block))
            (enqueued (flow.BlockID block)) s) as Hwp.
  { apply handleBlock_enqueues_wp; [|done].
    destruct (reachable_Ordered env s Hr) as [_ Hok]. intros k q0 Hin.
    by destruct (Hok k q0 Hin). }
  unfold wp in Hwp. split.
  - intros s' Hs. destruct (handleBlock env block s); simpl in Hs; by simplify_eq.
  - intros header s' Hb. unfold BlockProcessable. simpl. rewrite Hb.
    unfold bind, try, logError, modify.
    destruct (handleBlock env block s) as [s1 []|s1 e|e]; simpl; [| |done].
    + by intros [= <-].
    + intros [= <-]. destruct Hwp as (k&q&?&?). by exists k, q.
Qed.

(** * A block that is ready when it arrives *)

Lemma tryAddFirst_unrelated b queues :
  Forall (fun e => queue.Nodes e.2 (queue.ID b) = None ∧
                   queue.Nodes e.2 (queue.ParentID b) = None) queues →
  tryAddFirst b queues = None.
Proof.
  induction 1 as [|[k q] rest [H1 H2] _ IH]; simpl; [done|].
  rewrite TryAdd_unrelated; [|done..]. by rewrite IH.
Qed.

(** X6.  A block that is ready when it arrives is launched by the
    notification.  When the executed check says that the block is not
    executed, no queue holds the block or its parent, the commitment of its
    parent is persisted and the block has no collections, [handleBlock]
    returns without error, the block heads a new queue, its start state is
    that commitment, its flag is set and its execution is launched. *)
Theorem handleBlock_launches_ready_block env block s parentCommitment :
  IsBlockExecuted (execState s) (flow.BlockID block) = Some false →
  Forall (fun e => queue.Nodes e.2 (flow.BlockID block) = None ∧
                   queue.Nodes e.2 (flow.ParentID (flow.BlockHeader block)) = None)
    (executionQueues s) →
  stdmap.QByID (flow.BlockID block) (executionQueues s) = None →
  commits (execState s) (flow.ParentID (flow.BlockHeader block)) = Found parentCommitment →
  flow.Guarantees block = [] →
  ∃ s', handleBlock env block s = Ok s' tt ∧
        heap s' = heap s ++ [entity.mkExecutable block (Some parentCommitment) ∅ true] ∧
        launched s' = launched s ++ [length (heap s)] ∧
        executionQueues s' =
          executionQueues s ++
            [(flow.BlockID block,
              queue.NewQueue (blockify (length (heap s))
                                (entity.mkExecutable block None ∅ false)))].
Proof.
  intros Hx Hq Hk Hc Hg.
  set (eb0 := entity.mkExecutable block None ∅ false).
  set (p := length (heap s)).
  set (b := blockify p eb0).
  assert (enqueue b (executionQueues s)
          = (executionQueues s ++ [(flow.BlockID block, queue.NewQueue b)],
             queue.NewQueue b, true, true)) as He.
  { unfold enqueue. rewrite tryAddFirst_unrelated; [|done].
    unfold newQueue, stdmap.QAdd.
    change (queue.QueueID (queue.NewQueue b)) with (flow.BlockID block). by rewrite Hk. }
  set (s0 := setQueues (executionQueues s ++ [(flow.BlockID block, queue.NewQueue b)])
               (setHeap (heap s ++ [eb0]) s)).
  assert (heap s0 !! p = Some eb0) as Hp0.
  { simpl. by rewrite lookup_app_r, Nat.sub_diag. }
  set (eb1 := entity.withStartState (Some parentCommitment) eb0).
  set (s1 := setHeap (<[p := eb1]> (heap s0)) s0).
  assert (heap s1 !! p = Some eb1) as Hp1.
  { simpl. apply list_lookup_insert_eq. rewrite length_app. simpl. unfold p. lia. }
  set (s2 := setLaunched (launched s1 ++ [p])
               (setHeap (<[p := entity.withExecuting true eb1]> (heap s1)) s1)).
  assert (enqueueBlockAndCheckExecutable block s = Ok s2 []) as Henq.
  { rewrite (enqueueBlockAndCheckExecutable_added _ _ _ _ _ He). fold eb0 p b s0.
    unfold afterEnqueue. rewrite Hc.
    rewrite (bind_Ok _ _ _ _ _ (mutate_Ok _ _ _ _ Hp0)). fold eb1 s1.
    assert (matchAndFindMissingCollections p s1 = Ok s1 []) as Hm.
    { unfold matchAndFindMissingCollections.
      rewrite (bind_Ok _ _ _ _ _ (load_Ok _ _ _ Hp1)). simpl. by rewrite Hg. }
    assert (wrap "cannot send collection requests: " (matchAndFindMissingCollections p) s1
            = Ok s1 []) as Hw by (unfold wrap; by rewrite Hm).
    rewrite (bind_Ok _ _ _ _ _ Hw).
    assert (executeBlockIfComplete p s1 = Ok s2 true) as Hl.
    { by rewrite (executeBlockIfComplete_eq _ _ _ Hp1). }
    by rewrite (bind_Ok _ _ _ _ _ Hl). }
  exists s2. split_and!.
  - unfold handleBlock. rewrite (bind_Ok get _ s s s eq_refl), Hx.
    assert (wrap "could not enqueue block: " (enqueueBlockAndCheckExecutable block) s
            = Ok s2 []) as Hw by (unfold wrap; by rewrite Henq).
    by rewrite (bind_Ok _ _ _ _ _ Hw).
  - simpl. rewrite list_insert_insert_eq.
    rewrite insert_app_r_alt; [|unfold p; lia]. unfold p. by rewrite Nat.sub_diag.
  - done.
  - done.
Qed.

(** * Who writes which part of the engine

    A relation that every write of a part of the engine respects is kept
    by every function that writes only such parts. *)

Section Frame.
Context (R : relation Engine) `{!PreOrder R}.

Hypothesis R_heap : ∀ s h, R s (setHeap h s).
Hypothesis R_launched : ∀ s l, R s (setLaunched l s).
Hypothesis R_index : ∀ s b, R s (setByCollection b s).
Hypothesis R_raise : ∀ s h, maxCollectionHeight s < h → R s (setMaxHeight h s).
Hypothesis R_collections : ∀ s c, R s (setCollections c s).
Hypothesis R_errors : ∀ s e, R s (setErrors e s).
Hypothesis R_requested : ∀ s r, R s (setRequested r s).
Hypothesis R_forced : ∀ s f, R s (setForced f s).
Hypothesis R_queues : ∀ s q, R s (setQueues q s).
Hypothesis R_exec : ∀ s e, R s (setExecState e s).
Hypothesis R_broadcasted : ∀ s b, R s (setBroadcasted b s).

Collection Launch := R_heap R_launched PreOrder0.
Collection Match := R_heap R_index PreOrder0.
Collection Deliver := R_heap R_launched R_index R_raise PreOrder0.
Collection Fetch := R_heap R_launched R_index R_raise R_requested R_forced PreOrder0.
Collection Intake :=
  R_heap R_launched R_index R_raise R_requested R_forced R_queues R_errors PreOrder0.

Local Ltac setter :=
  first [ reflexivity
        | apply R_heap | apply R_launched | apply R_index | apply R_collections
        | apply R_errors | apply R_requested | apply R_forced | apply R_queues
        | apply R_exec | apply R_broadcasted
        | apply R_raise; by apply N.ltb_lt
        | etrans; [apply R_heap|apply R_queues] ].
Local Ltac leaf :=
  lazymatch goal with
  | |- steps _ (modify _) => apply steps_modify; intros; repeat case_match; setter
  | |- steps _ (logError _) => apply steps_modify; intros; setter
  | |- steps _ (mutate _ _) => apply steps_mutate; intros; setter
  | _ => idtac
  end.
Local Ltac go := repeat steps_step; leaf; eauto.

Lemma frame_executeBlockIfComplete p : steps R (executeBlockIfComplete p).
Proof using Launch. unfold executeBlockIfComplete. go. Qed.

Lemma frame_matchLoop p gs acc : steps R (matchLoop p gs acc).
Proof using Match. revert acc. induction gs as [|g gs IH]; intros acc; simpl; go. Qed.

Lemma frame_matchAndFindMissingCollections p : steps R (matchAndFindMissingCollections p).
Proof using Match. unfold matchAndFindMissingCollections. go. apply frame_matchLoop. Qed.

Lemma frame_deliverLoop c l : steps R (deliverLoop c l).
Proof using Deliver.
  induction l as [|[k p] l IH]; simpl; go. apply frame_executeBlockIfComplete.
Qed.

Lemma frame_addCollectionToMempool c : steps R (addCollectionToMempool c).
Proof using Deliver. unfold addCollectionToMempool. go. apply frame_deliverLoop. Qed.

Variable env : Env.

Lemma frame_OnCollection c : steps R (OnCollection env c).
Proof using R_heap R_launched R_index R_raise R_collections R_errors PreOrder0.
  unfold OnCollection, handleCollection. go. apply frame_addCollectionToMempool.
Qed.

Lemma frame_fetchLoop b h gs hc f :
  (∀ c, steps R (hc c)) → steps R (fetchLoop env b h gs hc f).
Proof using R_requested PreOrder0.
  intros Hc. revert f. induction gs as [|g gs IH]; intros f; simpl; go.
  all: unfold fetchCollection; go.
Qed.

Lemma frame_fetchAndHandleCollection b h gs hc :
  (∀ c, steps R (hc c)) → steps R (fetchAndHandleCollection env b h gs hc).
Proof using R_requested R_forced PreOrder0.
  intros Hc. unfold fetchAndHandleCollection. go. by apply frame_fetchLoop.
Qed.

Lemma frame_addOrFetch b h gs : steps R (addOrFetch env b h gs).
Proof using Fetch.
  unfold addOrFetch. apply frame_fetchAndHandleCollection. intros c. go.
  apply frame_addCollectionToMempool.
Qed.

Lemma frame_addOrFetchAll l : steps R (addOrFetchAll env l).
Proof using Fetch. induction l as [|[c m] l IH]; simpl; go. apply frame_addOrFetch. Qed.

Lemma frame_enqueueBlockAndCheckExecutable b : steps R (enqueueBlockAndCheckExecutable b).
Proof using R_heap R_launched R_index R_queues R_errors PreOrder0.
  unfold enqueueBlockAndCheckExecutable. go.
  all: first [apply frame_matchAndFindMissingCollections | apply frame_executeBlockIfComplete].
Qed.

Lemma frame_handleBlock b : steps R (handleBlock env b).
Proof using Intake.
  unfold handleBlock. go.
  - apply frame_enqueueBlockAndCheckExecutable.
  - apply frame_addOrFetch.
Qed.

Lemma frame_BlockProcessable processable b : steps R (BlockProcessable env processable b).
Proof using Intake.
  unfold BlockProcessable. destruct processable; simpl; go. apply frame_handleBlock.
Qed.

Lemma frame_requeueLoop c qs acc : steps R (requeueLoop c qs acc).
Proof using R_heap R_launched R_index R_queues PreOrder0.
  revert acc. induction qs as [|q qs IH]; intros acc; simpl; go.
  all: first [apply frame_matchAndFindMissingCollections | apply frame_executeBlockIfComplete].
Qed.

Lemma frame_requeueChildren p c : steps R (requeueChildren p c).
Proof using R_heap R_launched R_index R_queues PreOrder0.
  unfold requeueChildren. go. apply frame_requeueLoop.
Qed.

Lemma frame_onBlockExecuted p c : steps R (onBlockExecuted env p c).
Proof using Intake.
  unfold onBlockExecuted. go.
  - apply frame_requeueChildren.
  - apply frame_addOrFetchAll.
Qed.

Lemma frame_reloadBlock b : steps R (reloadBlock env b).
Proof using Intake.
  unfold reloadBlock. go.
  - apply frame_enqueueBlockAndCheckExecutable.
  - apply frame_fetchAndHandleCollection. intros. go. apply frame_addCollectionToMempool.
Qed.

Lemma frame_reloadAll l : steps R (reloadAll env l).
Proof using Intake. induction l as [|x l IH]; simpl; go. apply frame_reloadBlock. Qed.

Lemma frame_reloadUnexecutedBlocks : steps R (reloadUnexecutedBlocks env).
Proof using Intake.
  unfold reloadUnexecutedBlocks, reloadLastExecuted. go.
  all: first [ apply frame_reloadBlock | apply frame_reloadAll
             | (eapply steps_weaken; [|apply same_unexecutedBlocks]; by intros ?? ->) ].
Qed.

Lemma frame_Ready paused : steps R (Ready env paused).
Proof using Intake. unfold Ready. destruct paused; go. apply frame_reloadUnexecutedBlocks. Qed.

Lemma frame_executeBlock p : steps R (executeBlock env p).
Proof using Intake R_exec R_broadcasted. unfold executeBlock. go. all: apply frame_onBlockExecuted. Qed.

Lemma frame_handle ev : steps R (handle env ev).
Proof using All.
  destruct ev; simpl.
  - apply frame_handleBlock.
  - apply frame_OnCollection.
  - apply frame_executeBlock.
  - apply frame_reloadUnexecutedBlocks.
Qed.

End Frame.

(** ** The receipts *)

Global Instance silent_preorder : PreOrder silent.
Proof.
  split; [by intros s|]. intros a b c [B1 E1] [B2 E2]. split; congruence.
Qed.

Section Silent.
Variable env : Env.

Local Ltac inst := first [ apply _ | by intros ].

Lemma silent_handleBlock b : steps silent (handleBlock env b).
Proof. apply frame_handleBlock; inst. Qed.

Lemma silent_OnCollection c : steps silent (OnCollection env c).
Proof. apply frame_OnCollection; inst. Qed.

Lemma silent_onBlockExecuted p c : steps silent (onBlockExecuted env p c).
Proof. apply frame_onBlockExecuted; inst. Qed.

Lemma silent_reloadUnexecutedBlocks : steps silent (reloadUnexecutedBlocks env).
Proof. apply frame_reloadUnexecutedBlocks; inst. Qed.

Lemma silent_BlockProcessable processable b :
  steps silent (BlockProcessable env processable b).
Proof. apply frame_BlockProcessable; inst. Qed.

Lemma silent_Ready paused : steps silent (Ready env paused).
Proof. apply frame_Ready; inst. Qed.

Lemma outcome_executeBlock p s eb :
  heap s !! p = Some eb →
  wp (executeBlock env p) (fun _ => outcome env eb s) (outcome env eb s) s.
Proof.
  intros Hp. unfold executeBlock.
  apply wp_bind, wp_load. intros eb' Hp'. assert (eb' = eb) as -> by congruence.
  apply wp_bind, wp_get.
  assert (∀ msg, executeFails env s eb msg →
                 wp (logError msg) (fun _ => outcome env eb s) (outcome env eb s) s) as Hlog.
  { intros msg Hf. apply wp_modify. left. split; [done|by exists msg]. }
  destruct (resultIDs (execState s) (entity.ParentID eb)) as [parentErID| |] eqn:Hr;
    [|apply Hlog, fails_parent; rewrite Hr; by intros [? ?]..].
  destruct (entity.StartState eb); [|done].
  destruct (computeBlock env parentErID eb) as [result|] eqn:Hc;
    [|by eapply Hlog, fails_compute].
  destruct (saveOutcome env (entity.ID eb) result) eqn:Hs;
    [|done|by eapply Hlog, fails_save].
  apply wp_bind, wp_modify.
  set (s1 := setExecState _ s).
  destruct (sealedHead env) as [sealed|] eqn:Hsealed; [|done].
  assert (∀ s2 s3, (broadcasted s2 = broadcasted s ∨
                    broadcasted s2 = broadcasted s ++ [entity.ID eb] ∧
                    checkAuthorizedAtBlock env (entity.ID eb) = Some true ∧
                    broadcastReceipt env (entity.ID eb) = true ∧
                    ∃ sealed, sealedHead env = Some sealed ∧
                              flow.Height sealed < entity.Height eb) →
                   execState s2 = execState s1 → silent s2 s3 → outcome env eb s s3) as Hout.
  { intros s2 s3 Hb He [B3 E3]. right. exists parentErID, result.
    split_and!; [done..|by rewrite E3, He|by rewrite B3]. }
  assert (∀ s2, (broadcasted s2 = broadcasted s ∨
                 broadcasted s2 = broadcasted s ++ [entity.ID eb] ∧
                 checkAuthorizedAtBlock env (entity.ID eb) = Some true ∧
                 broadcastReceipt env (entity.ID eb) = true ∧
                 ∃ sealed, sealedHead env = Some sealed ∧
                           flow.Height sealed < entity.Height eb) →
                execState s2 = execState s1 →
                wp (r <- try (onBlockExecuted env p (EndState result)) ;;
                    match r with
                    | inl _ => ret ()
                    | inr e => logError ("failed in process block's children: " +:+ e)
                    end) (fun _ => outcome env eb s) (outcome env eb s) s2) as Hrest.
  { intros s2 Hb He.
    assert (steps silent
              (r <- try (onBlockExecuted env p (EndState result)) ;;
               match r with
               | inl _ => ret ()
               | inr e => logError ("failed in process block's children: " +:+ e)
               end)) as Hm.
    { repeat steps_step; first [apply steps_modify; by intros | apply silent_onBlockExecuted]. }
    eapply wp_mono; [apply Hm| |]; simpl; intros; by eapply Hout. }
  apply wp_bind.
  destruct (entity.Height eb <=? flow.Height sealed) eqn:Hle.
  { apply wp_ret. apply Hrest; [by left|done]. }
  apply N.leb_gt in Hle.
  destruct (checkAuthorizedAtBlock env (entity.ID eb)) as [[]|] eqn:Hauth; [| |done].
  - destruct (broadcastReceipt env (entity.ID eb)) eqn:Hbr.
    + apply wp_modify. apply Hrest; [|done]. right. split_and!; [done..|]. by exists sealed.
    + apply wp_modify. apply Hrest; [by left|done].
  - apply wp_ret. apply Hrest; [by left|done].
Qed.

End Silent.

Lemma stateOf_wp {A} (m : M A) (Q : Engine → Prop) s s' :
  wp m (fun _ => Q) Q s → stateOf (m s) = Some s' → Q s'.
Proof. unfold wp. destruct (m s); simpl; intros H Hs; by simplify_eq. Qed.

(** X7.  Only an execution persists results or broadcasts receipts: a block
    notification, a collection delivery and the reload at startup, and the
    callers [BlockProcessable] and [Ready], leave the execution state and the
    receipts that were broadcast as they were. *)
Theorem only_execution_persists_and_broadcasts env :
  (∀ ev s s', (∀ p, ev ≠ EvExecute p) → stateOf (handle env ev s) = Some s' →
              execState s' = execState s ∧ broadcasted s' = broadcasted s) ∧
  (∀ processable b s s', stateOf (BlockProcessable env processable b s) = Some s' →
                         execState s' = execState s ∧ broadcasted s' = broadcasted s) ∧
  (∀ paused s s', stateOf (Ready env paused s) = Some s' →
                  execState s' = execState s ∧ broadcasted s' = broadcasted s).
Proof.
  split_and!.
  - intros ev s s' Hev Hs.
    assert (silent s s') as [??]; [|done].
    destruct ev as [b|c|p|]; simpl in Hs.
    + by apply (steps_stateOf _ _ _ _ (silent_handleBlock env b) Hs).
    + by apply (steps_stateOf _ _ _ _ (silent_OnCollection env c) Hs).
    + by destruct (Hev p).
    + by apply (steps_stateOf _ _ _ _ (silent_reloadUnexecutedBlocks env) Hs).
  - intros processable b s s' Hs.
    by destruct (steps_stateOf _ _ _ _ (silent_BlockProcessable env processable b) Hs).
  - intros paused s s' Hs.
    by destruct (steps_stateOf _ _ _ _ (silent_Ready env paused) Hs).
Qed.

(** X8.  What an execution writes.  A run of [executeBlock] that does not
    end the process either fails before the save and then persists and
    broadcasts nothing, or saves the results of its own block and of no
    other; it broadcasts at most one receipt, that of its own block, and
    only after the save, on a node that is authorized at the block, for a
    block above the last sealed one. *)
Theorem executeBlock_writes env p s s' eb :
  heap s !! p = Some eb → stateOf (executeBlock env p s) = Some s' →
  (execState s' = execState s ∧ broadcasted s' = broadcasted s ∧
   ∃ msg, executeFails env s eb msg) ∨
  (∃ result,
     execState s' =
       SaveExecutionResults (entity.Height eb) (entity.ID eb) result (execState s) ∧
     (∀ id, id ≠ entity.ID eb →
            commits (execState s') id = commits (execState s) id) ∧
     (broadcasted s' = broadcasted s ∨
      broadcasted s' = broadcasted s ++ [entity.ID eb] ∧
      checkAuthorizedAtBlock env (entity.ID eb) = Some true ∧
      ∃ sealed, sealedHead env = Some sealed ∧ flow.Height sealed < entity.Height eb)).
Proof.
  intros Hp Hs.
  destruct (stateOf_wp _ _ _ _ (outcome_executeBlock env p s eb Hp) Hs)
    as [[[B E] Hf]|(pe&r&_&_&_&E&B)].
  - left. done.
  - right. exists r. split_and!; [done| |].
    + intros id Hne. rewrite E. simpl. unfold override. by rewrite decide_False.
    + destruct B as [B|(B&?&_&?)]; [by left|by right].
Qed.

(** X9.  An executed block is not taken in again.  When the result of the
    parent is known and the computation and the save succeed, a run of
    [executeBlock] that does not end the process leaves the end state of the
    computation as the commitment of the block, its result identifier in
    the result index, and the block marked as executed; from then on
    [handleBlock] for that block returns at once and changes nothing. *)
Theorem executed_block_is_not_taken_again env p s s' eb parentErID result :
  heap s !! p = Some eb →
  resultIDs (execState s) (entity.ParentID eb) = Found parentErID →
  computeBlock env parentErID eb = Some result →
  saveOutcome env (entity.ID eb) result = SaveOk →
  stateOf (executeBlock env p s) = Some s' →
  commits (execState s') (entity.ID eb) = Found (EndState result) ∧
  resultIDs (execState s') (entity.ID eb) = Found (ExecutionResultID result) ∧
  IsBlockExecuted (execState s') (entity.ID eb) = Some true ∧
  ∀ block, flow.BlockID block = entity.ID eb → handleBlock env block s' = Ok s' tt.
Proof.
  intros Hp Hr Hc Hsv Hs.
  destruct (stateOf_wp _ _ _ _ (outcome_executeBlock env p s eb Hp) Hs)
    as [[_ [msg Hf]]|(pe&r&Hr'&Hc'&_&E&_)].
  - destruct Hf as [Hn|pe Hr' Hc'|pe r Hr' Hc' Hsv'].
    + destruct Hn. rewrite Hr. by eexists.
    + congruence.
    + rewrite Hr in Hr'. simplify_eq. congruence.
  - rewrite Hr in Hr'. simplify_eq.
    assert (IsBlockExecuted (execState s') (entity.ID eb) = Some true) as Hx.
    { rewrite E. unfold IsBlockExecuted. simpl. unfold override. by rewrite decide_True. }
    split_and!; [| |done|].
    + rewrite E. simpl. unfold override. by rewrite decide_True.
    + rewrite E. simpl. unfold override. by rewrite decide_True.
    + intros block Hb. unfold handleBlock.
      rewrite (bind_Ok get _ s' s' s' eq_refl). by rewrite Hb, Hx.
Qed.

(** * Collection storage and the delivery *)

Global Instance sameStorage_preorder : PreOrder sameStorage.
Proof.
  split; [by intros s|]. intros a b c [C1 F1] [C2 F2]. split; congruence.
Qed.

Global Instance keepsCollections_preorder : PreOrder keepsCollections.
Proof. split; [by intros s|]. intros a b c H1 H2. unfold keepsCollections in *. congruence. Qed.

Section Storage.
Variable env : Env.

Local Ltac inst := first [ apply _ | by intros ].

Lemma sameStorage_addCollectionToMempool c : steps sameStorage (addCollectionToMempool c).
Proof. apply frame_addCollectionToMempool; inst. Qed.

Lemma keepsCollections_handleBlock b : steps keepsCollections (handleBlock env b).
Proof. apply frame_handleBlock; inst. Qed.

Lemma keepsCollections_executeBlock p : steps keepsCollections (executeBlock env p).
Proof. apply frame_executeBlock; inst. Qed.

Lemma keepsCollections_reloadUnexecutedBlocks :
  steps keepsCollections (reloadUnexecutedBlocks env).
Proof. apply frame_reloadUnexecutedBlocks; inst. Qed.

Lemma handleCollection_stores c s s' :
  storeCollection env c = true →
  stateOf (handleCollection env c s) = Some s' →
  collections s' = override (collections s) (flow.CollID c) (Found c) ∧
  requested s' = requested s.
Proof.
  intros Hst. unfold handleCollection. rewrite Hst.
  rewrite (bind_Ok (modify _) _ s _ tt eq_refl). intros Hs.
  destruct (steps_stateOf _ _ _ _ (sameRequests_addCollectionToMempool c) Hs) as [Hq Hc].
  by rewrite Hc, Hq.
Qed.

End Storage.

(** X10.  Local collection storage is written by a delivery and by nothing
    else.  [OnCollection] stores the collection it is given before it looks
    at the mempool, so the collection is in storage whether or not a block
    waits for it and whether or not the mempool step fails, and it requests
    nothing; when the store fails it only logs.  A block notification, an
    execution and the reload leave storage as it was. *)
Theorem collections_are_stored_by_delivery env :
  (∀ c s s', storeCollection env c = true →
             stateOf (OnCollection env c s) = Some s' →
             collections s' = override (collections s) (flow.CollID c) (Found c) ∧
             requested s' = requested s) ∧
  (∀ c s, storeCollection env c = false →
          OnCollection env c s =
            Ok (setErrors (errors s ++ ["could not handle collection: cannot store collection"])
                  s) tt) ∧
  (∀ ev s s', (∀ c, ev ≠ EvCollection c) → stateOf (handle env ev s) = Some s' →
              collections s' = collections s).
Proof.
  split_and!.
  - intros c s s' Hst. unfold OnCollection, bind, try.
    pose proof (handleCollection_stores env c s) as Hh.
    destruct (handleCollection env c s) as [s1 []|s1 e|e]; simpl; [| |done].
    + intros [= <-]. by apply Hh.
    + intros [= <-]. simpl. by apply Hh.
  - intros c s Hst. unfold OnCollection, handleCollection. by rewrite Hst.
  - intros ev s s' Hev Hs. destruct ev as [b|c|p|]; simpl in Hs.
    + by apply (steps_stateOf _ _ _ _ (keepsCollections_handleBlock env b) Hs).
    + by destruct (Hev c).
    + by apply (steps_stateOf _ _ _ _ (keepsCollections_executeBlock env p) Hs).
    + by apply (steps_stateOf _ _ _ _ (keepsCollections_reloadUnexecutedBlocks env) Hs).
Qed.

(** X11.  A second delivery of a collection is idle.  After a delivery that
    succeeded, delivering the same collection again stores the same
    collection over itself and does nothing else: no block is written, no
    block is launched, and the reverse index stays as it was. *)
Theorem second_delivery_is_idle env c s s1 :
  handleCollection env c s = Ok s1 tt →
  handleCollection env c s1 =
    Ok (setCollections (override (collections s1) (flow.CollID c) (Found c)) s1) tt ∧
  (∀ id, override (collections s1) (flow.CollID c) (Found c) id = collections s1 id) ∧
  blockByCollection s1 !! flow.CollID c = None.
Proof.
  unfold handleCollection. destruct (storeCollection env c) eqn:Hst; [|done].
  rewrite (bind_Ok (modify _) _ s _ tt eq_refl). intros H1.
  pose proof (addCollectionToMempool_removes _ _ _ H1) as Hgone.
  destruct (steps_Ok _ _ _ _ _ (sameRequests_addCollectionToMempool c) H1) as [_ Hc].
  simpl in Hc. split_and!; [|by intros id; rewrite Hc; unfold override; case_decide|done].
  rewrite (bind_Ok (modify _) _ s1 _ tt eq_refl).
  unfold addCollectionToMempool. rewrite (bind_Ok get _ _ _ _ eq_refl). simpl.
  by rewrite Hgone.
Qed.

(** * Requests *)

Lemma existsb_same {A} (f g : A → bool) l :
  (∀ x, f x = g x) → existsb f l = existsb g l.
Proof. intros H. induction l as [|a l IH]; simpl; [done|]. by rewrite H, IH. Qed.

Lemma fetchLoop_fetched env blockID height gs : ∀ fetched s s' r,
  fetchLoop env blockID height gs
    (fun c => wrap "could not add collection to mempool: " (addCollectionToMempool c))
    fetched s = Ok s' r →
  r = fetched || existsb (absent s) gs ∧ forced s' = forced s.
Proof.
  induction gs as [|g gs IH]; intros fetched s s' r; simpl.
  - intros [= <- <-]. by rewrite orb_false_r.
  - unfold bind at 1. unfold get. unfold absent at 1.
    destruct (collections s (flow.CollectionID g)) as [c| |] eqn:Hc; [| |done].
    + unfold bind at 1.
      pose proof (sameStorage_addCollectionToMempool c s) as Hf. unfold wp in Hf.
      unfold wrap. destruct (addCollectionToMempool c s) as [s1 []| |]; [|done..].
      intros Hr. apply IH in Hr as [-> Hr]. destruct Hf as [Hcs Hfo].
      split; [|by rewrite Hr]. simpl. f_equal. apply existsb_same. intros x.
      unfold absent. by rewrite Hcs.
    + unfold bind at 1. unfold wrap, fetchCollection.
      destruct (findGuarantors env g); [|done]. simpl.
      intros Hr. apply IH in Hr as [-> Hr]. split; [|done].
      simpl. by rewrite orb_true_r.
Qed.

(** X12.  The requester is forced exactly when something was requested.
    After [addOrFetch] has returned without error, the requests were forced
    once if local storage lacked the collection of at least one of the
    guarantees, and not at all if it held them all. *)
Theorem addOrFetch_forces_after_a_request env blockID height guarantees s s' :
  addOrFetch env blockID height guarantees s = Ok s' tt →
  forced s' = if existsb (absent s) guarantees then S (forced s) else forced s.
Proof.
  unfold addOrFetch, fetchAndHandleCollection. unfold bind at 1.
  destruct (fetchLoop _ _ _ _ _ _ _) as [s1 r| |] eqn:Hl; [|done..].
  apply fetchLoop_fetched in Hl as [-> Hf]. simpl.
  destruct (existsb (absent s) guarantees); intros [= <-]; simpl; by rewrite Hf.
Qed.

(** * Matching reports a collection once *)

Lemma matchLoop_once p gs : ∀ acc s eb s' out,
  heap s !! p = Some eb → matchLoop p gs acc s = Ok s' out →
  ∃ new, out = acc ++ new ∧ NoDup (flow.GuaranteeID <$> new) ∧
         ∀ g, g ∈ new → blockByCollection s !! flow.GuaranteeID g = None.
Proof.
  induction gs as [|g gs IH]; intros acc s eb s' out Hp.
  - simpl. intros [= <- <-]. exists []. rewrite app_nil_r.
    split_and!; [done|constructor|]. by intros g ?%elem_of_nil.
  - rewrite (matchLoop_cons _ _ _ _ _ _ Hp).
    set (eb1 := entity.setCollection _ _ eb).
    assert (∀ b, heap (setByCollection b (setHeap (<[p := eb1]> (heap s)) s)) !! p = Some eb1)
      as Hp1.
    { intros b. simpl. apply list_lookup_insert_eq. by eapply lookup_lt_Some. }
    destruct (blockByCollection s !! flow.GuaranteeID g) as [e|] eqn:He; intros Hm.
    + destruct (IH _ _ _ _ _ (Hp1 _) Hm) as (new&->&Hnd&Hnew).
      exists new. split_and!; [done|done|]. intros g' Hg'.
      specialize (Hnew g' Hg'). simpl in Hnew.
      destruct (decide (flow.GuaranteeID g' = flow.GuaranteeID g)) as [E|Hne].
      * rewrite E, lookup_insert_eq in Hnew. done.
      * by rewrite lookup_insert_ne in Hnew.
    + destruct (IH _ _ _ _ _ (Hp1 _) Hm) as (new&->&Hnd&Hnew).
      exists (g :: new). rewrite <-app_assoc. split_and!; [done| |].
      * rewrite fmap_cons. apply NoDup_cons. split; [|done].
        intros (g'&E&Hg')%list_elem_of_fmap. specialize (Hnew g' Hg'). simpl in Hnew.
        rewrite <-E, lookup_insert_eq in Hnew. done.
      * intros g' [->|Hg']%elem_of_cons; [done|].
        specialize (Hnew g' Hg'). simpl in Hnew.
        destruct (decide (flow.GuaranteeID g' = flow.GuaranteeID g)) as [E|Hne].
        -- rewrite E, lookup_insert_eq in Hnew. done.
        -- by rewrite lookup_insert_ne in Hnew.
Qed.

(** X13.  The matching reports a collection once.  On a live block
    [matchAndFindMissingCollections] returns without error (its sanity
    check cannot fail), and the guarantees it reports as missing are
    guarantees of distinct collections, none of which had an entry in the
    reverse index, even when the block lists a guarantee twice: no
    collection is requested twice for one block. *)
Theorem matching_reports_a_collection_once p s eb :
  heap s !! p = Some eb →
  ∃ s' missing,
    matchAndFindMissingCollections p s = Ok s' missing ∧
    NoDup (flow.GuaranteeID <$> missing) ∧
    (length missing ≤ length (flow.Guarantees (entity.Block eb)))%nat ∧
    ∀ g, g ∈ missing → blockByCollection s !! flow.GuaranteeID g = None.
Proof.
  intros Hp.
  destruct (matchAndFindMissingCollections_returns p s) as (s'&missing&Hm); [by eexists|].
  exists s', missing. split; [done|].
  unfold matchAndFindMissingCollections in Hm.
  rewrite (bind_Ok _ _ _ _ _ (load_Ok _ _ _ Hp)) in Hm.
  destruct (matchLoop_once _ _ _ _ _ _ _ Hp Hm) as (new&->&Hnd&Hnew).
  split_and!; [done| |done]. simpl.
  destruct (matchLoop_spec p (flow.Guarantees (entity.Block eb)) [] s eb Hp)
    as (s2&new2&_&Hm2&Hin&_).
  rewrite Hm in Hm2. simplify_eq. simpl in *.
  apply NoDup_fmap_1 in Hnd.
  apply (submseteq_length new2). apply NoDup_submseteq; [done|].
  intros g Hg. by apply Hin.
Qed.

(** * A duplicated child *)

Global Instance quiet_preorder : PreOrder quiet.
Proof. split; [by intros s|]. intros a b c [Q1 E1] [Q2 E2]. split; congruence. Qed.

Lemma quiet_matchAndFindMissingCollections p : steps quiet (matchAndFindMissingCollections p).
Proof. apply frame_matchAndFindMissingCollections; first [apply _ | by intros]. Qed.

Lemma quiet_executeBlockIfComplete p : steps quiet (executeBlockIfComplete p).
Proof. apply frame_executeBlockIfComplete; first [apply _ | by intros]. Qed.

Lemma quiet_addOrFetchAll env l : steps quiet (addOrFetchAll env l).
Proof. apply frame_addOrFetchAll; first [apply _ | by intros]. Qed.

(** The matching has no error of its own. *)
Lemma matchAndFindMissingCollections_wp p s :
  wp (matchAndFindMissingCollections p) (fun _ s' => quiet s s') (fun _ => False) s.
Proof.
  pose proof (quiet_matchAndFindMissingCollections p s) as Hq. unfold wp in *.
  destruct (heap s !! p) as [eb|] eqn:Hp.
  - destruct (matchAndFindMissingCollections_returns p s) as (s'&m&Hm); [by eexists|].
    by rewrite Hm in *.
  - unfold matchAndFindMissingCollections, bind, load. by rewrite Hp.
Qed.

Lemma executeBlockIfComplete_wp p s :
  wp (executeBlockIfComplete p) (fun _ s' => quiet s s') (fun _ => False) s.
Proof.
  pose proof (quiet_executeBlockIfComplete p s) as Hq. unfold wp in *.
  destruct (heap s !! p) as [eb|] eqn:Hp.
  - rewrite (executeBlockIfComplete_eq _ _ _ Hp) in *. by repeat case_match.
  - destruct (executeBlockIfComplete_dangling p s Hp) as [e He]. by rewrite He.
Qed.

Lemma requeueLoop_stopped finalState qs : ∀ acc s,
  wp (requeueLoop finalState qs acc) (stopped qs s) (fun _ => False) s.
Proof.
  induction qs as [|q qs IH]; intros acc s; simpl.
  - apply wp_ret. split_and!; [done|done|by constructor|done].
  - apply wp_bind, wp_get. unfold stdmap.QAdd.
    destruct (stdmap.QByID (queue.QueueID q) (executionQueues s)) as [q0|] eqn:Hq; simpl.
    + apply wp_ret. split_and!; [done|done|done|]. by intros e [= <-].
    + apply wp_bind, wp_modify. apply wp_bind, wp_mutate. intros eb Hp.
      set (s2 := setHeap _ _).
      apply wp_bind, wp_try.
      eapply wp_mono; [apply matchAndFindMissingCollections_wp| |done].
      intros missing s3 [Q3 E3]. simpl.
      apply wp_bind.
      eapply wp_mono; [apply executeBlockIfComplete_wp| |done].
      intros ? s4 [Q4 E4]. simpl.
      eapply wp_mono; [apply IH| |done].
      intros r s5 (E5&K5&N5&M5). simpl in Q3, E3.
      assert (executionQueues s4 =
              executionQueues s ++ [(queue.QueueID q, q)]) as Hq4.
      { by rewrite Q4, Q3. }
      split_and!.
      * by rewrite E5, E4, E3.
      * intros k q1 Hk. apply K5. rewrite Hq4, QByID_app. by rewrite Hk.
      * intros Hn. constructor; [done|].
        eapply Forall_impl; [by apply N5|]. simpl. intros q1 H1.
        rewrite Hq4, QByID_app in H1. by destruct (stdmap.QByID (queue.QueueID q1) (executionQueues s)).
      * done.
Qed.

(** X14.  A duplicated child stops the promotion.  When a child of the
    executed block has a key that is already in the queue set,
    [onBlockExecuted], if it does not end the process, logs the error of the
    duplicated child and returns; the queue of the executed block is not
    removed from the set, and every queue that was in the set is still
    there. *)
Theorem duplicated_child_stops_promotion env executed finalState s eb q c s' :
  heap s !! executed = Some eb →
  stdmap.QByID (entity.ID eb) (executionQueues s) = Some q →
  c ∈ queue.children (queue.Head q) →
  is_Some (stdmap.QByID (childKey c) (executionQueues s)) →
  stateOf (onBlockExecuted env executed finalState s) = Some s' →
  errors s' =
    errors s ++ ["error while requeueing blocks after execution: fatal error - child block already in execution queue"] ∧
  stdmap.QByID (entity.ID eb) (executionQueues s') = Some q ∧
  ∀ k q0, stdmap.QByID k (executionQueues s) = Some q0 →
          stdmap.QByID k (executionQueues s') = Some q0.
Proof.
  intros Hp Hq Hc [q1 Hdup] Hs.
  set (Q := fun s' : Engine =>
         errors s' =
           errors s ++ ["error while requeueing blocks after execution: fatal error - child block already in execution queue"] ∧
         ∀ k q0, stdmap.QByID k (executionQueues s) = Some q0 →
                 stdmap.QByID k (executionQueues s') = Some q0).
  assert (wp (onBlockExecuted env executed finalState) (fun _ => Q) Q s) as Hwp;
    [|destruct (stateOf_wp _ _ _ _ Hwp Hs) as [He Hk]; split_and!; [done|by apply Hk|done]].
  unfold Q.
  unfold onBlockExecuted, requeueChildren.
  apply wp_bind, wp_bind, wp_load. intros eb' Hp'. assert (eb' = eb) as -> by congruence.
  apply wp_bind, wp_get. rewrite Hq. unfold queue.Dismount. rewrite map_fmap.
  apply wp_bind.
  eapply wp_mono; [apply requeueLoop_stopped| |done].
  intros [acc [e|]] s1 (E1&K1&N1&M1); simpl in *.
  - rewrite (M1 e eq_refl). apply wp_ret. apply wp_bind, wp_modify.
    eapply wp_mono; [apply quiet_addOrFetchAll| |]; simpl.
    + intros _ s2 [Q2 E2]. simpl in *. split; [by rewrite E2, E1|].
      intros k q0 Hk. rewrite Q2. by apply K1.
    + intros s2 [Q2 E2]. simpl in *. split; [by rewrite E2, E1|].
      intros k q0 Hk. rewrite Q2. by apply K1.
  - specialize (N1 eq_refl). rewrite Forall_forall in N1.
    specialize (N1 (queue.mkQueue c)).
    unfold childKey in Hdup. change (queue.QueueID (queue.mkQueue c)) with
      (queue.ID (queue.item c)) in N1. rewrite N1 in Hdup; [done|].
    by apply list_elem_of_fmap_2.
Qed.

(** * What no event takes away *)

Lemma grows_runEvents env evs : ∀ s s', runEvents env evs s = Some s' → grows s s'.
Proof.
  induction evs as [|ev evs IH]; intros s s'; simpl.
  - intros [= ->]. reflexivity.
  - destruct (stateOf (handle env ev s)) as [s1|] eqn:Hs; [|done].
    intros Hr. etrans; [|by apply IH].
    by apply (steps_stateOf _ _ _ _ (grows_handle env ev) Hs).
Qed.

(** X15.  No event takes anything away.  Through every sequence of events
    that does not end the process, a pointer stays valid and names the same
    block, an executing flag that is set stays set, a start state that is
    set stays set, a launched execution stays in the list of launches, in
    its place, and a persisted commitment stays persisted. *)
Theorem events_take_nothing_away env evs s s' :
  runEvents env evs s = Some s' →
  (∀ p eb, heap s !! p = Some eb →
           ∃ eb', heap s' !! p = Some eb' ∧ entity.Block eb' = entity.Block eb ∧
                  (entity.Executing eb = true → entity.Executing eb' = true) ∧
                  (is_Some (entity.StartState eb) → is_Some (entity.StartState eb'))) ∧
  (∀ i p, launched s !! i = Some p → launched s' !! i = Some p) ∧
  (∀ id, committed s id → committed s' id).
Proof.
  intros Hr. destruct (grows_runEvents env evs s s' Hr) as (Hh&Hl&Hc).
  split_and!; [|by intros i p Hi; eapply prefix_lookup_Some|done].
  intros p eb Hp. destruct (Hh p eb Hp) as (eb'&Hp'&?&?&?). by exists eb'.
Qed.

(** * The highest block a collection was delivered to *)

Global Instance rising_preorder : PreOrder rising.
Proof.
  split; [intros s; unfold rising; lia|]. intros a b c H1 H2. unfold rising in *. lia.
Qed.

Section Rising.
Variable env : Env.

Local Ltac inst := first [ apply _ | by intros | (intros; unfold rising; simpl; lia) ].

Lemma rising_executeBlockIfComplete p : steps rising (executeBlockIfComplete p).
Proof. apply frame_executeBlockIfComplete; inst. Qed.

Lemma rising_handle ev : steps rising (handle env ev).
Proof. apply frame_handle; inst. Qed.

Lemma rising_runEvents evs : ∀ s s', runEvents env evs s = Some s' → rising s s'.
Proof.
  induction evs as [|ev evs IH]; intros s s'; simpl.
  - intros [= ->]. reflexivity.
  - destruct (stateOf (handle env ev s)) as [s1|] eqn:Hs; [|done].
    intros Hr. etrans; [|by apply IH].
    by apply (steps_stateOf _ _ _ _ (rising_handle ev) Hs).
Qed.

End Rising.

Lemma steps_both (R1 R2 : relation Engine) {A} (m : M A) :
  steps R1 m → steps R2 m → steps (fun s s' => R1 s s' ∧ R2 s s') m.
Proof.
  intros H1 H2 s. specialize (H1 s). specialize (H2 s). unfold wp in *.
  by destruct (m s).
Qed.

Lemma deliverLoop_heights c l : ∀ s,
  wp (deliverLoop c l)
    (fun _ s' => rising s s' ∧
                 ∀ k p eb, (k, p) ∈ l → heap s !! p = Some eb →
                           entity.Height eb ≤ maxCollectionHeight s')
    (fun s' => rising s s') s.
Proof.
  induction l as [|[k0 p0] l IH]; intros s; simpl.
  - apply wp_ret. split; [done|]. by intros k p eb ?%elem_of_nil.
  - apply wp_bind, wp_load. intros eb0 Hp0.
    destruct (entity.CompleteCollections eb0 !! flow.CollID c) as [cc|];
      [|apply wp_fail; reflexivity].
    apply wp_bind, wp_modify.
    set (s1 := if maxCollectionHeight s <? entity.Height eb0
               then setMaxHeight (entity.Height eb0) s else s).
    assert (heap s1 = heap s) as Hh1 by (unfold s1; by case_match).
    assert (maxCollectionHeight s ≤ maxCollectionHeight s1 ∧
            entity.Height eb0 ≤ maxCollectionHeight s1) as [Hm1 Hm0].
    { unfold s1. destruct (maxCollectionHeight s <? entity.Height eb0) eqn:Hlt; simpl.
      - apply N.ltb_lt in Hlt. lia.
      - apply N.ltb_ge in Hlt. lia. }
    assert (∀ s2, calm s1 s2 → rising s1 s2 →
                  wp (deliverLoop c l)
                    (fun _ s' => rising s s' ∧
                       ∀ k p eb, (k, p) ∈ (k0, p0) :: l → heap s !! p = Some eb →
                                 entity.Height eb ≤ maxCollectionHeight s')
                    (fun s' => rising s s') s2) as Hrest.
    { intros s2 (_&_&_&Hc2) Hr2. unfold rising in *.
      eapply wp_mono; [apply IH| |]; simpl; [|intros; lia].
      intros _ s' [Hr' Hall]. split; [lia|].
      intros k p eb [[= -> ->]|Hin]%elem_of_cons Hp.
      - assert (eb = eb0) as -> by congruence. lia.
      - rewrite <-Hh1 in Hp. destruct (Hc2 p eb Hp) as (eb'&Hp'&Hb&_).
        specialize (Hall k p eb' Hin Hp'). unfold entity.Height in *. by rewrite <-Hb. }
    destruct (entity.IsCompleted cc).
    + apply Hrest; reflexivity.
    + apply wp_bind, wp_mutate. intros eb1 Hp1. apply wp_bind.
      set (s2 := setHeap _ s1).
      assert (calm s1 s2) as Hc12 by (by apply calm_mutate).
      eapply wp_mono;
        [apply (steps_both calm rising _ (calm_launch p0) (rising_executeBlockIfComplete p0))
        | |]; simpl.
      * intros ? s3 [Hc3 Hr3]. apply Hrest; [by etrans|].
        etrans; [|exact Hr3]. unfold rising. simpl. lia.
      * intros s3 [_ Hr3]. unfold rising in *. simpl in *. lia.
Qed.

(** X16.  The recorded collection height only rises, and a delivery raises
    it to the blocks it reaches: through every sequence of events the
    height does not go down, and after [addCollectionToMempool] has returned
    without error it is at least the height of every block that was listed
    for the collection. *)
Theorem collection_height_rises env :
  (∀ evs s s', runEvents env evs s = Some s' →
               maxCollectionHeight s ≤ maxCollectionHeight s') ∧
  (∀ c s s' p id eb,
     addCollectionToMempool c s = Ok s' tt →
     waits p id (flow.CollID c) s → heap s !! p = Some eb →
     entity.Height eb ≤ maxCollectionHeight s').
Proof.
  split.
  - intros evs s s' Hr. by apply (rising_runEvents env evs s s' Hr).
  - intros c s s' p id eb Ha (e&He&Hin) Hp.
    unfold addCollectionToMempool in Ha.
    rewrite (bind_Ok get _ s s s eq_refl), He in Ha.
    pose proof (deliverLoop_heights c (entity.ExecutableBlocks e) s) as Hd.
    unfold wp in Hd. unfold bind in Ha.
    destruct (deliverLoop c (entity.ExecutableBlocks e) s) as [s1 []| |]; [|done..].
    simpl in Ha. injection Ha as <-. simpl. destruct Hd as [_ Hall]. by eapply Hall.
Qed.

(** * The reload puts every block in the queues *)

Lemma wp_and {A} (m : M A) Q1 Q2 E1 E2 s :
  wp m Q1 E1 s → wp m Q2 E2 s →
  wp m (fun a s' => Q1 a s' ∧ Q2 a s') (fun s' => E1 s' ∧ E2 s') s.
Proof. unfold wp. by destruct (m s). Qed.

Lemma TryAdd_keeps q b q' stored isNew id :
  queue.TryAdd q b = (q', stored, isNew) →
  is_Some (queue.Nodes q id) → is_Some (queue.Nodes q' id).
Proof.
  unfold queue.TryAdd. destruct (queue.Nodes q (queue.ID b)); [by intros [= <- _ _]|].
  destruct (queue.Nodes q (queue.ParentID b)); intros [= <- _ _]; [|done].
  unfold queue.Nodes. simpl. apply find_attach_kept.
Qed.

Lemma tryAddFirst_keeps b id queues : ∀ queues' q isNew k0 q0,
  tryAddFirst b queues = Some (queues', q, isNew) →
  (k0, q0) ∈ queues → is_Some (queue.Nodes q0 id) →
  ∃ q1, (k0, q1) ∈ queues' ∧ is_Some (queue.Nodes q1 id).
Proof.
  induction queues as [|[k qh] rest IH]; intros queues' q isNew k0 q0; simpl; [done|].
  destruct (queue.TryAdd qh b) as [[q1 stored] isNew1] eqn:Ht. destruct stored.
  - intros [= <- <- <-] [[= -> ->]|Hin]%elem_of_cons Hn.
    + exists q1. split; [apply list_elem_of_here|]. by eapply TryAdd_keeps.
    + exists q0. split; [by apply list_elem_of_further|done].
  - destruct (tryAddFirst b rest) as [[[rest' q2] isNew2]|] eqn:Hr; [|done].
    intros [= <- <- <-] [[= -> ->]|Hin]%elem_of_cons Hn.
    + exists qh. split; [apply list_elem_of_here|done].
    + destruct (IH _ _ _ _ _ eq_refl Hin Hn) as (q3&?&?).
      exists q3. split; [by apply list_elem_of_further|done].
Qed.

Lemma enqueue_keeps b queues queues' q added head id :
  enqueue b queues = (queues', q, added, head) →
  (∃ k0 q0, (k0, q0) ∈ queues ∧ is_Some (queue.Nodes q0 id)) →
  ∃ k0 q0, (k0, q0) ∈ queues' ∧ is_Some (queue.Nodes q0 id).
Proof.
  unfold enqueue. intros He (k0&q0&Hin&Hn).
  destruct (tryAddFirst b queues) as [[[qs1 q1] isNew1]|] eqn:Ht.
  - injection He as <- <- <- <-.
    destruct (tryAddFirst_keeps _ _ _ _ _ _ _ _ Ht Hin Hn) as (q2&?&?). by exists k0, q2.
  - unfold newQueue, stdmap.QAdd in He.
    destruct (stdmap.QByID _ queues); injection He as <- <- <- <-.
    + by exists k0, q0.
    + exists k0, q0. split; [|done]. apply elem_of_app. by left.
Qed.

Lemma joined_sameQueues id s s1 s2 : joined id s s1 → sameQueues s1 s2 → joined id s s2.
Proof.
  intros [H1 H2] Hq. split; [by eapply enqueued_sameQueues|].
  intros id0 H0. eapply enqueued_sameQueues; [done|]. by apply H2.
Qed.

Lemma enqueueBlockAndCheckExecutable_joined block s :
  (∀ k q0, (k, q0) ∈ executionQueues s → queue.QueueID q0 = k) →
  wp (enqueueBlockAndCheckExecutable block)
    (fun _ => joined (flow.BlockID block) s) (joined (flow.BlockID block) s) s.
Proof.
  intros Hok.
  set (eb0 := entity.mkExecutable block None ∅ false).
  destruct (enqueue (blockify (length (heap s)) eb0) (executionQueues s))
    as [[[queues q] added] head] eqn:He.
  assert (∀ s1, executionQueues s1 = queues → joined (flow.BlockID block) s s1) as Hj.
  { intros s1 H1. split.
    - destruct (enqueue_enqueues _ _ _ _ _ _ Hok He) as (k&q0&Hin&Hn).
      exists k, q0. by rewrite H1.
    - intros id0 H0. unfold enqueued. rewrite H1. by eapply enqueue_keeps. }
  destruct added.
  - eapply wp_eq; [eapply enqueueBlockAndCheckExecutable_added; exact He|].
    eapply wp_mono; [apply sameQueues_afterEnqueue| |]; simpl.
    + intros ? s1 H1. eapply joined_sameQueues; [|exact H1]. by apply Hj.
    + intros s1 H1. eapply joined_sameQueues; [|exact H1]. by apply Hj.
  - unfold wp. rewrite (enqueueBlockAndCheckExecutable_known _ _ _ _ _ He).
    apply Hj. unfold enqueue in He.
    destruct (tryAddFirst _ _) as [[[qs1 q1] isNew1]|] eqn:Ht.
    + injection He as H1 H2 H3 H4. subst.
      destruct (tryAddFirst_keys _ _ _ _ _ Ht) as [_ Heq]. by rewrite Heq.
    + unfold newQueue, stdmap.QAdd in He.
      destruct (stdmap.QByID _ _); by simplify_eq.
Qed.

Section Reload.
Variable env : Env.
Hypothesis blocks_by_id : ∀ id b, blocksByID env id = Some b → flow.BlockID b = id.

Lemma reloadBlock_joined blockID s :
  Ordered s →
  wp (reloadBlock env blockID)
    (fun _ s' => Ordered s' ∧ joined blockID s s')
    (fun s' => Ordered s' ∧ ∀ id0, enqueued id0 s → enqueued id0 s') s.
Proof using blocks_by_id.
  intros Ho. apply wp_and.
  { eapply wp_mono; [by apply Ordered_reloadBlock|done|done]. }
  unfold reloadBlock. destruct (blocksByID env blockID) as [block|] eqn:Hb;
    [|apply wp_fail; by intros id0 H0].
  rewrite <-(blocks_by_id _ _ Hb).
  assert (∀ k q0, (k, q0) ∈ executionQueues s → queue.QueueID q0 = k) as Hok.
  { destruct Ho as [_ Hok]. intros k q0 Hin. by destruct (Hok k q0 Hin). }
  apply wp_bind, wp_wrap.
  eapply wp_mono; [by apply enqueueBlockAndCheckExecutable_joined| |]; simpl.
  - intros missing s1 Hj. apply wp_wrap.
    eapply wp_mono; [apply (sameQueues_fetchAndHandleCollection env)| |]; simpl.
    + intros c. repeat steps_step. apply sameQueues_addCollectionToMempool.
    + intros; by eapply joined_sameQueues.
    + intros s2 Hq. by destruct (joined_sameQueues _ _ _ _ Hj Hq).
  - by intros s1 [_ ?].
Qed.

Lemma reloadAll_joined l : ∀ s s',
  Ordered s → reloadAll env l s = Ok s' tt →
  Ordered s' ∧ (∀ id, id ∈ l → enqueued id s') ∧ ∀ id0, enqueued id0 s → enqueued id0 s'.
Proof using blocks_by_id.
  induction l as [|id l IH]; intros s s' Ho; simpl.
  - intros [= <-]. split_and!; [done| |done]. by intros id ?%elem_of_nil.
  - unfold bind, wrap. pose proof (reloadBlock_joined id s Ho) as Hwp. unfold wp in Hwp.
    destruct (reloadBlock env id s) as [s1 []|s1 e|e]; [|done..].
    destruct Hwp as [Ho1 [Hj Hk]]. intros Hr.
    destruct (IH _ _ Ho1 Hr) as (Ho'&Hall&Hk'). split_and!; [done| |].
    + intros id1 [->|Hin]%elem_of_cons; [by apply Hk'|by apply Hall].
    + intros id0 H0. by apply Hk', Hk.
Qed.

End Reload.

(** X17.  The reload puts every block it lists in the queues.  When block
    storage answers with the block it was asked for, a reload of a list of
    blocks that returns without error, from a reachable state, leaves every
    block of the list in an execution queue, and every block that was in a
    queue before is still in one. *)
Theorem reloadAll_enqueues_every_block env l s s' :
  (∀ id b, blocksByID env id = Some b → flow.BlockID b = id) →
  reachable env s → reloadAll env l s = Ok s' tt →
  (∀ id, id ∈ l → enqueued id s') ∧ (∀ id, enqueued id s → enqueued id s').
Proof.
  intros Hb Hr Hre.
  by destruct (reloadAll_joined env Hb l s s' (reachable_Ordered env s Hr) Hre) as (_&?&?).
Qed.

(** * The delivery that completes a block launches it *)

Lemma grows_deliverLoop c l : steps grows (deliverLoop c l).
Proof.
  apply gen_deliverLoop; try apply _.
  - intros. by apply grows_same.
  - intros. apply grows_mutate; [done|apply benign_setCollection].
  - apply grows_launch.
Qed.

Lemma started_grows p s s' : grows s s' → started p s → started p s'.
Proof.
  intros (Hh&Hl&_) [Hin (eb&Hp&Hx)]. split.
  - destruct Hl as [k ->]. apply elem_of_app. by left.
  - destruct (Hh p eb Hp) as (eb'&Hp'&_&Hx'&_). exists eb'. split; [done|by apply Hx'].
Qed.

Lemma IsComplete_filled k eb g txs :
  lacksOnly k eb →
  entity.IsComplete (entity.setCollection k (entity.mkComplete g (Some txs)) eb) = true.
Proof.
  intros (_&[c Hc]&_&Hall). unfold entity.IsComplete. simpl. rewrite Hc.
  apply forallb_forall. intros [k' cc] Hin. apply list_elem_of_In in Hin.
  apply elem_of_map_to_list in Hin. simpl in *.
  destruct (decide (k' = k)) as [->|Hne].
  - rewrite lookup_insert_eq in Hin. by simplify_eq.
  - rewrite lookup_insert_ne in Hin; [|done]. by eapply Hall.
Qed.

Section Deliver.
Variables (c : flow.Collection) (p : ptr) (eb : entity.ExecutableBlock).
Hypothesis Hlacks : lacksOnly (flow.CollID c) eb.

Lemma deliverLoop_started l s :
  started p s → wp (deliverLoop c l) (fun _ => started p) (fun _ => True) s.
Proof using Type.
  intros Hs. eapply wp_mono; [apply grows_deliverLoop| |done].
  intros ? s' Hg. simpl in Hg. by eapply started_grows.
Qed.

Lemma deliverLoop_reaches l : ∀ s,
  heap s !! p = Some eb →
  wp (deliverLoop c l)
    (fun _ s' => started p s' ∨ (heap s' !! p = Some eb ∧ ∀ k, (k, p) ∉ l))
    (fun _ => True) s.
Proof using Hlacks.
  induction l as [|[k0 p0] l IH]; intros s Hp; simpl.
  - apply wp_ret. right. split; [done|]. by intros k ?%elem_of_nil.
  - apply wp_bind, wp_load. intros eb0 Hp0.
    destruct (decide (p0 = p)) as [->|Hne].
    + assert (eb0 = eb) as -> by congruence.
      pose proof Hlacks as (Hx&Hst&(cc&Hcc&Htx)&Hall). rewrite Hcc.
      apply wp_bind, wp_modify.
      assert (entity.IsCompleted cc = false) as -> by (unfold entity.IsCompleted; by rewrite Htx).
      apply wp_bind, wp_mutate. intros eb1 Hp1.
      assert (eb1 = eb) as ->.
      { revert Hp1. case_match; simpl; congruence. }
      set (eb2 := entity.setCollection _ _ eb). set (s2 := setHeap _ _).
      assert (heap s2 !! p = Some eb2) as Hp2.
      { unfold s2. simpl. apply list_lookup_insert_eq. by eapply lookup_lt_Some. }
      apply wp_bind. unfold wp at 1.
      rewrite (executeBlockIfComplete_eq _ _ _ Hp2).
      change (entity.Executing eb2) with (entity.Executing eb). rewrite Hx.
      unfold eb2. rewrite IsComplete_filled; [|done]. simpl.
      eapply wp_mono; [apply deliverLoop_started| |done]; [|by intros; left].
      split.
      * simpl. apply elem_of_app. right. apply list_elem_of_here.
      * exists (entity.withExecuting true eb2). split; [|reflexivity]. simpl.
        apply list_lookup_insert_eq. by eapply lookup_lt_Some.
    + destruct (entity.CompleteCollections eb0 !! flow.CollID c) as [cc|]; [|done].
      apply wp_bind, wp_modify.
      set (s1 := if maxCollectionHeight s <? entity.Height eb0
                 then setMaxHeight (entity.Height eb0) s else s).
      assert (heap s1 = heap s) as Hh1 by (unfold s1; by case_match).
      assert (∀ s2, heap s2 !! p = Some eb →
                    wp (deliverLoop c l)
                      (fun _ s' => started p s' ∨
                                   (heap s' !! p = Some eb ∧ ∀ k, (k, p) ∉ (k0, p0) :: l))
                      (fun _ => True) s2) as Hrest.
      { intros s2 Hp2. eapply wp_mono; [by apply IH| |done].
        intros ? s' [Hd|[Hp' Hn]]; [by left|right]. split; [done|].
        intros k [[= _ ?]|Hin]%elem_of_cons; [done|]. by apply (Hn k). }
      destruct (entity.IsCompleted cc).
      * apply Hrest. by rewrite Hh1.
      * apply wp_bind, wp_mutate. intros eb1 Hp1. apply wp_bind.
        eapply wp_mono; [apply (onlyAt_launch p0)| |done].
        intros ? s3 H3. simpl in *. apply Hrest.
        rewrite (H3 p); [|done]. simpl. rewrite list_lookup_insert_ne; [|done].
        by rewrite Hh1.
Qed.

End Deliver.

(** X18.  The delivery that completes a block launches it.  When a block
    that is not executing has its start state and the transactions of every
    collection but one, and is listed in the reverse index for that one, a
    delivery of that collection that returns without error leaves the block
    launched, with its flag set, and the entry of the collection removed. *)
Theorem last_collection_launches_block c s s' p id eb :
  waits p id (flow.CollID c) s → heap s !! p = Some eb →
  lacksOnly (flow.CollID c) eb →
  addCollectionToMempool c s = Ok s' tt →
  p ∈ launched s' ∧ flagged p s' ∧ blockByCollection s' !! flow.CollID c = None.
Proof.
  intros (e&He&Hin) Hp Hl Ha.
  pose proof (addCollectionToMempool_removes _ _ _ Ha) as Hgone.
  unfold addCollectionToMempool in Ha.
  rewrite (bind_Ok get _ s s s eq_refl), He in Ha.
  pose proof (deliverLoop_reaches c p eb Hl (entity.ExecutableBlocks e) s Hp) as Hd.
  unfold wp in Hd. unfold bind in Ha.
  destruct (deliverLoop c (entity.ExecutableBlocks e) s) as [s1 []| |]; [|done..].
  simpl in Ha. injection Ha as <-.
  destruct Hd as [[Hla Hfl]|[_ Hn]]; [|by destruct (Hn id)].
  split_and!; [done| |done].
  destruct Hfl as (eb'&?&?). by exists eb'.
Qed.

(** * The queries *)

(** X19.  The queries read the state that an execution persisted.  A query
    at a block without a persisted commitment fails and never reaches the
    computation manager; a script or an account read at a block whose state
    is no longer held fails too, while a register read does not make that
    check; and after an execution has saved the results of a block, a script
    at that block runs on the end state of that execution, and the engine is
    left as it was. *)
Theorem queries_read_the_persisted_state {Account} env (q : Queries Account) :
  (∀ s blockID script arguments owner key addr,
     ¬ isFound (commits (execState s) blockID) →
     ExecuteScriptAtBlockID env q script arguments blockID s =
       Failed s "failed to get state commitment for block" ∧
     GetRegisterAtBlockID q owner key blockID s =
       Failed s "failed to get state commitment for block" ∧
     GetAccount env q addr blockID s =
       Failed s "failed to get state commitment for block") ∧
  (∀ s blockID stateCommit script arguments owner key addr,
     commits (execState s) blockID = Found stateCommit →
     hasState q stateCommit = false →
     (∃ e, ExecuteScriptAtBlockID env q script arguments blockID s = Failed s e) ∧
     (∃ e, GetAccount env q addr blockID s = Failed s e) ∧
     GetRegisterAtBlockID q owner key blockID s =
       match getRegister q stateCommit owner key with
       | inl data => Ok s data
       | inr e => Failed s ("failed to get the register: " +:+ e)
       end) ∧
  (∀ p s s' eb parentErID result header script arguments,
     heap s !! p = Some eb →
     resultIDs (execState s) (entity.ParentID eb) = Found parentErID →
     computeBlock env parentErID eb = Some result →
     saveOutcome env (entity.ID eb) result = SaveOk →
     stateOf (executeBlock env p s) = Some s' →
     hasState q (EndState result) = true →
     atBlockID env (entity.ID eb) = Some header →
     ExecuteScriptAtBlockID env q script arguments (entity.ID eb) s' =
       match executeScript q script arguments header (EndState result) with
       | inl out => Ok s' out
       | inr e => Failed s' e
       end).
Proof.
  split_and!.
  - intros s blockID script arguments owner key addr Hn.
    unfold ExecuteScriptAtBlockID, GetRegisterAtBlockID, GetAccount.
    rewrite !(bind_Ok get _ s s s eq_refl).
    destruct (commits (execState s) blockID); [|done..]. destruct Hn. by eexists.
  - intros s blockID stateCommit script arguments owner key addr Hc Hh.
    unfold ExecuteScriptAtBlockID, GetRegisterAtBlockID, GetAccount.
    rewrite !(bind_Ok get _ s s s eq_refl), Hc, Hh. simpl.
    split_and!; [by eexists|by eexists|]. by destruct (getRegister _ _ _ _).
  - intros p s s' eb pe r header script arguments Hp Hr Hc Hsv Hs Hh Ha.
    assert (commits (execState s') (entity.ID eb) = Found (EndState r)) as Hcm.
    { destruct (stateOf_wp _ _ _ _ (outcome_executeBlock env p s eb Hp) Hs)
        as [[_ [msg Hf]]|(pe'&r'&Hr'&Hc'&_&E&_)].
      - destruct Hf as [Hn|pe' Hr' Hc'|pe' r' Hr' Hc' Hsv'].
        + destruct Hn. rewrite Hr. by eexists.
        + congruence.
        + rewrite Hr in Hr'. simplify_eq. congruence.
      - rewrite Hr in Hr'. simplify_eq. rewrite E. simpl. unfold override.
        by rewrite decide_True. }
    unfold ExecuteScriptAtBlockID.
    rewrite (bind_Ok get _ s' s' s' eq_refl), Hcm, Hh, Ha. simpl.
    by destruct (executeScript _ _ _ _ _).
Qed.

(** * The theorems on the small chain *)

Import examples.

(** The runs of the examples start from a new engine. *)
Lemma initial_s0 : initial s0.
Proof. by repeat split. Qed.

Lemma reachable_after env evs s :
  reachable env s → is_Some (runEnabled env evs s) → reachable env (after env evs s).
Proof.
  intros Hr [s' Hs]. unfold after. rewrite Hs. simpl. by eapply reachable_runEnabled.
Qed.

Lemma reachable_siblings : reachable env0 siblings.
Proof. apply reachable_after; [apply reach_init, initial_s0|]. vm_compute. by eexists. Qed.

(** Two siblings are launched together, neither waits for the other, and
    their executions run in either order. *)
Example siblings_run_in_either_order :
  launched siblings = [0; 1]%nat ∧
  ¬ committed siblings 1 ∧ ¬ committed siblings 2 ∧
  (∃ s', runEnabled env0 [EvExecute 0; EvExecute 1] siblings = Some s' ∧
         committed s' 1 ∧ committed s' 2) ∧
  (∃ s', runEnabled env0 [EvExecute 1; EvExecute 0] siblings = Some s' ∧
         committed s' 1 ∧ committed s' 2).
Proof.
  split_and!.
  - by vm_compute.
  - intros [a H]. vm_compute in H. discriminate.
  - intros [a H]. vm_compute in H. discriminate.
  - eexists. split; [vm_compute; reflexivity|]. split; by eexists.
  - eexists. split; [vm_compute; reflexivity|]. split; by eexists.
Qed.

(** The ordering invariant at the state where both children of the root
    have arrived: each of the two launched blocks has a persisted parent. *)
Lemma parent_executed_before_child_witness :
  reachable env0 siblings ∧
  ∀ p, p ∈ launched siblings →
       ∃ eb, heap siblings !! p = Some eb ∧ entity.Executing eb = true ∧
             is_Some (entity.StartState eb) ∧ committed siblings (entity.ParentID eb).
Proof.
  split; [exact reachable_siblings|].
  exact (proj1 (proj2 (parent_executed_before_child env0 siblings reachable_siblings))).
Defined.

(** The latch on a complete block that is not executing: the call launches
    it. *)
Lemma executeBlockIfComplete_one_shot_witness :
  heap ready !! 0%nat = Some readyBlock ∧
  ∃ s', executeBlockIfComplete 0 ready = Ok s' true ∧ launched s' = [0%nat].
Proof.
  split; [reflexivity|].
  destruct (proj1 (proj2 (executeBlockIfComplete_one_shot env0 ready 0 readyBlock eq_refl))
              eq_refl eq_refl) as (s'&H1&_&H2&_).
  exists s'. split; [exact H1|exact H2].
Defined.

(** The promotion on a queue of a parent and one child: the child heads a
    queue of its own, the parent is gone, the child is promoted. *)
Lemma onBlockExecuted_promotes_children_witness :
  ∃ s1 missing,
    requeueChildren 0 1001 chain = Ok s1 (missing, None) ∧
    stdmap.QByID 1 (executionQueues s1) = None ∧
    stdmap.QByID 3 (executionQueues s1) = Some (queue.mkQueue childNode) ∧
    promoted 1001 1 s1.
Proof.
  destruct (onBlockExecuted_promotes_children env0 0 1001 chain parentBlock chainQueue)
    as (s1&missing&H1&_&H2&H3&_).
  - reflexivity.
  - reflexivity.
  - apply NoDup_singleton.
  - intros c Hc. apply list_elem_of_singleton in Hc as ->. reflexivity.
  - intros c Hc. apply list_elem_of_singleton in Hc as ->. by eexists.
  - exists s1, missing. split; [exact H1|]. split; [exact H2|].
    apply (H3 childNode), list_elem_of_here.
Defined.

Lemma reachable_failing : reachable envFailing failing.
Proof. apply reachable_after; [apply reach_init, initial_s0|]. vm_compute. by eexists. Qed.

(** A failed computation of the first child: the call returns with a line
    in the log and the flag still set. *)
Lemma failed_execution_leaves_block_stuck_witness :
  reachable envFailing failing ∧
  executeBlock envFailing 0 failing =
    Ok (setErrors (errors failing ++ ["error while computing block"]) failing) tt ∧
  flagged 0 (setErrors (errors failing ++ ["error while computing block"]) failing).
Proof.
  split; [exact reachable_failing|].
  destruct (failed_execution_leaves_block_stuck envFailing failing 0 parentBlock
              "error while computing block" reachable_failing) as (H1&_&_&H2&_).
  - vm_compute. apply list_elem_of_here.
  - vm_compute. reflexivity.
  - apply (fails_compute _ _ _ 70); reflexivity.
  - split; [exact H1|exact H2].
Defined.

(** A child of the root is enqueued with the commitment of the root as
    start state. *)
Lemma enqueue_populates_start_state_witness :
  ∃ s' missing eb,
    enqueueBlockAndCheckExecutable A1 s0 = Ok s' missing ∧
    heap s' !! 0%nat = Some eb ∧ entity.Block eb = A1 ∧ entity.StartState eb = Some 7.
Proof.
  eapply (enqueue_populates_start_state A1 s0). vm_compute. reflexivity.
Defined.


(** No queue holds the executed block: one line in the log. *)
Lemma onBlockExecuted_missing_block_is_logged_witness :
  stdmap.QByID (entity.ID readyBlock) (executionQueues ready) = None ∧
  onBlockExecuted env0 0 8 ready =
    Ok (setErrors
          ["error while requeueing blocks after execution: block has been executed already, no longer exists in the queue"]
          ready) tt.
Proof.
  split; [reflexivity|].
  exact (onBlockExecuted_missing_block_is_logged env0 0 8 ready readyBlock eq_refl eq_refl).
Defined.

(** The executed block is missing from the queue set and the process goes
    on: the call returns, with an error in the log. *)
Lemma onBlockExecuted_missing_block_not_fatal :
  heap ready !! 0%nat = Some readyBlock ∧
  stdmap.QByID (entity.ID readyBlock) (executionQueues ready) = None ∧
  ∃ s', onBlockExecuted env0 0 8 ready = Ok s' tt ∧ length (errors s') = 1%nat.
Proof. split_and!; [done|done|]. eexists. split; [vm_compute; reflexivity|done]. Qed.

(** Storage holds the collection, and the matching reports its guarantee
    missing all the same and fills no transactions. *)
Lemma matching_ignores_storage :
  stored held 50 ∧
  ∃ s' eb',
    matchAndFindMissingCollections 0 held = Ok s' [flow.mkGuarantee 50] ∧
    heap s' !! 0%nat = Some eb' ∧ unfilled eb' 50.
Proof.
  split; [by exists 50, (flow.mkCollection 50 [1; 2])|].
  eexists _, _. split; [vm_compute; reflexivity|]. split; [reflexivity|].
  eexists. split; [vm_compute; reflexivity|done].
Qed.

(** The executed block is the only one listed for its collection;
    [onBlockExecuted] takes its queue away and leaves the entry. *)
Lemma onBlockExecuted_keeps_reverse_index :
  blockByCollection listed !! 50 = Some (entity.mkByCollection 50 [(5, 0%nat)]) ∧
  ∃ s', onBlockExecuted env0 0 8 listed = Ok s' tt ∧
        executionQueues s' = [] ∧
        blockByCollection s' !! 50 = Some (entity.mkByCollection 50 [(5, 0%nat)]).
Proof.
  split; [by vm_compute|]. eexists. split; [vm_compute; reflexivity|].
  split; [done|by vm_compute].
Qed.

Lemma reachable_early : reachable env0 early.
Proof. apply reachable_after; [apply reach_init, initial_s0|]. vm_compute. by eexists. Qed.

(** C2.  [handleBlock] on a block that is enqueued already.  Block 4 heads
    a queue of its own and the queue of block 1, probed first, holds its
    parent: three notifications lead there.  One more notification of block 4
    is not a no-op: [enqueue] reports the block as added, a second executable
    block of block 4 is allocated and hangs under block 3, and the queues
    change.  With the same two queues probed in the other order the call
    changes nothing, so whether a repeated notification adds a copy depends
    on the order in which the queue set is ranged over. *)
Theorem handleBlock_adds_enqueued_block :
  reachable env0 early ∧ enqueued 4 early ∧
  IsBlockExecuted (execState early) 4 = Some false ∧
  (∃ queues q,
     enqueue (blockify 3 (entity.mkExecutable A4 None ∅ false)) (executionQueues early)
       = (queues, q, true, false)) ∧
  (∃ s' eb eb',
     handleBlock env0 A4 early = Ok s' tt ∧
     length (heap s') = S (length (heap early)) ∧
     executionQueues s' ≠ executionQueues early ∧
     heap s' !! 1%nat = Some eb ∧ heap s' !! 3%nat = Some eb' ∧
     entity.Block eb = A4 ∧ entity.Block eb' = A4) ∧
  handleBlock env0 A4 (setQueues (reverse (executionQueues early)) early)
    = Ok (setQueues (reverse (executionQueues early)) early) tt.
Proof.
  split; [exact reachable_early|]. split_and!.
  - eexists _, _. split; [vm_compute; apply list_elem_of_further, list_elem_of_here|].
    vm_compute. by eexists.
  - reflexivity.
  - eexists _, _. vm_compute. reflexivity.
  - eexists _, _, _. split; [vm_compute; reflexivity|].
    split; [by vm_compute|]. split; [intros H; vm_compute in H; discriminate|].
    split; [reflexivity|]. split; [reflexivity|]. split; reflexivity.
  - vm_compute. reflexivity.
Qed.

Lemma reachable_twoCopies : reachable env0 twoCopies.
Proof. apply reachable_after; [apply reach_init, initial_s0|]. vm_compute. by eexists. Qed.

(** C6.  [onBlockExecuted] on a block whose child is enqueued twice.  After
    the notifications of blocks 1, 4, 3 and 4 again and the execution of
    block 1, block 3 is launched and heads a queue with the second copy of
    block 4 below it, while the first copy heads the queue of key 4.  The
    execution of block 3 persists its result and calls [onBlockExecuted],
    which returns normally with an error in the log: the queue of block 3 is
    still in the set, the child has not become the head of a queue of its
    own, neither copy of block 4 has a start state, and none is launched. *)
Theorem onBlockExecuted_keeps_duplicated_child :
  reachable env0 twoCopies ∧ 2%nat ∈ launched twoCopies ∧
  (∃ eb q c,
     heap twoCopies !! 2%nat = Some eb ∧ entity.Block eb = A3 ∧
     stdmap.QByID 3 (executionQueues twoCopies) = Some q ∧
     queue.children (queue.Head q) = [c] ∧ childKey c = 4 ∧ childPtr c = 3%nat) ∧
  (∃ s',
     onBlockExecuted env0 2 1003 twoCopies = Ok s' tt ∧
     errors s' =
       ["error while requeueing blocks after execution: fatal error - child block already in execution queue"] ∧
     stdmap.QByID 3 (executionQueues s') = stdmap.QByID 3 (executionQueues twoCopies) ∧
     stdmap.QByID 4 (executionQueues s') =
       Some (queue.NewQueue (blockify 1 (entity.mkExecutable A4 None ∅ false))) ∧
     heap s' !! 1%nat = Some (entity.mkExecutable A4 None ∅ false) ∧
     heap s' !! 3%nat = Some (entity.mkExecutable A4 None ∅ false) ∧
     launched s' = [0; 2]%nat) ∧
  (∃ s',
     executeBlock env0 2 twoCopies = Ok s' tt ∧
     commits (execState s') 3 = Found 1003 ∧
     is_Some (stdmap.QByID 3 (executionQueues s')) ∧
     heap s' !! 1%nat = Some (entity.mkExecutable A4 None ∅ false) ∧
     heap s' !! 3%nat = Some (entity.mkExecutable A4 None ∅ false) ∧
     launched s' = [0; 2]%nat).
Proof.
  split; [exact reachable_twoCopies|]. split_and!.
  - vm_compute. apply list_elem_of_further, list_elem_of_here.
  - eexists _, _, _. split; [vm_compute; reflexivity|].
    split; [reflexivity|]. split; [vm_compute; reflexivity|].
    split; [reflexivity|]. split; reflexivity.
  - eexists. split; [vm_compute; reflexivity|].
    split; [reflexivity|]. split; [reflexivity|]. split; [reflexivity|].
    split; [reflexivity|]. split; reflexivity.
  - eexists. split; [vm_compute; reflexivity|].
    split; [reflexivity|]. split; [vm_compute; by eexists|].
    split; [reflexivity|]. split; reflexivity.
Qed.




(** The finalized chain above the root, none of it executed: the scan
    returns, and lists as many blocks as there are heights above the last
    executed one. *)
Lemma finalizedUnexecutedBlocks_spec_witness :
  finalHead envChain = Some (header 3 2 1) ∧
  ∃ h ids, finalizedUnexecutedBlocks envChain s0 = Ok s0 ids ∧
           length ids = N.to_nat (2 - h).
Proof.
  split; [reflexivity|].
  destruct (proj1 (finalizedUnexecutedBlocks_spec envChain (header 3 2 1) (header 100 0 0) s0
                     eq_refl eq_refl)) as (h&ids&H1&_&_&_&H2&_).
  - reflexivity.
  - intros k Hk. simpl in Hk. assert (k = 1 ∨ k = 2) as [->| ->] by lia.
    + exists (header 1 1 100). split; [reflexivity|]. by eexists.
    + exists (header 3 2 1). split; [reflexivity|]. by eexists.
  - exists h, ids. split; [exact H1|exact H2].
Defined.

(** Storage holds the result of every block of the chain: the reload and
    [Ready] leave the engine as it was. *)
Lemma startup_with_nothing_to_execute_witness :
  highestExecuted (execState caughtUp) = Some (2, 3) ∧
  reloadUnexecutedBlocks envChain caughtUp = Ok caughtUp tt ∧
  Ready envChain false caughtUp = Ok caughtUp tt.
Proof.
  split; [reflexivity|].
  destruct (startup_with_nothing_to_execute envChain caughtUp 2 3 (header 3 2 1)
              (header 100 0 0) (header 3 2 1) [4] eq_refl eq_refl eq_refl) as (H1&H2&_).
  - right. reflexivity.
  - reflexivity.
  - reflexivity.
  - right. exists (header 3 2 1). split; reflexivity.
  - reflexivity.
  - repeat constructor.
  - split; [exact H1|exact H2].
Defined.

(** The child of the first of two siblings joins the queue of its parent:
    the keys of the set stay as they were and the queue handed back holds
    the child. *)
Lemma enqueue_contract_witness :
  ∃ queues' q,
    enqueue (blockify 2 childBlock) (executionQueues siblings) = (queues', q, true, false) ∧
    queues'.*1 = (executionQueues siblings).*1 ∧
    ∃ k, (k, q) ∈ queues' ∧ is_Some (queue.Nodes q 3).
Proof.
  eexists _, _. split; [vm_compute; reflexivity|].
  destruct (enqueue_contract (blockify 2 childBlock) (executionQueues siblings) _ _ true false
              ltac:(vm_compute; reflexivity)) as (_&H2&_&H4).
  split; [exact (H4 eq_refl)|exact (H2 eq_refl)].
Defined.

(** The first child arrives at a new engine and is in a queue afterwards. *)
Lemma handleBlock_enqueues_witness :
  reachable env0 s0 ∧ IsBlockExecuted (execState s0) 1 = Some false ∧
  enqueued 1 (after env0 [EvBlock A1] s0).
Proof.
  split; [apply reach_init, initial_s0|]. split; [reflexivity|].
  apply (proj1 (handleBlock_enqueues env0 A1 s0 (reach_init env0 s0 initial_s0) eq_refl)).
  vm_compute. reflexivity.
Defined.

(** The execution of the first sibling saves its results and broadcasts its
    receipt; the commitment of the second stays unset. *)
Lemma executeBlock_writes_witness :
  heap siblings !! 0%nat = Some parentBlock ∧
  stateOf (executeBlock env0 0 siblings) = Some firstDone ∧
  ((execState firstDone = execState siblings ∧ broadcasted firstDone = broadcasted siblings ∧
    ∃ msg, executeFails env0 siblings parentBlock msg) ∨
   (∃ result,
      execState firstDone =
        SaveExecutionResults (entity.Height parentBlock) (entity.ID parentBlock) result
          (execState siblings) ∧
      (∀ id, id ≠ entity.ID parentBlock →
             commits (execState firstDone) id = commits (execState siblings) id) ∧
      (broadcasted firstDone = broadcasted siblings ∨
       broadcasted firstDone = broadcasted siblings ++ [entity.ID parentBlock] ∧
       checkAuthorizedAtBlock env0 (entity.ID parentBlock) = Some true ∧
       ∃ sealed, sealedHead env0 = Some sealed ∧
                 flow.Height sealed < entity.Height parentBlock))).
Proof.
  assert (heap siblings !! 0%nat = Some parentBlock) as Hp by (vm_compute; reflexivity).
  assert (stateOf (executeBlock env0 0 siblings) = Some firstDone) as Hs
    by (vm_compute; reflexivity).
  split; [exact Hp|]. split; [exact Hs|].
  exact (executeBlock_writes env0 0 siblings firstDone parentBlock Hp Hs).
Defined.

(** After the execution of the first sibling a second notification of it
    changes nothing. *)
Lemma executed_block_is_not_taken_again_witness :
  IsBlockExecuted (execState firstDone) 1 = Some true ∧
  handleBlock env0 A1 firstDone = Ok firstDone tt.
Proof.
  assert (heap siblings !! 0%nat = Some parentBlock) as Hp by (vm_compute; reflexivity).
  assert (stateOf (executeBlock env0 0 siblings) = Some firstDone) as Hs
    by (vm_compute; reflexivity).
  destruct (executed_block_is_not_taken_again env0 0 siblings firstDone parentBlock 70
              (mkResult 1001 2001) Hp eq_refl eq_refl eq_refl Hs) as (_&_&H3&H4).
  split; [exact H3|]. apply H4. reflexivity.
Defined.

(** The collection of the waiting block is delivered twice: the second
    delivery finds no entry in the reverse index. *)
Lemma second_delivery_is_idle_witness :
  handleCollection env0 C50 waiting = Ok delivered tt ∧
  handleCollection env0 C50 delivered =
    Ok (setCollections (override (collections delivered) 50 (Found C50)) delivered) tt ∧
  blockByCollection delivered !! 50 = None.
Proof.
  assert (handleCollection env0 C50 waiting = Ok delivered tt) as H
    by (vm_compute; reflexivity).
  split; [exact H|].
  destruct (second_delivery_is_idle env0 C50 waiting delivered H) as (H1&_&H3).
  split; [exact H1|exact H3].
Defined.

(** Local storage lacks the one collection asked for: the requests are
    forced once. *)
Lemma addOrFetch_forces_after_a_request_witness :
  ∃ s', addOrFetch env0 5 1 [flow.mkGuarantee 50] s0 = Ok s' tt ∧ forced s' = 1%nat.
Proof.
  eexists. split; [vm_compute; reflexivity|].
  exact (addOrFetch_forces_after_a_request env0 5 1 [flow.mkGuarantee 50] s0 _
           ltac:(vm_compute; reflexivity)).
Defined.

(** A block that lists the same guarantee twice: the matching reports no
    collection twice. *)
Lemma matching_reports_a_collection_once_witness :
  length (flow.Guarantees G2) = 2%nat ∧
  ∃ s' missing,
    matchAndFindMissingCollections 0 twice = Ok s' missing ∧
    NoDup (flow.GuaranteeID <$> missing) ∧ (length missing ≤ 2)%nat.
Proof.
  split; [reflexivity|].
  destruct (matching_reports_a_collection_once 0 twice (entity.mkExecutable G2 (Some 7) ∅ false)
              eq_refl) as (s'&missing&H1&H2&H3&_).
  exists s', missing. split; [exact H1|]. split; [exact H2|exact H3].
Defined.

(** The child of the executed block heads a queue already: the promotion
    stops with the error in the log and the two queues in place. *)
Lemma duplicated_child_stops_promotion_witness :
  stdmap.QByID 3 (executionQueues doubled) =
    Some (queue.mkQueue (queue.mkNode (blockify 2 childBlock) [])) ∧
  errors stoppedAt =
    ["error while requeueing blocks after execution: fatal error - child block already in execution queue"] ∧
  stdmap.QByID 1 (executionQueues stoppedAt) = Some chainQueue.
Proof.
  split; [reflexivity|].
  destruct (duplicated_child_stops_promotion env0 0 1001 doubled parentBlock chainQueue
              childNode stoppedAt) as (H1&H2&_).
  - reflexivity.
  - reflexivity.
  - apply list_elem_of_here.
  - by eexists.
  - vm_compute. reflexivity.
  - split; [exact H1|exact H2].
Defined.

(** The executions of the two siblings: the launches stay in their places
    and the commitment of the root stays persisted. *)
Lemma events_take_nothing_away_witness :
  ∃ s', runEvents env0 [EvExecute 0; EvExecute 1] siblings = Some s' ∧
        launched s' !! 1%nat = Some 1%nat ∧ committed s' 100.
Proof.
  eexists. split; [vm_compute; reflexivity|].
  destruct (events_take_nothing_away env0 [EvExecute 0; EvExecute 1] siblings _
              ltac:(vm_compute; reflexivity)) as (_&H2&H3).
  split; [apply H2; reflexivity|]. apply H3. by exists 7.
Defined.

(** The three blocks of the chain are reloaded into a new engine: each of
    them is in a queue. *)
Lemma reloadAll_enqueues_every_block_witness :
  reloadAll envChain [1; 3; 4] s0 = Ok restarted tt ∧
  enqueued 1 restarted ∧ enqueued 3 restarted ∧ enqueued 4 restarted.
Proof.
  assert (reloadAll envChain [1; 3; 4] s0 = Ok restarted tt) as H by (vm_compute; reflexivity).
  split; [exact H|].
  destruct (reloadAll_enqueues_every_block envChain [1; 3; 4] s0 restarted) as [Hall _].
  - intros id b. unfold envChain, blocksByID.
    destruct (decide (id = 1)) as [->|_]; [intros [= <-]; reflexivity|].
    destruct (decide (id = 3)) as [->|_]; [intros [= <-]; reflexivity|].
    destruct (decide (id = 4)) as [->|_]; [intros [= <-]; reflexivity|].
    intros Hb. discriminate Hb.
  - apply reach_init, initial_s0.
  - exact H.
  - split; [apply Hall, list_elem_of_here|].
    split; [apply Hall, list_elem_of_further, list_elem_of_here|].
    apply Hall, list_elem_of_further, list_elem_of_further, list_elem_of_here.
Defined.

(** The block that waits for one collection is launched by its delivery. *)
Lemma last_collection_launches_block_witness :
  waits 0 5 50 waiting ∧
  ∃ s', addCollectionToMempool C50 waiting = Ok s' tt ∧
        0%nat ∈ launched s' ∧ flagged 0 s' ∧ blockByCollection s' !! 50 = None.
Proof.
  assert (waits 0 5 50 waiting) as Hw.
  { exists (entity.mkByCollection 50 [(5, 0%nat)]).
    split; [vm_compute; reflexivity|apply list_elem_of_here]. }
  split; [exact Hw|].
  eexists. split; [vm_compute; reflexivity|].
  eapply (last_collection_launches_block C50 waiting _ 0 5
            (entity.mkExecutable G1 (Some 7)
               {[ 50 := entity.mkComplete (flow.mkGuarantee 50) None ]} false) Hw).
  - vm_compute. reflexivity.
  - split; [reflexivity|]. split; [by eexists|]. split.
    + eexists. split; [vm_compute; reflexivity|reflexivity].
    + intros k' cc Hk Hne. simpl in Hk.
      apply lookup_singleton_Some in Hk as [Hk _]. by destruct Hne.
  - vm_compute. reflexivity.
Defined.

(** The first child of the root arrives after the second: it heads a new
    queue and is launched at once. *)
Lemma handleBlock_launches_ready_block_witness :
  executionQueues alone ≠ [] ∧
  ∃ s', handleBlock env0 A1 alone = Ok s' tt ∧
        launched s' = launched alone ++ [1%nat] ∧
        heap s' = heap alone ++ [parentBlock].
Proof.
  split; [intros H; vm_compute in H; discriminate H|].
  destruct (handleBlock_launches_ready_block env0 A1 alone 7) as (s'&H1&H2&H3&_).
  - reflexivity.
  - vm_compute. repeat constructor.
  - reflexivity.
  - reflexivity.
  - reflexivity.
  - exists s'. split; [exact H1|]. split; [exact H3|exact H2].
Defined.

(** After the execution of the first sibling a script at that block runs
    on the end state of the execution. *)
Lemma queries_read_the_persisted_state_witness :
  stateOf (executeBlock envChain 0 siblings) = Some firstDone ∧
  ExecuteScriptAtBlockID envChain queries0 [Byte.x01] [] 1 firstDone =
    Ok firstDone [Byte.x01].
Proof.
  assert (heap siblings !! 0%nat = Some parentBlock) as Hp by (vm_compute; reflexivity).
  assert (stateOf (executeBlock envChain 0 siblings) = Some firstDone) as Hs
    by (vm_compute; reflexivity).
  split; [exact Hs|].
  exact (proj2 (proj2 (queries_read_the_persisted_state envChain queries0))
           0%nat siblings firstDone parentBlock 70 (mkResult 1001 2001) (header 1 1 100)
           [Byte.x01] [] Hp eq_refl eq_refl eq_refl Hs eq_refl eq_refl).
Defined.
